(** * vm-installer: the installation pipeline, embedded and verified

    The program turns an installer ISO into a virtual-machine disk image
    and publishes that image inside a container image.  Almost all of it
    is calls to external tools and to the operating system.  The embedding
    keeps every function of the source as the tree of the calls it makes
    ([Prog]); what a call answers is up to an environment ([Env]), of which
    nothing is assumed but what a statement says.  The calls of Go's
    standard library ([filepath], [os], [ioutil], [flag], [log]) follow the
    library's documentation.

    A tree has two readings.  [exec] is the goroutine that calls a function
    running it to its end, no other goroutine taking a step meanwhile.
    [run_pool] interleaves the main goroutine with the goroutine that
    [runMachine] starts, one call or one access to the variable they share
    at a time, in the order a schedule gives. *)

From stdpp Require Import gmap strings list.
From Stdlib Require Import Ascii ZArith.

Local Open Scope Z_scope.

(** ** Strings and paths *)

(** A Go [error] value is identified by its message; [None] is [nil]. *)
Definition error := string.

Definition nl : string := String "010"%char EmptyString.
Definition slash : ascii := "/"%char.

(** [strings.Split(s, "/")]. *)
Fixpoint split_slash (s : string) : list string :=
  match s with
  | EmptyString => [EmptyString]
  | String c s' =>
      if Ascii.eqb c slash then EmptyString :: split_slash s'
      else match split_slash s' with
           | x :: xs => String c x :: xs
           | [] => [String c EmptyString]
           end
  end.

(** [strings.Join(elems, "/")]. *)
Fixpoint join_slash (elems : list string) : string :=
  match elems with
  | [] => EmptyString
  | [e] => e
  | e :: rest => e +:+ "/" +:+ join_slash rest
  end.

Definition rooted (path : string) : bool :=
  match path with
  | String c _ => Ascii.eqb c slash
  | EmptyString => false
  end.

(** One path element met by [filepath.Clean]; [st] holds the elements kept
    so far, last one first.  Empty and [.] elements are dropped, [..]
    removes the element before it, or is dropped at the root, or is kept
    at the front of a relative path. *)
Definition clean_elem (root : bool) (st : list string) (e : string)
  : list string :=
  if decide (e = EmptyString) then st
  else if decide (e = ".") then st
  else if decide (e = "..") then
    match st with
    | top :: st' => if decide (top = "..") then e :: st else st'
    | [] => if root then [] else [e]
    end
  else e :: st.

(** [filepath.Clean] on a Unix path. *)
Definition Clean (path : string) : string :=
  let st := foldl (clean_elem (rooted path)) [] (split_slash path) in
  let body := join_slash (reverse st) in
  if rooted path then "/" +:+ body
  else if decide (body = EmptyString) then "." else body.

(** [filepath.Join]: leading empty elements are skipped, the rest is joined
    with the separator and cleaned. *)
Fixpoint Join (elem : list string) : string :=
  match elem with
  | [] => EmptyString
  | e :: rest =>
      if decide (e = EmptyString) then Join rest else Clean (join_slash elem)
  end.

Fixpoint strip_slashes (rev_path : list ascii) : list ascii :=
  match rev_path with
  | c :: rest => if Ascii.eqb c slash then strip_slashes rest else rev_path
  | [] => []
  end.

Fixpoint last_elem (rev_path : list ascii) (acc : list ascii) : list ascii :=
  match rev_path with
  | c :: rest => if Ascii.eqb c slash then acc else last_elem rest (c :: acc)
  | [] => acc
  end.

(** [filepath.Base]: the last element of the path, trailing separators
    removed first; [.] for the empty path and [/] for a path of
    separators only. *)
Definition Base (path : string) : string :=
  if decide (path = EmptyString) then "."
  else
    let stripped := strip_slashes (reverse (String.list_ascii_of_string path)) in
    match last_elem stripped [] with
    | [] => "/"
    | name => String.string_of_list_ascii name
    end.

(** A plain file name: not empty, not [.] or [..], no separator in it. *)
Definition plain_name (name : string) : Prop :=
  name ≠ EmptyString ∧ name ≠ "." ∧ name ≠ ".."
  ∧ Forall (λ c, Ascii.eqb c slash = false) (String.list_ascii_of_string name).

(** ** The world outside the program *)

(** Regular files by path with their content, and the directories that
    exist. *)
Record FS := mkFS { files : gmap string string; dirs : gset string }.

(** [p] is [dir] itself or lies below it. *)
Definition under (dir p : string) : bool :=
  bool_decide (p = dir) || String.prefix (dir +:+ "/") p.

(** What [os.RemoveAll] leaves: the path and everything below it are gone;
    the empty path removes nothing. *)
Definition remove_all (path : string) (s : FS) : FS :=
  if decide (path = EmptyString) then s
  else mkFS (filter (λ kv, under path kv.1 = false) (files s))
            (filter (λ d, under path d = false) (dirs s)).

(** Everything the program sees of a run as it is made: one entry per call
    that leaves the program, with the answer it got. *)
Inductive Event :=
| EvRun (argv : list string) (out : string) (err : option error)
| EvStart (argv : list string) (err : option error)
| EvWait (out : string) (err : option error)
| EvSignal (err : option error)
| EvReadString
| EvGo
| EvLog (msg : string)
| EvUsage
| EvExit (code : Z)
| EvTempDir (name : string) (err : option error)
| EvWriteFile (path data : string) (perm : Z) (err : option error)
| EvRename (old new : string) (err : option error)
| EvRemoveAll (path : string).

Global Instance Event_eq_dec : EqDecision Event.
Proof. solve_decision. Defined.

(** The answers of the environment.  External programs are opaque: a
    program run to completion gives its standard output, its exit error
    and the file system it leaves.  The emulator is told whether the
    interrupt reached it.  System calls whose error the code looks at can
    fail for reasons of the environment's own. *)
Record Env := mkEnv {
  tool : list string → FS → string * option error * FS;
  start_err : list string → FS → option error;
  emulator : bool → FS → string * option error * FS;
  signal_err : option error;
  temp_dir : string → string → FS → string * option error;
  write_err : string → FS → option error;
  rename_err : string → string → FS → option error
}.

(** The state of a run: the file system, the events so far (oldest first),
    the variable [err] of [runMachine], which the goroutine it spawns
    shares, and whether the interrupt was delivered. *)
Record World := mkWorld {
  fs : FS;
  events : list Event;
  var_err : option error;
  interrupted : bool
}.

Definition emit (ev : Event) (w : World) : World :=
  mkWorld (fs w) (events w ++ [ev]) (var_err w) (interrupted w).

Definition set_fs (s : FS) (w : World) : World :=
  mkWorld s (events w) (var_err w) (interrupted w).

Definition ENOENT : error := "no such file or directory".

Section Primitives.
Context (env : Env).

(** [cmd.Run()] with [cmd.Stdout] set to a buffer, then [out.String()]. *)
Definition do_Run (argv : list string) (w : World)
  : (string * option error) * World :=
  let '(out, err, s) := tool env argv (fs w) in
  ((out, err), emit (EvRun argv out err) (set_fs s w)).

Definition do_Start (argv : list string) (w : World) : option error * World :=
  let err := start_err env argv (fs w) in
  (err, emit (EvStart argv err) w).

(** [cmd.Wait()]: the emulator has exited, by the interrupt or by itself. *)
Definition do_Wait (w : World) : (string * option error) * World :=
  let '(out, err, s) := emulator env (interrupted w) (fs w) in
  ((out, err), emit (EvWait out err) (set_fs s w)).

Definition do_Signal (w : World) : option error * World :=
  let err := signal_err env in
  (err, emit (EvSignal err)
          (mkWorld (fs w) (events w) (var_err w)
                   (interrupted w || bool_decide (err = None)))).

(** [ioutil.TempDir]: on success the named directory exists. *)
Definition do_TempDir (dir pfx : string) (w : World)
  : (string * option error) * World :=
  let '(name, err) := temp_dir env dir pfx (fs w) in
  let s := match err with
           | None => mkFS (files (fs w)) ({[name]} ∪ dirs (fs w))
           | Some _ => fs w
           end in
  ((name, err), emit (EvTempDir name err) (set_fs s w)).

Definition do_WriteFile (path data : string) (perm : Z) (w : World)
  : option error * World :=
  match write_err env path (fs w) with
  | Some e => (Some e, emit (EvWriteFile path data perm (Some e)) w)
  | None =>
      (None, emit (EvWriteFile path data perm None)
               (set_fs (mkFS (<[path := data]> (files (fs w))) (dirs (fs w))) w))
  end.

(** [os.Rename] of a regular file: the content moves to the new name and
    the old name is gone; a missing source is an error. *)
Definition do_Rename (old new : string) (w : World) : option error * World :=
  let err := match rename_err env old new (fs w) with
             | Some e => Some e
             | None => match files (fs w) !! old with
                       | Some _ => None
                       | None => Some ENOENT
                       end
             end in
  let s := match err, files (fs w) !! old with
           | None, Some data =>
               mkFS (<[new := data]> (delete old (files (fs w)))) (dirs (fs w))
           | _, _ => fs w
           end in
  (err, emit (EvRename old new err) (set_fs s w)).

Definition do_RemoveAll (path : string) (w : World) : World :=
  emit (EvRemoveAll path) (set_fs (remove_all path (fs w)) w).

Definition do_Store (e : option error) (w : World) : World :=
  mkWorld (fs w) (events w) e (interrupted w).
End Primitives.

Global Arguments do_Run : simpl never.
Global Arguments do_Start : simpl never.
Global Arguments do_Wait : simpl never.
Global Arguments do_Signal : simpl never.
Global Arguments do_TempDir : simpl never.
Global Arguments do_WriteFile : simpl never.
Global Arguments do_Rename : simpl never.
Global Arguments do_RemoveAll : simpl never.
Global Arguments do_Store : simpl never.
Global Arguments emit : simpl never.
Global Arguments set_fs : simpl never.

(** ** Programs *)

(** A function of the source as the tree of the calls it makes; every call
    that returns something continues with the answer.  [Exit] is
    [os.Exit]: nothing follows it, deferred calls included.  [Go] starts a
    goroutine.  [Store] and [Load] write and read the shared [err]. *)
Inductive Prog (A : Type) : Type :=
| Ret (a : A)
| Run (argv : list string) (k : string * option error → Prog A)
| Start (argv : list string) (k : option error → Prog A)
| Wait (k : string * option error → Prog A)
| Signal (k : option error → Prog A)
| ReadString (k : Prog A)
| Go (g : Prog unit) (k : Prog A)
| Log (msg : string) (k : Prog A)
| Usage (k : Prog A)
| Exit (code : Z)
| TempDir (dir pfx : string) (k : string * option error → Prog A)
| WriteFile (path data : string) (perm : Z) (k : option error → Prog A)
| Rename (old new : string) (k : option error → Prog A)
| RemoveAll (path : string) (k : Prog A)
| Store (e : option error) (k : Prog A)
| Load (k : option error → Prog A).

Arguments Ret {A} a.
Arguments Run {A} argv k.
Arguments Start {A} argv k.
Arguments Wait {A} k.
Arguments Signal {A} k.
Arguments ReadString {A} k.
Arguments Go {A} g k.
Arguments Log {A} msg k.
Arguments Usage {A} k.
Arguments Exit {A} code.
Arguments TempDir {A} dir pfx k.
Arguments WriteFile {A} path data perm k.
Arguments Rename {A} old new k.
Arguments RemoveAll {A} path k.
Arguments Store {A} e k.
Arguments Load {A} k.

Fixpoint bind {A B} (p : Prog A) (f : A → Prog B) : Prog B :=
  match p with
  | Ret a => f a
  | Run argv k => Run argv (λ r, bind (k r) f)
  | Start argv k => Start argv (λ r, bind (k r) f)
  | Wait k => Wait (λ r, bind (k r) f)
  | Signal k => Signal (λ r, bind (k r) f)
  | ReadString k => ReadString (bind k f)
  | Go g k => Go g (bind k f)
  | Log msg k => Log msg (bind k f)
  | Usage k => Usage (bind k f)
  | Exit code => Exit code
  | TempDir dir pfx k => TempDir dir pfx (λ r, bind (k r) f)
  | WriteFile path data perm k => WriteFile path data perm (λ r, bind (k r) f)
  | Rename old new k => Rename old new (λ r, bind (k r) f)
  | RemoveAll path k => RemoveAll path (bind k f)
  | Store e k => Store e (bind k f)
  | Load k => Load (λ r, bind (k r) f)
  end.

Global Instance Prog_ret : MRet Prog := @Ret.
Global Instance Prog_bind : MBind Prog := λ A B f p, bind p f.

(** [log.Fatal]: print, then [os.Exit(1)]. *)
Definition Fatal {A} (msg : string) : Prog A := Log msg (Exit 1).

(** [defer cleanup] at the head of [body]: the cleanup runs when the body
    returns, and not when the body ends the process. *)
Definition defer {A} (cleanup : Prog unit) (body : Prog A) : Prog A :=
  r ← body; cleanup ;; mret r.

(** How a function ends: it returns, or the process is gone. *)
Inductive Outcome (A : Type) : Type :=
| Returned (a : A)
| Exited (code : Z).
Arguments Returned {A} a.
Arguments Exited {A} code.

(** One step of a goroutine. *)
Inductive Step (A : Type) : Type :=
| Finished (a : A)
| Next (p : Prog A) (w : World) (spawned : option (Prog unit))
| Stopped (code : Z) (w : World).
Arguments Finished {A} a.
Arguments Next {A} p w spawned.
Arguments Stopped {A} code w.

Section Semantics.
Context (env : Env).

(** The calling goroutine alone runs [p] to its end; a goroutine it
    starts takes no step. *)
Fixpoint exec {A} (p : Prog A) (w : World) : World * Outcome A :=
  match p with
  | Ret a => (w, Returned a)
  | Run argv k => let '(r, w') := do_Run env argv w in exec (k r) w'
  | Start argv k => let '(r, w') := do_Start env argv w in exec (k r) w'
  | Wait k => let '(r, w') := do_Wait env w in exec (k r) w'
  | Signal k => let '(r, w') := do_Signal env w in exec (k r) w'
  | ReadString k => exec k (emit EvReadString w)
  | Go _ k => exec k (emit EvGo w)
  | Log msg k => exec k (emit (EvLog msg) w)
  | Usage k => exec k (emit EvUsage w)
  | Exit code => (emit (EvExit code) w, Exited code)
  | TempDir dir pfx k => let '(r, w') := do_TempDir env dir pfx w in exec (k r) w'
  | WriteFile path data perm k =>
      let '(r, w') := do_WriteFile env path data perm w in exec (k r) w'
  | Rename old new k => let '(r, w') := do_Rename env old new w in exec (k r) w'
  | RemoveAll path k => exec k (do_RemoveAll path w)
  | Store e k => exec k (do_Store e w)
  | Load k => exec (k (var_err w)) w
  end.

Definition step {A} (p : Prog A) (w : World) : Step A :=
  match p with
  | Ret a => Finished a
  | Run argv k => let '(r, w') := do_Run env argv w in Next (k r) w' None
  | Start argv k => let '(r, w') := do_Start env argv w in Next (k r) w' None
  | Wait k => let '(r, w') := do_Wait env w in Next (k r) w' None
  | Signal k => let '(r, w') := do_Signal env w in Next (k r) w' None
  | ReadString k => Next k (emit EvReadString w) None
  | Go g k => Next k (emit EvGo w) (Some g)
  | Log msg k => Next k (emit (EvLog msg) w) None
  | Usage k => Next k (emit EvUsage w) None
  | Exit code => Stopped code (emit (EvExit code) w)
  | TempDir dir pfx k =>
      let '(r, w') := do_TempDir env dir pfx w in Next (k r) w' None
  | WriteFile path data perm k =>
      let '(r, w') := do_WriteFile env path data perm w in Next (k r) w' None
  | Rename old new k =>
      let '(r, w') := do_Rename env old new w in Next (k r) w' None
  | RemoveAll path k => Next k (do_RemoveAll path w) None
  | Store e k => Next k (do_Store e w) None
  | Load k => Next (k (var_err w)) w None
  end.

(** Whose turn it is. *)
Inductive Turn := MainTurn | GoTurn.

(** The main goroutine and the goroutine it may have started, run in the
    order the schedule gives; a turn of a goroutine that is not there is
    lost.  A blocking call takes its step when it is given a turn: a turn
    at [ReadString] is the operator's line arriving, a turn at [Wait] is
    the emulator having exited.  When the schedule is used up the main
    goroutine runs on alone. *)
Fixpoint run_pool {A} (sched : list Turn) (main : Prog A)
         (gor : option (Prog unit)) (w : World) : World * Outcome A :=
  match sched with
  | [] => exec main w
  | MainTurn :: sched' =>
      match step main w with
      | Finished a => (w, Returned a)
      | Next main' w' spawned =>
          run_pool sched' main'
                   (match spawned with Some g => Some g | None => gor end) w'
      | Stopped code w' => (w', Exited code)
      end
  | GoTurn :: sched' =>
      match gor with
      | None => run_pool sched' main None w
      | Some g =>
          match step g w with
          | Finished _ => run_pool sched' main None w
          | Next g' w' _ => run_pool sched' main (Some g') w'
          | Stopped code w' => (w', Exited code)
          end
      end
  end.
End Semantics.

(** ** The program *)

Definition imageFilename : string := "base.qcow2".

Record Config := mkConfig {
  isoFilepath : string;
  imageSize : string;
  image : string;
  kvm : bool;
  compress : bool
}.

(** One flag set on the command line.  A command line is the list of the
    flags it sets, in order; [flag.Parse] stores each value in the variable
    registered for the flag, so a flag given twice keeps its last value.
    Command lines that [flag.Parse] ends by itself never reach the code
    that follows it; they are those of [CommandLine], further down. *)
Inductive FlagArg :=
| FlagIso (v : string)
| FlagSize (v : string)
| FlagImage (v : string)
| FlagKvm (v : bool)
| FlagCompress (v : bool).

(** The values the five flags are registered with. *)
Definition flag_defaults : Config :=
  mkConfig EmptyString "50G" EmptyString false false.

Definition flag_set (c : Config) (a : FlagArg) : Config :=
  match a with
  | FlagIso v => mkConfig v (imageSize c) (image c) (kvm c) (compress c)
  | FlagSize v => mkConfig (isoFilepath c) v (image c) (kvm c) (compress c)
  | FlagImage v => mkConfig (isoFilepath c) (imageSize c) v (kvm c) (compress c)
  | FlagKvm v => mkConfig (isoFilepath c) (imageSize c) (image c) v (compress c)
  | FlagCompress v => mkConfig (isoFilepath c) (imageSize c) (image c) (kvm c) v
  end.

Definition flag_Parse (args : list FlagArg) : Config :=
  foldl flag_set flag_defaults args.

Definition newConfigFromFlags (args : list FlagArg) : Prog Config :=
  let c := flag_Parse args in
  if bool_decide (isoFilepath c = EmptyString ∨ image c = EmptyString)
  then Usage (Exit 1)
  else mret c.

Record Installer := mkInstaller {
  config : Config;
  contextDir : string;
  imageFilepath : string
}.

Definition newInstaller (config : Config) : Prog (Installer * option error) :=
  '(dir, err) ← TempDir EmptyString "docker-context" Ret;
  mret (mkInstaller config dir (Join [dir; imageFilename]), err).

(** [exec.Command(argv...)] with its output captured, run to the end. *)
Definition run_command (argv : list string) : Prog (string * option error) :=
  Run argv Ret.

Definition createImage (i : Installer) : Prog (string * option error) :=
  run_command ["qemu-img"; "create"; "-f"; "qcow2";
               imageFilepath i; imageSize (config i)].

Definition tempFilepath (i : Installer) : string := imageFilepath i +:+ ".temp".

Definition convert_argv (i : Installer) : list string :=
  ["qemu-img"; "convert"; "-O"; "qcow2"; "-c"; imageFilepath i; tempFilepath i].

Definition compressImage (i : Installer) : Prog (string * option error) :=
  '(out, err) ← run_command (convert_argv i);
  match err with
  | Some _ => mret (out, err)
  | None =>
      err ← Rename (tempFilepath i) (imageFilepath i) Ret;
      mret (out, err)
  end.

Definition dockerFilepath (i : Installer) : string :=
  Join [contextDir i; "Dockerfile"].

Definition dockerfileContents (i : Installer) : string :=
  "FROM busybox" +:+ nl +:+ "COPY " +:+ Base (imageFilepath i) +:+ " /base_image/".

(** The permission bits are the octal 0777. *)
Definition writeDockerfile (i : Installer) : Prog (option error) :=
  WriteFile (dockerFilepath i) (dockerfileContents i) 511 Ret.

Definition build_argv (i : Installer) : list string :=
  ["docker"; "build"; "-t"; image (config i); contextDir i].

Definition buildImage (i : Installer) : Prog (string * option error) :=
  err ← writeDockerfile i;
  match err with
  | Some _ => mret (EmptyString, err)
  | None => run_command (build_argv i)
  end.

Definition pushImage (i : Installer) : Prog (string * option error) :=
  run_command ["docker"; "push"; image (config i)].

(** The emulator's command line; with [kvm] the acceleration option is
    put right after the program name. *)
Definition runMachine_args (i : Installer) : list string :=
  let args := ["qemu-system-x86_64";
               "-m"; "size=1024";
               "-smp"; "cpus=1";
               "-cdrom"; isoFilepath (config i);
               "-vnc"; "0.0.0.0:0";
               "-drive"; "file=" +:+ imageFilepath i] in
  if kvm (config i)
  then (take 1 args ++ ["-enable-kvm"]) ++ drop 1 args
  else args.

(** The goroutine of [runMachine].  It assigns the result of the signal
    to the [err] of the enclosing function and then tests that variable. *)
Definition await_operator : Prog unit :=
  Log "Press [enter] when installation is complete."
    (ReadString
       (err ← Signal Ret;
        Store err
          (err' ← Load Ret;
           match err' with
           | Some e => Fatal e
           | None => mret tt
           end))).

(** When the emulator does not start nothing has been written to the
    buffer, so the output returned is empty. *)
Definition runMachine (i : Installer) : Prog (string * option error) :=
  err ← Start (runMachine_args i) Ret;
  Store err
    (match err with
     | Some _ => mret (EmptyString, err)
     | None =>
         Go await_operator
           ('(out, err) ← Wait Ret;
            Store err
              (err' ← Load Ret;
               mret (out, err')))
     end).

(** The text given to the logger is recorded without the time stamp and
    the line end the logger adds. *)
Definition Install (i : Installer) : Prog (option error) :=
  Log ("Context dir: " +:+ contextDir i)
    (defer (RemoveAll (contextDir i) (Ret tt))
       (Log "Creating machine image..."
          ('(output, err) ← createImage i;
           match err with
           | Some _ => Log output (mret err)
           | None =>
               Log "Starting machine..."
                 ('(output, err) ← runMachine i;
                  match err with
                  | Some _ => Log output (mret err)
                  | None =>
                      let rest :=
                        Log "Building Docker image..."
                          ('(output, err) ← buildImage i;
                           match err with
                           | Some _ => Log output (mret err)
                           | None =>
                               Log "Pushing Docker image..."
                                 ('(output, err) ← pushImage i;
                                  match err with
                                  | Some _ => Log output (mret err)
                                  | None => mret None
                                  end)
                           end) in
                      if compress (config i) then
                        Log "Compressing image..."
                          ('(output, err) ← compressImage i;
                           match err with
                           | Some _ => Log output (mret err)
                           | None => rest
                           end)
                      else rest
                  end)
           end))).

Definition processList : list string :=
  ["docker"; "qemu-system-x86_64"; "qemu-img"].

Definition getFilepath (processName : string) : Prog (string * option error) :=
  run_command ["which"; processName].

(** The loop over [processList] at the head of [main]. *)
Fixpoint check_dependencies (names : list string) : Prog unit :=
  match names with
  | [] => mret tt
  | process :: rest =>
      '(_, err) ← getFilepath process;
      match err with
      | Some _ => Fatal ("Missing dependency: " +:+ process)
      | None => check_dependencies rest
      end
  end.

(** Returning from [main] ends the process with status 0. *)
Definition main (args : list FlagArg) : Prog unit :=
  check_dependencies processList ;;
  config ← newConfigFromFlags args;
  '(installer, err) ← newInstaller config;
  match err with
  | Some e => Fatal e
  | None =>
      err ← Install installer;
      match err with
      | Some e => Fatal e
      | None => Log "Done." (mret tt)
      end
  end.

(** ** What the claims speak of *)

(** The value options take on the emulator's command line:
    [-m], [-smp], [-cdrom], [-vnc] and [-drive] are followed by their
    value, [-enable-kvm] stands alone. *)
Definition takes_value (opt : string) : bool :=
  bool_decide (opt ∈ ["-m"; "-smp"; "-cdrom"; "-vnc"; "-drive"]).

Fixpoint emulator_options (args : list string) : list (string * option string) :=
  match args with
  | [] => []
  | opt :: rest =>
      if takes_value opt then
        match rest with
        | v :: rest' => (opt, Some v) :: emulator_options rest'
        | [] => [(opt, None)]
        end
      else (opt, None) :: emulator_options rest
  end.

(** An external program that writes no file but [dst]. *)
Definition writes_only (env : Env) (argv : list string) (dst : string) : Prop :=
  ∀ s p, p ≠ dst → files (tool env argv s).2 !! p = files s !! p.

(** The path and everything below it are absent. *)
Definition absent (dir : string) (s : FS) : Prop :=
  ∀ p, under dir p = true → files s !! p = None ∧ p ∉ dirs s.

(** The events a run added to those of the world it started in. *)
Definition since (w w' : World) : list Event :=
  drop (length (events w)) (events w').

(** The five stages of the pipeline, in their order. *)
Inductive Stage :=
| CreateStage | RunStage | CompressStage | BuildStage | PushStage.

Global Instance Stage_eq_dec : EqDecision Stage.
Proof. solve_decision. Defined.

Definition stage_prog (s : Stage) (i : Installer) : Prog (string * option error) :=
  match s with
  | CreateStage => createImage i
  | RunStage => runMachine i
  | CompressStage => compressImage i
  | BuildStage => buildImage i
  | PushStage => pushImage i
  end.

(** The line logged before a stage is called. *)
Definition announcement (s : Stage) : string :=
  match s with
  | CreateStage => "Creating machine image..."
  | RunStage => "Starting machine..."
  | CompressStage => "Compressing image..."
  | BuildStage => "Building Docker image..."
  | PushStage => "Pushing Docker image..."
  end.

(** The stages a run goes through: Create, Run, Compress when configured,
    Build, Push. *)
Definition pipeline (i : Installer) : list Stage :=
  [CreateStage; RunStage]
    ++ (if compress (config i) then [CompressStage] else [])
    ++ [BuildStage; PushStage].

(** The stages of [l] are announced and called one after the other and
    each returns without an error; the world they leave. *)
Fixpoint run_stages (env : Env) (i : Installer) (l : list Stage) (w : World)
  : option World :=
  match l with
  | [] => Some w
  | s :: rest =>
      match exec env (stage_prog s i) (emit (EvLog (announcement s)) w) with
      | (w', Returned (_, None)) => run_stages env i rest w'
      | _ => None
      end
  end.

(** The stage a call belongs to, by what is called: the two forms of
    [qemu-img], the two forms of [docker], the emulator's process, the
    rename of the compression and the write of the build descriptor. *)
Definition stage_of (ev : Event) : option Stage :=
  match ev with
  | EvRun (prog :: verb :: _) _ _ =>
      if decide (prog = "qemu-img" ∧ verb = "create") then Some CreateStage
      else if decide (prog = "qemu-img" ∧ verb = "convert") then Some CompressStage
      else if decide (prog = "docker" ∧ verb = "build") then Some BuildStage
      else if decide (prog = "docker" ∧ verb = "push") then Some PushStage
      else None
  | EvStart _ _ | EvWait _ _ | EvGo => Some RunStage
  | EvRename _ _ _ => Some CompressStage
  | EvWriteFile _ _ _ _ => Some BuildStage
  | _ => None
  end.

(** Stage [s] was invoked: one of its calls is among the events. *)
Definition invoked (s : Stage) (evs : list Event) : Prop :=
  ∃ ev, ev ∈ evs ∧ stage_of ev = Some s.

(** The events of the lookups of [names] that found every name. *)
Definition lookups (names outs : list string) : list Event :=
  zip_with (λ name out, EvRun ["which"; name] out None) names outs.


Definition is_RemoveAll (ev : Event) : bool :=
  match ev with EvRemoveAll _ => true | _ => false end.

Definition is_Signal (ev : Event) : bool :=
  match ev with EvSignal _ => true | _ => false end.

Definition is_Exit (ev : Event) : bool :=
  match ev with EvExit _ => true | _ => false end.

Definition is_Wait (ev : Event) : bool :=
  match ev with EvWait _ _ => true | _ => false end.

Definition is_failed_Start (ev : Event) : bool :=
  match ev with EvStart _ (Some _) => true | _ => false end.

(** The emulator's exit was waited for, or the emulator did not start. *)
Definition waited (evs : list Event) : Prop :=
  existsb is_Wait evs = true ∨ existsb is_failed_Start evs = true.

(** At most one signal among the events, and a line read before it. *)
Definition signal_once_after_line (evs : list Event) : Prop :=
  (length (filter is_Signal evs) ≤ 1)%nat
  ∧ ∀ pre err post, evs = pre ++ EvSignal err :: post → EvReadString ∈ pre.

(** ** Shapes of programs *)

(** A goroutine that leaves the files alone and starts no goroutine: it
    logs, reads the operator's line, signals, exits, and uses [err]. *)
Fixpoint Quiet {A} (p : Prog A) : Prop :=
  match p with
  | Ret _ | Exit _ => True
  | Signal k | Load k => ∀ r, Quiet (k r)
  | ReadString k | Log _ k | Usage k | Store _ k => Quiet k
  | Run _ _ | Start _ _ | Wait _ | Go _ _ | TempDir _ _ _ | WriteFile _ _ _ _
  | Rename _ _ _ | RemoveAll _ _ => False
  end.

(** A program all of whose goroutines are quiet. *)
Fixpoint GoQuiet {A} (p : Prog A) : Prop :=
  match p with
  | Ret _ | Exit _ => True
  | Go g k => Quiet g ∧ GoQuiet k
  | Run _ k | Wait k | TempDir _ _ k => ∀ r, GoQuiet (k r)
  | Start _ k | Signal k | WriteFile _ _ _ k | Rename _ _ k | Load k =>
      ∀ r, GoQuiet (k r)
  | ReadString k | Log _ k | Usage k | RemoveAll _ k | Store _ k => GoQuiet k
  end.

(** A program that does not return before it has waited for the emulator,
    unless starting the emulator failed. *)
Fixpoint Awaits {A} (p : Prog A) : Prop :=
  match p with
  | Ret _ => False
  | Wait _ | Exit _ => True
  | Start _ k => Awaits (k None)
  | Run _ k | TempDir _ _ k => ∀ r, Awaits (k r)
  | Signal k | WriteFile _ _ _ k | Rename _ _ k | Load k => ∀ r, Awaits (k r)
  | ReadString k | Go _ k | Log _ k | Usage k | RemoveAll _ k | Store _ k =>
      Awaits k
  end.

(** A program that never signals, never reads the operator's line and
    starts no goroutine. *)
Fixpoint Silent {A} (p : Prog A) : Prop :=
  match p with
  | Ret _ | Exit _ => True
  | Signal _ | ReadString _ | Go _ _ => False
  | Run _ k | Wait k | TempDir _ _ k => ∀ r, Silent (k r)
  | Start _ k | WriteFile _ _ _ k | Rename _ _ k | Load k => ∀ r, Silent (k r)
  | Log _ k | Usage k | RemoveAll _ k | Store _ k => Silent k
  end.

(** A goroutine that never signals. *)
Fixpoint NoSignal {A} (p : Prog A) : Prop :=
  match p with
  | Ret _ | Exit _ => True
  | Signal _ | Go _ _ => False
  | Run _ k | Wait k | TempDir _ _ k => ∀ r, NoSignal (k r)
  | Start _ k | WriteFile _ _ _ k | Rename _ _ k | Load k => ∀ r, NoSignal (k r)
  | ReadString k | Log _ k | Usage k | RemoveAll _ k | Store _ k => NoSignal k
  end.

(** A goroutine that signals at most once. *)
Fixpoint OneSignal {A} (p : Prog A) : Prop :=
  match p with
  | Ret _ | Exit _ => True
  | Signal k => ∀ r, NoSignal (k r)
  | Go _ _ => False
  | Run _ k | Wait k | TempDir _ _ k => ∀ r, OneSignal (k r)
  | Start _ k | WriteFile _ _ _ k | Rename _ _ k | Load k => ∀ r, OneSignal (k r)
  | ReadString k | Log _ k | Usage k | RemoveAll _ k | Store _ k => OneSignal k
  end.

(** A goroutine that signals at most once, and not before it has read the
    operator's line. *)
Fixpoint SignalAfterLine {A} (p : Prog A) : Prop :=
  match p with
  | Ret _ | Exit _ => True
  | ReadString k => OneSignal k
  | Signal _ | Go _ _ => False
  | Run _ k | Wait k | TempDir _ _ k => ∀ r, SignalAfterLine (k r)
  | Start _ k | WriteFile _ _ _ k | Rename _ _ k | Load k =>
      ∀ r, SignalAfterLine (k r)
  | Log _ k | Usage k | RemoveAll _ k | Store _ k => SignalAfterLine k
  end.

(** A main goroutine that itself is silent but for starting, at most once,
    a goroutine that signals after the operator's line. *)
Fixpoint SpawnsWaiter {A} (p : Prog A) : Prop :=
  match p with
  | Ret _ | Exit _ => True
  | Go g k => SignalAfterLine g ∧ Silent k
  | Signal _ | ReadString _ => False
  | Run _ k | Wait k | TempDir _ _ k => ∀ r, SpawnsWaiter (k r)
  | Start _ k | WriteFile _ _ _ k | Rename _ _ k | Load k =>
      ∀ r, SpawnsWaiter (k r)
  | Log _ k | Usage k | RemoveAll _ k | Store _ k => SpawnsWaiter k
  end.

(** ** A simulated environment for concrete runs *)

Module Sim.
(** The tools as their command lines document them: [qemu-img create]
    makes the image file, [qemu-img convert] reads its input and writes
    only its output, the other programs leave the files alone.  A program
    whose command line [fails] writes a message and exits with status 1;
    a failing conversion leaves a partial output file behind. *)
Definition tool (fails : list string → bool) (argv : list string) (s : FS)
  : string * option error * FS :=
  match argv with
  | ["qemu-img"; "create"; _; _; path; size] =>
      if fails argv then ("create: failed", Some "exit status 1", s)
      else ("Formatting", None,
            mkFS (<[path := "qcow2 " +:+ size]> (files s)) (dirs s))
  | ["qemu-img"; "convert"; _; _; _; src; dst] =>
      if fails argv
      then ("convert: failed", Some "exit status 1",
            mkFS (<[dst := "partial"]> (files s)) (dirs s))
      else match files s !! src with
           | Some data =>
               (EmptyString, None,
                mkFS (<[dst := "compressed " +:+ data]> (files s)) (dirs s))
           | None => ("convert: no input", Some "exit status 1", s)
           end
  | prog :: _ =>
      if fails argv then (prog +:+ ": failed", Some "exit status 1", s)
      else (prog +:+ ": ok", None, s)
  | [] => (EmptyString, Some "exec: no command", s)
  end.

Definition env (fails : list string → bool) (sig : option error) : Env :=
  mkEnv (tool fails)
        (λ _ _, None)
        (λ _ s, ("emulator output", None, s))
        sig
        (λ _ _ _, ("/tmp/docker-context42", None))
        (λ _ _, None)
        (λ _ _ _, None).

(** The same, on a file system that refuses every write of the program. *)
Definition read_only : Env :=
  mkEnv (tool (λ _, false))
        (λ _ _, None)
        (λ _ s, ("emulator output", None, s))
        None
        (λ _ _ _, ("/tmp/docker-context42", None))
        (λ _ _, Some "permission denied")
        (λ _ _ _, None).

Definition never (argv : list string) : bool := false.

(** The tool whose second word is [verb] fails. *)
Definition on_verb (verb : string) (argv : list string) : bool :=
  bool_decide (argv !! 1%nat = Some verb).

Definition empty_fs : FS := mkFS ∅ ∅.
Definition start : World := mkWorld empty_fs [] None false.

Definition installer (c : Config) : Installer :=
  mkInstaller c "/tmp/docker-context42" "/tmp/docker-context42/base.qcow2".

(** The world when the installation in the emulator is over. *)
Definition installed : World :=
  mkWorld (mkFS {["/tmp/docker-context42/base.qcow2" := "qcow2 20G"]}
                {["/tmp/docker-context42"]})
          [] None false.

(** The configuration of the example scenarios. *)
Definition scenario : Config :=
  mkConfig "/tmp/os.iso" "20G" "registry.example/base:1" false true.

Definition scenario_args : list FlagArg :=
  [FlagIso "/tmp/os.iso"; FlagSize "20G"; FlagImage "registry.example/base:1";
   FlagCompress true].
End Sim.

(** The second example scenario: every tool works but the build. *)
Module BuildFails.
Definition env : Env := Sim.env (Sim.on_verb "build") None.
Definition i : Installer := Sim.installer Sim.scenario.

(** The world when the build stage is called, and when it has returned. *)
Definition before_build : World :=
  default Sim.start
    (run_stages env i [CreateStage; RunStage; CompressStage]
       (emit (EvLog ("Context dir: " +:+ contextDir i)) Sim.start)).

Definition after_build : World :=
  (exec env (buildImage i)
     (emit (EvLog (announcement BuildStage)) before_build)).1.
End BuildFails.

(** The emulator exits by itself when the guest powers off, and the
    operator presses the key afterwards, during the compression: the
    signal then finds the process gone. *)
Module LateEnter.
Definition env : Env := Sim.env Sim.never (Some "os: process already finished").
Definition sched : list Turn := replicate 16 MainTurn ++ replicate 7 GoTurn.
Definition final : World * Outcome unit :=
  run_pool env sched (main Sim.scenario_args) None Sim.start.
End LateEnter.

(** The signal fails while [cmd.Wait] has not yet returned, and the main
    goroutine assigns the result of [cmd.Wait] to [err] between the
    goroutine's assignment to [err] and its test of [err]. *)
Module Race.
Definition env : Env := Sim.env Sim.never (Some "os: process already finished").
Definition sched : list Turn :=
  replicate 11 MainTurn ++ replicate 4 GoTurn ++ [MainTurn; MainTurn; GoTurn; GoTurn].
Definition final : World * Outcome unit :=
  run_pool env sched (main Sim.scenario_args) None Sim.start.
End Race.


(** ** The values of the flags and the end of [main] *)

(** The value a flag has after the command line was read: the last one
    given for it, or the one it was registered with. *)
Definition given {V} (pick : FlagArg → option V) (registered : V)
  (args : list FlagArg) : V :=
  default registered (last (omap pick args)).

Definition iso_flag (a : FlagArg) : option string :=
  match a with FlagIso v => Some v | _ => None end.
Definition size_flag (a : FlagArg) : option string :=
  match a with FlagSize v => Some v | _ => None end.
Definition image_flag (a : FlagArg) : option string :=
  match a with FlagImage v => Some v | _ => None end.
Definition kvm_flag (a : FlagArg) : option bool :=
  match a with FlagKvm v => Some v | _ => None end.
Definition compress_flag (a : FlagArg) : option bool :=
  match a with FlagCompress v => Some v | _ => None end.

(** What [main] does with the result of [Install]. *)
Definition report (err : option error) : Prog unit :=
  match err with
  | Some e => Fatal e
  | None => Log "Done." (mret tt)
  end.

(** ** What a run did, read off its events *)

(** The external program was run to its end with this command line and
    reported no error. *)
Definition ran (argv : list string) (ev : Event) : bool :=
  match ev with
  | EvRun a _ None => bool_decide (a = argv)
  | _ => false
  end.

(** The process was started with this command line. *)
Definition started (argv : list string) (ev : Event) : bool :=
  match ev with
  | EvStart a None => bool_decide (a = argv)
  | _ => false
  end.

Definition made_dir (name : string) (ev : Event) : bool :=
  match ev with
  | EvTempDir n None => bool_decide (n = name)
  | _ => false
  end.

Definition wrote (path data : string) (perm : Z) (ev : Event) : bool :=
  match ev with
  | EvWriteFile p d m None => bool_decide (p = path ∧ d = data ∧ m = perm)
  | _ => false
  end.

Definition renamed (old new : string) (ev : Event) : bool :=
  match ev with
  | EvRename o n None => bool_decide (o = old ∧ n = new)
  | _ => false
  end.

Definition removed (path : string) (ev : Event) : bool :=
  match ev with
  | EvRemoveAll p => bool_decide (p = path)
  | _ => false
  end.

Definition logged (msg : string) (ev : Event) : bool :=
  match ev with
  | EvLog m => bool_decide (m = msg)
  | _ => false
  end.

Definition is_ReadString (ev : Event) : bool :=
  match ev with EvReadString => true | _ => false end.

Definition exited (code : Z) (ev : Event) : bool :=
  match ev with
  | EvExit c => bool_decide (c = code)
  | _ => false
  end.

(** The events still looked for, in their order, once [ev] was seen. *)
Definition advance (hits : list (Event → bool)) (ev : Event)
  : list (Event → bool) :=
  match hits with
  | h :: rest => if h ev then rest else hits
  | [] => []
  end.

(** Among [evs] there are events that satisfy [hits] one after the other,
    in this order; other events may lie between them. *)
Definition in_order (hits : list (Event → bool)) (evs : list Event) : bool :=
  match foldl advance hits evs with
  | [] => true
  | _ => false
  end.

(** The same, spelled out. *)
Fixpoint InOrder (hits : list (Event → bool)) (evs : list Event) : Prop :=
  match hits with
  | [] => True
  | h :: rest =>
      ∃ pre ev post, evs = pre ++ ev :: post ∧ h ev = true ∧ InOrder rest post
  end.

Definition create_argv (i : Installer) : list string :=
  ["qemu-img"; "create"; "-f"; "qcow2"; imageFilepath i; imageSize (config i)].

Definition push_argv (i : Installer) : list string :=
  ["docker"; "push"; image (config i)].

(** What [Install] has done when it returns [nil]: every stage, each call
    with its command line, then the removal. *)
Definition Install_steps (i : Installer) : list (Event → bool) :=
  [ran (create_argv i); started (runMachine_args i); is_Wait]
    ++ (if compress (config i)
        then [ran (convert_argv i); renamed (tempFilepath i) (imageFilepath i)]
        else [])
    ++ [wrote (dockerFilepath i) (dockerfileContents i) 511;
        ran (build_argv i); ran (push_argv i); removed (contextDir i)].

(** What a stage has done when it returns without an error. *)
Definition steps_of (i : Installer) (s : Stage) : list (Event → bool) :=
  match s with
  | CreateStage => [ran (create_argv i)]
  | RunStage => [started (runMachine_args i); is_Wait]
  | CompressStage =>
      [ran (convert_argv i); renamed (tempFilepath i) (imageFilepath i)]
  | BuildStage =>
      [wrote (dockerFilepath i) (dockerfileContents i) 511; ran (build_argv i)]
  | PushStage => [ran (push_argv i)]
  end.

(** What the stages that come before [s] in the pipeline have done when
    each has returned without an error. *)
Definition done_before (i : Installer) (s : Stage) : list (Event → bool) :=
  let compression :=
    if compress (config i) then steps_of i CompressStage else [] in
  match s with
  | CreateStage => []
  | RunStage => steps_of i CreateStage
  | CompressStage => steps_of i CreateStage ++ steps_of i RunStage
  | BuildStage => steps_of i CreateStage ++ steps_of i RunStage ++ compression
  | PushStage =>
      steps_of i CreateStage ++ steps_of i RunStage ++ compression
        ++ steps_of i BuildStage
  end.

(** The event is a call of stage [s]. *)
Definition call_of (s : Stage) (ev : Event) : bool :=
  bool_decide (stage_of ev = Some s).

(** What the goroutine of [runMachine] has done when it ends the
    process. *)
Definition fatal_steps (i : Installer) : list (Event → bool) :=
  [started (runMachine_args i);
   logged "Press [enter] when installation is complete.";
   is_ReadString; is_Signal; exited 1].

(** What [main] has done when it returns. *)
Definition main_steps (i : Installer) : list (Event → bool) :=
  map (λ name, ran ["which"; name]) processList
    ++ [made_dir (contextDir i)] ++ Install_steps i ++ [logged "Done."].

(** ** More shapes of programs *)

(** A program that does not end in a way the caller singles out (it
    returns a value in [ret], or calls [os.Exit] with a status in [ex])
    before the events [hits] have been seen in their order.  The goroutine
    it starts is held to the same for the exits it makes; what a goroutine
    returns ends nothing. *)
Fixpoint Passes {A} (ret : A → Prop) (ex : Z → Prop) (p : Prog A)
         (hits : list (Event → bool)) {struct p} : Prop :=
  match p with
  | Ret a => ret a → hits = []
  | Exit code => ex code → advance hits (EvExit code) = []
  | Run argv k =>
      ∀ out err, Passes ret ex (k (out, err)) (advance hits (EvRun argv out err))
  | Start argv k => ∀ err, Passes ret ex (k err) (advance hits (EvStart argv err))
  | Wait k => ∀ out err, Passes ret ex (k (out, err)) (advance hits (EvWait out err))
  | Signal k => ∀ err, Passes ret ex (k err) (advance hits (EvSignal err))
  | ReadString k => Passes ret ex k (advance hits EvReadString)
  | Go g k =>
      Passes (λ _, False) ex g (advance hits EvGo)
      ∧ Passes ret ex k (advance hits EvGo)
  | Log msg k => Passes ret ex k (advance hits (EvLog msg))
  | Usage k => Passes ret ex k (advance hits EvUsage)
  | TempDir _ _ k =>
      ∀ name err, Passes ret ex (k (name, err)) (advance hits (EvTempDir name err))
  | WriteFile path data perm k =>
      ∀ err, Passes ret ex (k err) (advance hits (EvWriteFile path data perm err))
  | Rename old new k =>
      ∀ err, Passes ret ex (k err) (advance hits (EvRename old new err))
  | RemoveAll path k => Passes ret ex k (advance hits (EvRemoveAll path))
  | Store _ k => Passes ret ex k hits
  | Load k => ∀ r, Passes ret ex (k r) hits
  end.

(** A program, goroutines included, every call of which is one that [ok]
    allows, whatever the call answers. *)
Fixpoint Only {A : Type} (ok : Event → bool) (p : Prog A) : Prop :=
  match p with
  | Ret _ => True
  | Exit code => ok (EvExit code) = true
  | Run argv k =>
      ∀ out err, ok (EvRun argv out err) = true ∧ Only ok (k (out, err))
  | Start argv k => ∀ err, ok (EvStart argv err) = true ∧ Only ok (k err)
  | Wait k => ∀ out err, ok (EvWait out err) = true ∧ Only ok (k (out, err))
  | Signal k => ∀ err, ok (EvSignal err) = true ∧ Only ok (k err)
  | ReadString k => ok EvReadString = true ∧ Only ok k
  | Go g k => ok EvGo = true ∧ Only ok g ∧ Only ok k
  | Log msg k => ok (EvLog msg) = true ∧ Only ok k
  | Usage k => ok EvUsage = true ∧ Only ok k
  | TempDir _ _ k =>
      ∀ name err, ok (EvTempDir name err) = true ∧ Only ok (k (name, err))
  | WriteFile path data perm k =>
      ∀ err, ok (EvWriteFile path data perm err) = true ∧ Only ok (k err)
  | Rename old new k =>
      ∀ err, ok (EvRename old new err) = true ∧ Only ok (k err)
  | RemoveAll path k => ok (EvRemoveAll path) = true ∧ Only ok k
  | Store _ k => Only ok k
  | Load k => ∀ r, Only ok (k r)
  end.

(** A program, goroutines included, that makes no call in [at_] before
    the events [hits] have been seen in their order. *)
Fixpoint Guarded {A : Type} (at_ : Event → bool) (p : Prog A)
         (hits : list (Event → bool)) {struct p} : Prop :=
  match p with
  | Ret _ => True
  | Exit code => at_ (EvExit code) = true → hits = []
  | Run argv k =>
      ∀ out err, (at_ (EvRun argv out err) = true → hits = [])
                 ∧ Guarded at_ (k (out, err)) (advance hits (EvRun argv out err))
  | Start argv k =>
      ∀ err, (at_ (EvStart argv err) = true → hits = [])
             ∧ Guarded at_ (k err) (advance hits (EvStart argv err))
  | Wait k =>
      ∀ out err, (at_ (EvWait out err) = true → hits = [])
                 ∧ Guarded at_ (k (out, err)) (advance hits (EvWait out err))
  | Signal k =>
      ∀ err, (at_ (EvSignal err) = true → hits = [])
             ∧ Guarded at_ (k err) (advance hits (EvSignal err))
  | ReadString k =>
      (at_ EvReadString = true → hits = [])
      ∧ Guarded at_ k (advance hits EvReadString)
  | Go g k =>
      (at_ EvGo = true → hits = [])
      ∧ Guarded at_ g (advance hits EvGo) ∧ Guarded at_ k (advance hits EvGo)
  | Log msg k =>
      (at_ (EvLog msg) = true → hits = [])
      ∧ Guarded at_ k (advance hits (EvLog msg))
  | Usage k =>
      (at_ EvUsage = true → hits = []) ∧ Guarded at_ k (advance hits EvUsage)
  | TempDir _ _ k =>
      ∀ name err, (at_ (EvTempDir name err) = true → hits = [])
                  ∧ Guarded at_ (k (name, err))
                            (advance hits (EvTempDir name err))
  | WriteFile path data perm k =>
      ∀ err, (at_ (EvWriteFile path data perm err) = true → hits = [])
             ∧ Guarded at_ (k err)
                       (advance hits (EvWriteFile path data perm err))
  | Rename old new k =>
      ∀ err, (at_ (EvRename old new err) = true → hits = [])
             ∧ Guarded at_ (k err) (advance hits (EvRename old new err))
  | RemoveAll path k =>
      (at_ (EvRemoveAll path) = true → hits = [])
      ∧ Guarded at_ k (advance hits (EvRemoveAll path))
  | Store _ k => Guarded at_ k hits
  | Load k => ∀ r, Guarded at_ (k r) hits
  end.

(** The calls of the program that reach outside it: the external programs
    it runs, and the only status it gives [os.Exit]. *)
Definition known_call (ev : Event) : bool :=
  match ev with
  | EvRun (prog :: _) _ _ => bool_decide (prog ∈ ["which"; "qemu-img"; "docker"])
  | EvStart (prog :: _) _ => bool_decide (prog = "qemu-system-x86_64")
  | EvRun [] _ _ | EvStart [] _ => false
  | EvExit code => bool_decide (code = 1)
  | _ => true
  end.

(** What the program does to the files by itself stays at or below
    [dir]; it makes no directory. *)
Definition confined (dir : string) (ev : Event) : bool :=
  match ev with
  | EvWriteFile path _ _ _ => under dir path
  | EvRename old new _ => under dir old && under dir new
  | EvRemoveAll path => bool_decide (path = dir)
  | EvTempDir _ _ => false
  | _ => true
  end.

(** Not a call of the compression stage. *)
Definition no_compression (ev : Event) : bool :=
  match ev with
  | EvRun argv _ _ => bool_decide (argv !! 1%nat ≠ Some "convert")
  | EvRename _ _ _ => false
  | _ => true
  end.

(** A call whose error the pipeline looks at has failed. *)
Definition failed_call (ev : Event) : bool :=
  match ev with
  | EvRun _ _ (Some _) | EvStart _ (Some _) | EvWriteFile _ _ _ (Some _)
  | EvRename _ _ (Some _) => true
  | _ => false
  end.

(** Neither a call of a stage nor a call that has failed. *)
Definition harmless (ev : Event) : bool :=
  bool_decide (stage_of ev = None) && negb (failed_call ev).

(** A program that goes on to another call of a stage only when the call
    before has returned without an error: after a failed call, and in the
    goroutine it starts, everything is harmless. *)
Fixpoint Careful {A : Type} (p : Prog A) : Prop :=
  match p with
  | Ret _ | Exit _ => True
  | Run _ k =>
      ∀ out, (∀ e, Only harmless (k (out, Some e))) ∧ Careful (k (out, None))
  | Start _ k | WriteFile _ _ _ k | Rename _ _ k =>
      (∀ e, Only harmless (k (Some e))) ∧ Careful (k None)
  | Wait k | TempDir _ _ k => ∀ r, Careful (k r)
  | Signal k | Load k => ∀ r, Careful (k r)
  | Go g k => Only harmless g ∧ Careful k
  | ReadString k | Log _ k | Usage k | RemoveAll _ k | Store _ k => Careful k
  end.

(** A goroutine that touches nothing outside the program but the emulator,
    by the signal, and assigns to the shared [err] nothing but the result
    of the signal it has sent; [sent] says whether it has sent it. *)
Fixpoint AssignsSignal {A : Type} (env : Env) (sent : bool) (g : Prog A)
  : Prop :=
  match g with
  | Ret _ | Exit _ => True
  | Signal k => AssignsSignal env true (k (signal_err env))
  | Store e k => sent = true ∧ e = signal_err env ∧ AssignsSignal env sent k
  | Load k => ∀ r, AssignsSignal env sent (k r)
  | ReadString k | Log _ k | Usage k => AssignsSignal env sent k
  | Run _ _ | Start _ _ | Wait _ | Go _ _ | TempDir _ _ _ | WriteFile _ _ _ _
  | Rename _ _ _ | RemoveAll _ _ => False
  end.

(** A program that starts no goroutine. *)
Fixpoint NoGo {A : Type} (p : Prog A) : Prop :=
  match p with
  | Ret _ | Exit _ => True
  | Go _ _ => False
  | Run _ k | Wait k | TempDir _ _ k => ∀ r, NoGo (k r)
  | Start _ k | Signal k | WriteFile _ _ _ k | Rename _ _ k | Load k =>
      ∀ r, NoGo (k r)
  | ReadString k | Log _ k | Usage k | RemoveAll _ k | Store _ k => NoGo k
  end.

(** ** More concrete runs *)

(** The operator is at the keyboard: the key is pressed while the emulator
    runs, and the two goroutines take their steps in turn. *)
Module Attended.
Definition env : Env := Sim.env Sim.never None.
Definition i : Installer := Sim.installer Sim.scenario.
Definition sched : list Turn := concat (replicate 20 [MainTurn; GoTurn]).
Definition final_Install : World * Outcome (option error) :=
  run_pool env sched (Install i) None Sim.start.
Definition final_main : World * Outcome unit :=
  run_pool env sched (main Sim.scenario_args) None Sim.start.
Definition final_runMachine : World * Outcome (string * option error) :=
  run_pool env sched (runMachine i) None Sim.start.
End Attended.

(** The key is pressed while the emulator runs, but the interrupt does not
    reach the emulator, and the goroutine gets to the end of what it does
    before [cmd.Wait] returns. *)
Module Unreached.
Definition env : Env := Sim.env Sim.never (Some "os: process already finished").
Definition sched : list Turn := replicate 7 MainTurn ++ replicate 7 GoTurn.
Definition final_Install : World * Outcome (option error) :=
  run_pool env sched (Install Attended.i) None Sim.start.
End Unreached.

(** A run without the compression flag. *)
Module Plain.
Definition config : Config :=
  mkConfig "/tmp/os.iso" "20G" "registry.example/base:1" false false.
Definition i : Installer := Sim.installer config.
Definition final_Install : World * Outcome (option error) :=
  run_pool Attended.env Attended.sched (Install i) None Sim.start.
End Plain.

(** Environments in which one call of the operating system fails: the
    emulator cannot be started, the file cannot be renamed, the temporary
    directory cannot be made. *)
Module Failing.
Definition no_start : Env :=
  mkEnv (Sim.tool Sim.never)
        (λ _ _, Some "exec: permission denied")
        (λ _ s, ("emulator output", None, s))
        None
        (λ _ _ _, ("/tmp/docker-context42", None))
        (λ _ _, None)
        (λ _ _ _, None).

Definition no_rename : Env :=
  mkEnv (Sim.tool Sim.never)
        (λ _ _, None)
        (λ _ s, ("emulator output", None, s))
        None
        (λ _ _ _, ("/tmp/docker-context42", None))
        (λ _ _, None)
        (λ _ _ _, Some "rename: permission denied").

Definition no_temp_dir : Env :=
  mkEnv (Sim.tool Sim.never)
        (λ _ _, None)
        (λ _ s, ("emulator output", None, s))
        None
        (λ _ _ _, (EmptyString, Some "mkdir: permission denied"))
        (λ _ _, None)
        (λ _ _ _, None).
End Failing.

(** The second example scenario as a run of the whole program: the world
    after the preflight, after the working directory was made, and when
    [Install] has returned. *)
Module BuildFailsMain.
Definition preflight : World :=
  (exec BuildFails.env (check_dependencies processList) Sim.start).1.
Definition with_dir : World :=
  (do_TempDir BuildFails.env EmptyString "docker-context" preflight).2.
Definition after_Install : World :=
  (exec BuildFails.env (Install BuildFails.i) with_dir).1.
(** The pipeline of that scenario with the operator at the keyboard. *)
Definition pool_Install : World * Outcome (option error) :=
  run_pool BuildFails.env Attended.sched (Install BuildFails.i) None Sim.start.
End BuildFailsMain.

(** ** Every command line *)

(** How [flag.Parse] ends.  It sets the flags it finds, one after the
    other, up to the end of the command line or to the first argument that
    is not a flag.  An argument it cannot take (a flag that is not
    registered, a flag with its value missing, a value a switch cannot
    have, a flag badly written) makes it print what is wrong and the usage
    text and call [os.Exit(2)].  [-h] and [-help], which this program does
    not register, make it print the usage text and end the process as
    well: with status 2 in the Go releases before 1.15, with status 0
    since. *)
Inductive ParseEnd :=
| Accepted
| Refused (msg : string)
| HelpAsked (since_go_1_15 : bool).

(** A command line as [flag.Parse] reads it: the flags it sets, in their
    order, and how it ends. *)
Record CommandLine := mkCommandLine {
  cl_flags : list FlagArg;
  cl_end : ParseEnd
}.

(** A command line that [flag.Parse] accepts. *)
Definition accepted (args : list FlagArg) : CommandLine :=
  mkCommandLine args Accepted.

(** [newConfigFromFlags] on any command line.  The line in which
    [flag.Parse] says what is wrong goes to standard error, as the lines
    of the logger do, and is recorded as one of them; [flag.Parse] prints
    the usage text through [flag.Usage], as the check of the two paths
    does. *)
Definition newConfigFromFlags_os (cl : CommandLine) : Prog Config :=
  match cl_end cl with
  | Accepted => newConfigFromFlags (cl_flags cl)
  | Refused msg => Log msg (Usage (Exit 2))
  | HelpAsked since_go_1_15 => Usage (Exit (if since_go_1_15 then 0 else 2))
  end.

(** [main] on any command line. *)
Definition main_os (cl : CommandLine) : Prog unit :=
  check_dependencies processList ;;
  config ← newConfigFromFlags_os cl;
  '(installer, err) ← newInstaller config;
  match err with
  | Some e => Fatal e
  | None =>
      err ← Install installer;
      match err with
      | Some e => Fatal e
      | None => Log "Done." (mret tt)
      end
  end.

(** What configuration loading does when it ends the process, and the
    status it ends it with: its own check of the two paths prints the
    usage text and exits with status 1. *)
Definition rejection_status (cl : CommandLine) : Z :=
  match cl_end cl with
  | Accepted => 1
  | Refused _ => 2
  | HelpAsked since_go_1_15 => if since_go_1_15 then 0 else 2
  end.


(** The statuses a run on this command line can give [os.Exit]: 1 from
    [log.Fatal] and from the check of the two paths, and the one of
    [flag.Parse] when it ends the process. *)
Definition exit_statuses (cl : CommandLine) : list Z :=
  match cl_end cl with
  | Accepted => [1]
  | _ => [1; rejection_status cl]
  end.

(** The calls of the program that reach outside it, with the statuses
    allowed to [os.Exit]. *)
Definition known_call_of (statuses : list Z) (ev : Event) : bool :=
  match ev with
  | EvRun (prog :: _) _ _ => bool_decide (prog ∈ ["which"; "qemu-img"; "docker"])
  | EvStart (prog :: _) _ => bool_decide (prog = "qemu-system-x86_64")
  | EvRun [] _ _ | EvStart [] _ => false
  | EvExit code => bool_decide (code ∈ statuses)
  | _ => true
  end.

(** The build fails after the emulator has exited by itself, and the
    operator presses the key just when the build stage has returned: the
    signal finds the process gone. *)
Module FailedBuild.
Definition env : Env :=
  Sim.env (Sim.on_verb "build") (Some "os: process already finished").
Definition i : Installer := Sim.installer Sim.scenario.
Definition start : World :=
  (do_TempDir env EmptyString "docker-context" Sim.start).2.
Definition sched : list Turn := replicate 16 MainTurn ++ replicate 7 GoTurn.
Definition final : World * Outcome (option error) :=
  run_pool env sched (Install i) None start.
(** The build stage on its own, from the world the stages before it
    leave. *)
Definition before_build : World :=
  default start
    (run_stages env i [CreateStage; RunStage; CompressStage]
       (emit (EvLog ("Context dir: " +:+ contextDir i)) start)).
Definition build : World * Outcome (string * option error) :=
  exec env (buildImage i) (emit (EvLog (announcement BuildStage)) before_build).
End FailedBuild.

(** A command line [flag.Parse] does not take: [-iso /tmp/os.iso -disk
    20G], where [-disk] is no flag of the program. *)
Module Refusal.
Definition cl : CommandLine :=
  mkCommandLine [FlagIso "/tmp/os.iso"]
                (Refused "flag provided but not defined: -disk").
Definition preflight : World :=
  (exec Attended.env (check_dependencies processList) Sim.start).1.
End Refusal.
(** * Properties *)

(** ** Paths *)

Example Clean_examples :
  Clean "/tmp//docker-context42/./base.qcow2" = "/tmp/docker-context42/base.qcow2"
  ∧ Clean "a/../../b/" = "../b" ∧ Clean "/../a/b/../c" = "/a/c"
  ∧ Clean EmptyString = "." ∧ Clean "///" = "/" ∧ Clean "a/.." = ".".
Proof. repeat split; reflexivity. Qed.

Example Join_Base_examples :
  Join ["/tmp/docker-context42"; "base.qcow2"] = "/tmp/docker-context42/base.qcow2"
  ∧ Join [EmptyString; "base.qcow2"] = "base.qcow2"
  ∧ Base "/tmp/docker-context42/base.qcow2" = "base.qcow2"
  ∧ Base "dir/" = "dir" ∧ Base "//" = "/" ∧ Base EmptyString = ".".
Proof. repeat split; reflexivity. Qed.

Lemma split_slash_cons s : ∃ x xs, split_slash s = x :: xs.
Proof.
  destruct s as [|c s]; simpl; [by eexists _, _|].
  destruct (Ascii.eqb c slash); [by eexists _, _|].
  destruct (split_slash s); by eexists _, _.
Qed.

Lemma split_slash_app a b :
  split_slash (a +:+ "/" +:+ b) = split_slash a ++ split_slash b.
Proof.
  induction a as [|c a IH]; [done|]. simpl.
  destruct (Ascii.eqb c slash); [by rewrite IH|].
  rewrite IH. by destruct (split_slash_cons a) as (x & xs & ->).
Qed.

Lemma split_slash_plain name :
  Forall (λ c, Ascii.eqb c slash = false) (String.list_ascii_of_string name) →
  split_slash name = [name].
Proof.
  induction name as [|c name IH]; [done|]. simpl.
  intros [Hc Hname]%Forall_cons. by rewrite Hc, IH.
Qed.

Lemma append_assoc (a b c : string) : (a +:+ b) +:+ c = a +:+ b +:+ c.
Proof.
  induction a as [|ch a IH]; [done|].
  change (String ch ((a +:+ b) +:+ c) = String ch (a +:+ b +:+ c)).
  by rewrite IH.
Qed.

Lemma join_slash_snoc l x :
  join_slash (l ++ [x]) =
  match l with [] => x | _ => join_slash l +:+ "/" +:+ x end.
Proof.
  induction l as [|e l IH]; [done|].
  destruct l as [|e' l]; [done|].
  change (join_slash ((e :: e' :: l) ++ [x]))
    with (e +:+ "/" +:+ join_slash ((e' :: l) ++ [x])).
  rewrite IH.
  change (join_slash (e :: e' :: l)) with (e +:+ "/" +:+ join_slash (e' :: l)).
  by rewrite !append_assoc.
Qed.

Lemma list_ascii_app a b :
  String.list_ascii_of_string (a +:+ b) =
  String.list_ascii_of_string a ++ String.list_ascii_of_string b.
Proof.
  induction a as [|c a IH]; [done|].
  change (c :: String.list_ascii_of_string (a +:+ b)
          = c :: String.list_ascii_of_string a ++ String.list_ascii_of_string b).
  by rewrite IH.
Qed.

Lemma last_elem_plain l acc :
  Forall (λ c, Ascii.eqb c slash = false) l →
  last_elem l acc = reverse l ++ acc
  ∧ ∀ r, last_elem (l ++ slash :: r) acc = reverse l ++ acc.
Proof.
  revert acc. induction l as [|c l IH]; intros acc Hl; simpl.
  - by split.
  - apply Forall_cons in Hl as [Hc Hl]. rewrite Hc.
    destruct (IH (c :: acc) Hl) as [IH1 IH2].
    rewrite reverse_cons, <- (assoc_L (++)). split; [done|]. intros r. apply IH2.
Qed.

(** The base name of [name], and of [name] below any directory. *)
Lemma Base_plain name :
  plain_name name →
  Base name = name ∧ ∀ dir, Base (dir +:+ "/" +:+ name) = name.
Proof.
  intros (Hne & _ & _ & Hplain).
  set (chars := String.list_ascii_of_string name) in *.
  assert (Hrev : Forall (λ c, Ascii.eqb c slash = false) (reverse chars))
    by by apply Forall_reverse.
  assert (Hchars : chars ≠ []).
  { subst chars. by destruct name. }
  assert (Hstrip : ∀ r, strip_slashes (reverse chars ++ r) = reverse chars ++ r).
  { intros r. destruct (reverse chars) as [|c l] eqn:Hl.
    - apply (f_equal reverse) in Hl. by rewrite reverse_involutive in Hl.
    - apply Forall_cons in Hrev as [Hc _]. simpl. by rewrite Hc. }
  destruct (last_elem_plain (reverse chars) [] Hrev) as [Hlast1 Hlast2].
  rewrite reverse_involutive, app_nil_r in Hlast1, Hlast2.
  assert (Hname : String.string_of_list_ascii chars = name)
    by apply String.string_of_list_ascii_of_string.
  split.
  - unfold Base. rewrite decide_False by done. fold chars.
    specialize (Hstrip []). rewrite app_nil_r in Hstrip.
    rewrite Hstrip, Hlast1. by destruct chars.
  - intros dir. unfold Base. rewrite decide_False by by destruct dir.
    rewrite !list_ascii_app. fold chars. simpl.
    change "/"%char with slash.
    rewrite reverse_app, reverse_cons, <- (assoc_L (++)).
    rewrite Hstrip. simpl. rewrite Hlast2. by destruct chars.
Qed.

(** [filepath.Join] of a directory and a plain name ends in that name,
    alone or after a separator. *)
Lemma Join_plain dir name :
  plain_name name →
  Join [dir; name] = name ∨ ∃ pre, Join [dir; name] = pre +:+ "/" +:+ name.
Proof.
  intros Hname. pose proof Hname as (Hne & Hdot & Hdots & Hplain).
  assert (Hstep : ∀ root st, clean_elem root st name = name :: st).
  { intros root st. unfold clean_elem. by rewrite !decide_False. }
  assert (Hclean : ∀ st,
    let body := join_slash (reverse (name :: st)) in
    body ≠ EmptyString
    ∧ (body = name ∨ ∃ pre, body = pre +:+ "/" +:+ name)).
  { intros st body. subst body. rewrite reverse_cons, join_slash_snoc.
    destruct (reverse st) as [|e l].
    - split; [done|by left].
    - split; [|right; by eexists].
      destruct (join_slash (e :: l)); simpl; done. }
  simpl. destruct (decide (dir = EmptyString)) as [->|Hdir].
  - rewrite decide_False by done. unfold Clean. simpl.
    rewrite (split_slash_plain name Hplain). simpl. rewrite Hstep.
    assert (rooted name = false) as ->.
    { destruct name as [|c name]; [done|]. simpl.
      by apply Forall_cons in Hplain as [-> _]. }
    destruct (Hclean []) as [Hb Hbody]. simpl in Hb, Hbody.
    by rewrite decide_False.
  - unfold Clean. rewrite split_slash_app, (split_slash_plain name Hplain).
    rewrite foldl_app. simpl. rewrite Hstep.
    destruct (Hclean (foldl (clean_elem (rooted (dir +:+ "/" +:+ name))) []
                        (split_slash dir))) as [Hb Hbody].
    destruct (rooted (dir +:+ "/" +:+ name)).
    + right. destruct Hbody as [->|[pre ->]]; [by exists EmptyString|].
      by exists ("/" +:+ pre).
    + by rewrite decide_False.
Qed.

Lemma Base_Join dir name : plain_name name → Base (Join [dir; name]) = name.
Proof.
  intros Hname. destruct (Base_plain name Hname) as [H1 H2].
  destruct (Join_plain dir name Hname) as [->|[pre ->]]; [done|apply H2].
Qed.

(** Below a directory whose path is already clean, and is neither the
    root nor [.], [filepath.Join] only appends the separator and the
    name. *)
Lemma Join_clean_dir dir name :
  plain_name name → Clean dir = dir → dir ≠ "/" → dir ≠ "." →
  Join [dir; name] = dir +:+ "/" +:+ name.
Proof.
  intros Hname Hclean Hroot Hdot.
  pose proof Hname as (Hne & Hnd & Hndd & Hplain).
  assert (Hdir : dir ≠ EmptyString) by (intros ->; by vm_compute in Hclean).
  assert (Hrooted : rooted (dir +:+ "/" +:+ name) = rooted dir)
    by by destruct dir.
  assert (Hstep : ∀ root st, clean_elem root st name = name :: st).
  { intros root st. unfold clean_elem. by rewrite !decide_False. }
  simpl. rewrite decide_False by done. unfold Clean.
  rewrite split_slash_app, (split_slash_plain name Hplain), foldl_app, Hrooted.
  simpl. rewrite Hstep, reverse_cons, join_slash_snoc.
  revert Hclean. unfold Clean.
  destruct (reverse (foldl (clean_elem (rooted dir)) [] (split_slash dir)))
    as [|e l].
  - simpl. destruct (rooted dir); intros <-; done.
  - destruct (rooted dir).
    + intros <-. by rewrite append_assoc.
    + destruct (decide (join_slash (e :: l) = EmptyString)) as [Hb|Hb];
        [by intros <-|].
      intros Hd. rewrite decide_False; [by rewrite Hd|].
      by destruct (join_slash (e :: l)).
Qed.

Lemma prefix_append (a b : string) : String.prefix a (a +:+ b) = true.
Proof.
  induction a as [|c a IH]; [by destruct b|].
  simpl. by destruct (ascii_dec c c).
Qed.

Lemma under_Join dir name :
  plain_name name → Clean dir = dir → dir ≠ "/" → dir ≠ "." →
  under dir (Join [dir; name]) = true.
Proof.
  intros Hname Hclean Hroot Hdot.
  rewrite (Join_clean_dir dir name Hname Hclean Hroot Hdot).
  unfold under. rewrite <- append_assoc, prefix_append. apply orb_true_r.
Qed.

Lemma plain_imageFilename : plain_name imageFilename.
Proof. repeat split; try done. by repeat constructor. Qed.

(** X4. For the Installer that [newInstaller] builds, whatever the
    directory [ioutil.TempDir] gave it, the empty one of a failed call
    included, the build descriptor copies [base.qcow2]: the base name of
    the joined path is the name that was joined. *)
Lemma dockerfileContents_newInstaller c dir :
  dockerfileContents (mkInstaller c dir (Join [dir; imageFilename]))
  = "FROM busybox" +:+ nl +:+ "COPY base.qcow2 /base_image/".
Proof.
  unfold dockerfileContents.
  change (imageFilepath (mkInstaller c dir (Join [dir; imageFilename])))
    with (Join [dir; imageFilename]).
  by rewrite (Base_Join dir imageFilename plain_imageFilename).
Qed.

(** ** Running alone *)

Section Exec.
Context (env : Env).

Lemma exec_bind_raw {A B} (p : Prog A) (f : A → Prog B) w :
  exec env (bind p f) w =
  match exec env p w with
  | (w', Returned a) => exec env (f a) w'
  | (w', Exited code) => (w', Exited code)
  end.
Proof.
  revert B f w.
  induction p; intros B f w; simpl; try done;
    match goal with
    | |- context [let '(_, _) := ?d in _] => destruct d
    end; auto.
Qed.

Lemma exec_bind {A B} (p : Prog A) (f : A → Prog B) w :
  exec env (p ≫= f) w =
  match exec env p w with
  | (w', Returned a) => exec env (f a) w'
  | (w', Exited code) => (w', Exited code)
  end.
Proof. apply exec_bind_raw. Qed.

Lemma events_emit ev w : events (emit ev w) = events w ++ [ev].
Proof. done. Qed.

Lemma since_app w w' evs : events w' = events w ++ evs → since w w' = evs.
Proof. unfold since. intros ->. by rewrite drop_app_length. Qed.
End Exec.

(** The events of a world built by the primitives, read off. *)
Ltac since_events :=
  apply since_app;
  unfold do_RemoveAll, do_Store, emit, set_fs; simpl;
  rewrite <- ?(assoc_L (++)); reflexivity.

(** ** The stages one by one *)

Section Stages.
Context (env : Env).

Lemma exec_run_command argv w :
  exec env (run_command argv) w =
  ((do_Run env argv w).2, Returned (do_Run env argv w).1).
Proof. simpl. by destruct (do_Run env argv w). Qed.

Lemma append_ne (s t : string) : t ≠ EmptyString → s +:+ t ≠ s.
Proof.
  intros Ht. induction s as [|c s IH]; simpl; [done|].
  intros [= H]. by apply IH.
Qed.

Lemma tempFilepath_ne i : tempFilepath i ≠ imageFilepath i.
Proof. by apply append_ne. Qed.

Lemma exec_compressImage i w :
  exec env (compressImage i) w =
  let '(out, err, s) := tool env (convert_argv i) (fs w) in
  let w1 := emit (EvRun (convert_argv i) out err) (set_fs s w) in
  match err with
  | Some _ => (w1, Returned (out, err))
  | None =>
      let '(err', w2) := do_Rename env (tempFilepath i) (imageFilepath i) w1 in
      (w2, Returned (out, err'))
  end.
Proof.
  unfold compressImage. rewrite exec_bind, exec_run_command. unfold do_Run.
  destruct (tool env (convert_argv i) (fs w)) as [[out err] s]; simpl.
  by destruct err.
Qed.

Lemma exec_buildImage i w :
  exec env (buildImage i) w =
  let '(werr, w1) :=
    do_WriteFile env (dockerFilepath i) (dockerfileContents i) 511 w in
  match werr with
  | Some _ => (w1, Returned (EmptyString, werr))
  | None => ((do_Run env (build_argv i) w1).2,
             Returned (do_Run env (build_argv i) w1).1)
  end.
Proof.
  unfold buildImage, writeDockerfile. rewrite exec_bind. simpl.
  destruct (do_WriteFile env _ _ _ w) as [[e|] w1]; [done|].
  apply exec_run_command.
Qed.

Lemma exec_runMachine i w :
  exec env (runMachine i) w =
  let err := start_err env (runMachine_args i) (fs w) in
  let w1 := do_Store err (emit (EvStart (runMachine_args i) err) w) in
  match err with
  | Some _ => (w1, Returned (EmptyString, err))
  | None =>
      let '(r, w2) := do_Wait env (emit EvGo w1) in
      (do_Store r.2 w2, Returned (r.1, r.2))
  end.
Proof.
  unfold runMachine. rewrite exec_bind. simpl.
  unfold do_Start.
  destruct (start_err env (runMachine_args i) (fs w)); [done|]. simpl.
  by destruct (do_Wait env _) as [[out err] w2].
Qed.

(** Every call a stage makes is a call of that stage. *)
Lemma stage_events i s w :
  ∃ evs, events (exec env (stage_prog s i) w).1 = events w ++ evs
         ∧ Forall (λ ev, stage_of ev = Some s) evs.
Proof.
  destruct s; cbn [stage_prog].
  - unfold createImage. rewrite exec_run_command. unfold do_Run.
    destruct (tool env _ _) as [[out err] s]. eexists [_]. split; [done|].
    by repeat constructor.
  - rewrite exec_runMachine. simpl.
    destruct (start_err env _ _).
    + eexists [_]. split; [done|]. by repeat constructor.
    + unfold do_Wait. destruct (emulator env _ _) as [[out err] s].
      exists [EvStart (runMachine_args i) None; EvGo; EvWait out err].
      split; [|by repeat constructor].
      unfold do_Store, emit, set_fs; simpl. by rewrite <- !(assoc_L (++)).
  - rewrite exec_compressImage.
    destruct (tool env _ _) as [[out [e|]] s].
    + eexists [_]. split; [done|]. by repeat constructor.
    + unfold do_Rename. simpl. eexists [_; _].
      split; [unfold emit, set_fs; simpl; by rewrite <- !(assoc_L (++))|].
      by repeat constructor.
  - rewrite exec_buildImage. unfold do_WriteFile.
    destruct (write_err env _ _).
    + eexists [_]. split; [done|]. by repeat constructor.
    + unfold do_Run. destruct (tool env _ _) as [[out err] s].
      eexists [_; _].
      split; [unfold emit, set_fs; simpl; by rewrite <- !(assoc_L (++))|].
      by repeat constructor.
  - unfold pushImage. rewrite exec_run_command. unfold do_Run.
    destruct (tool env _ _) as [[out err] s]. eexists [_]. split; [done|].
    by repeat constructor.
Qed.

Lemma run_stages_events i l w w' :
  run_stages env i l w = Some w' →
  ∃ evs, events w' = events w ++ evs
         ∧ Forall (λ ev, ∀ s, stage_of ev = Some s → s ∈ l) evs.
Proof.
  revert w. induction l as [|s l IH]; intros w; simpl.
  - intros [= <-]. exists []. by rewrite app_nil_r.
  - destruct (stage_events i s (emit (EvLog (announcement s)) w))
      as (evs1 & Hev1 & Hst1).
    destruct (exec env (stage_prog s i) _) as [w1 [[out [e|]]|code]];
      [done| |done].
    intros (evs2 & Hev2 & Hst2)%IH.
    exists (EvLog (announcement s) :: evs1 ++ evs2). split.
    + rewrite Hev2. simpl in Hev1. rewrite Hev1.
      by rewrite <- !(assoc_L (++)).
    + constructor; [done|]. apply Forall_app. split.
      * eapply Forall_impl; [exact Hst1|]. intros ev -> s' [= <-]. by left.
      * eapply Forall_impl; [exact Hst2|]. intros ev H s' Hs'. right. by apply H.
Qed.
End Stages.

(** ** The pipeline (C1) *)

Section Pipeline.
Context (env : Env).

Local Opaque createImage runMachine compressImage buildImage pushImage.

Lemma Install_failure i w before s after w1 w2 out e :
  pipeline i = before ++ s :: after →
  run_stages env i before (emit (EvLog ("Context dir: " +:+ contextDir i)) w)
  = Some w1 →
  exec env (stage_prog s i) (emit (EvLog (announcement s)) w1)
  = (w2, Returned (out, Some e)) →
  exec env (Install i) w
  = (do_RemoveAll (contextDir i) (emit (EvLog out) w2), Returned (Some e)).
Proof.
  unfold pipeline. intros Hsplit Hbefore Hfail.
  destruct (compress (config i)) eqn:Hc;
    destruct before as [|b1 [|b2 [|b3 [|b4 [|b5 ?]]]]]; simplify_eq/=.
  all: repeat case_match; simplify_eq.
  all: unfold Install, defer; rewrite ?Hc; unfold mbind, Prog_bind; simpl.
  all: repeat (rewrite ?exec_bind_raw; simpl;
               match goal with
               | H : exec env ?p ?w = _ |- context [exec env ?p ?w] => rewrite H
               end; simpl).
  all: try done.
  by edestruct app_cons_not_nil.
Qed.

(** When every stage returns without an error, [Install] removes the
    working directory and returns [nil]. *)
Lemma Install_success i w w1 :
  run_stages env i (pipeline i)
    (emit (EvLog ("Context dir: " +:+ contextDir i)) w) = Some w1 →
  exec env (Install i) w = (do_RemoveAll (contextDir i) w1, Returned None).
Proof.
  unfold pipeline. intros Hall.
  destruct (compress (config i)) eqn:Hc; simplify_eq/=.
  all: repeat case_match; simplify_eq.
  all: unfold Install, defer; rewrite ?Hc; unfold mbind, Prog_bind; simpl.
  all: repeat (rewrite ?exec_bind_raw; simpl;
               match goal with
               | H : exec env ?p ?w = _ |- context [exec env ?p ?w] => rewrite H
               end; simpl).
  all: done.
Qed.

Local Transparent createImage runMachine compressImage buildImage pushImage.

(** A stage run by its caller always returns. *)
Lemma stage_returns i s w : ∃ r, (exec env (stage_prog s i) w).2 = Returned r.
Proof.
  destruct s; cbn [stage_prog].
  - unfold createImage. rewrite exec_run_command. by eexists.
  - rewrite exec_runMachine. simpl.
    destruct (start_err env _ _); [by eexists|].
    destruct (do_Wait env _). by eexists.
  - rewrite exec_compressImage.
    destruct (tool env _ _) as [[out [e|]] s]; [by eexists|].
    cbv zeta. by case_match; eexists.
  - rewrite exec_buildImage.
    destruct (do_WriteFile env _ _ _ _) as [[e|] w1]; by eexists.
  - unfold pushImage. rewrite exec_run_command. by eexists.
Qed.

(** Either every stage of a list returns without an error or there is a
    first one that returns an error. *)
Lemma run_stages_cases i l w :
  (∃ w1, run_stages env i l w = Some w1)
  ∨ ∃ before s after w1 w2 out e,
      l = before ++ s :: after
      ∧ run_stages env i before w = Some w1
      ∧ exec env (stage_prog s i) (emit (EvLog (announcement s)) w1)
        = (w2, Returned (out, Some e)).
Proof.
  revert w. induction l as [|s l IH]; intros w.
  - left. by eexists.
  - destruct (stage_returns i s (emit (EvLog (announcement s)) w)) as [r Hr].
    destruct (exec env (stage_prog s i) (emit (EvLog (announcement s)) w))
      as [w2 o] eqn:Hexec.
    simpl in Hr. subst o. destruct r as [out [e|]].
    + right. by exists [], s, l, w, w2, out, e.
    + destruct (IH w2)
        as [[w1 Hall]|(before & s' & after & w1 & w3 & out' & e & -> & Hb & Hs)].
      * left. exists w1. simpl. by rewrite Hexec.
      * right. exists (s :: before), s', after, w1, w3, out', e.
        split; [done|]. split; [|done]. simpl. by rewrite Hexec.
Qed.

Lemma pipeline_NoDup i : NoDup (pipeline i).
Proof.
  unfold pipeline. destruct (compress (config i)); compute_done.
Qed.

(** Up to the failure of a stage only that stage and the stages before
    it have made calls. *)
Lemma failure_invoked i w before s w1 w2 out r w' s' :
  run_stages env i before (emit (EvLog ("Context dir: " +:+ contextDir i)) w)
  = Some w1 →
  exec env (stage_prog s i) (emit (EvLog (announcement s)) w1) = (w2, r) →
  since w2 w' = [EvLog out; EvRemoveAll (contextDir i)] →
  events w2 `prefix_of` events w' →
  invoked s' (since w w') → s' ∈ before ++ [s].
Proof.
  intros (evs1 & Hev1 & Hst1)%run_stages_events Hexec Hsince [tl Htl].
  destruct (stage_events env i s (emit (EvLog (announcement s)) w1))
    as (evs2 & Hev2 & Hst2).
  rewrite Hexec in Hev2. simpl in Hev2.
  assert (tl = [EvLog out; EvRemoveAll (contextDir i)]) as ->.
  { rewrite <- Hsince. symmetry. by apply since_app. }
  assert (since w w' = EvLog ("Context dir: " +:+ contextDir i) :: evs1
            ++ EvLog (announcement s) :: evs2
            ++ [EvLog out; EvRemoveAll (contextDir i)]) as ->.
  { apply since_app. rewrite Htl, Hev2, ?events_emit, Hev1, ?events_emit.
    by rewrite <- !(assoc_L (++)). }
  intros (ev & Hin & Hstage).
  rewrite elem_of_cons, elem_of_app, elem_of_cons, elem_of_app in Hin.
  apply elem_of_app.
  destruct Hin as [->|[Hin|[->|[Hin|Hin]]]]; try done.
  - left. rewrite Forall_forall in Hst1. by eapply Hst1.
  - right. rewrite Forall_forall in Hst2. apply Hst2 in Hin.
    rewrite Hin in Hstage. injection Hstage as <-. by left.
  - rewrite !elem_of_cons, elem_of_nil in Hin.
    by destruct Hin as [->|[->|[]]].
Qed.
End Pipeline.

(** X21. Run by the calling goroutine alone, the goroutine of [runMachine]
    taking no step: when a stage of the pipeline returns an error, the
    stages before it having returned none, [Install] logs the output that
    stage captured, removes the working directory and returns that error,
    and these two are all that follows the stage: no stage after it is
    invoked.  When the stage is the creation of the disk image, no other
    stage is invoked. *)
Theorem Install_stops_at_first_failure env i w before s after w1 w2 out e :
  pipeline i = before ++ s :: after →
  run_stages env i before (emit (EvLog ("Context dir: " +:+ contextDir i)) w)
  = Some w1 →
  exec env (stage_prog s i) (emit (EvLog (announcement s)) w1)
  = (w2, Returned (out, Some e)) →
  ∃ w', exec env (Install i) w = (w', Returned (Some e))
        ∧ since w2 w' = [EvLog out; EvRemoveAll (contextDir i)]
        ∧ (∀ s', s' ∈ after → ¬ invoked s' (since w w'))
        ∧ (s = CreateStage →
           ∀ s', s' ≠ CreateStage → ¬ invoked s' (since w w')).
Proof.
  intros Hsplit Hbefore Hfail.
  pose proof (Install_failure env i w before s after w1 w2 out e
                Hsplit Hbefore Hfail) as Hexec.
  set (w' := do_RemoveAll (contextDir i) (emit (EvLog out) w2)) in *.
  assert (Hsince : since w2 w' = [EvLog out; EvRemoveAll (contextDir i)])
    by since_events.
  assert (Hprefix : events w2 `prefix_of` events w').
  { exists [EvLog out; EvRemoveAll (contextDir i)].
    subst w'. unfold do_RemoveAll, emit, set_fs; simpl.
    by rewrite <- !(assoc_L (++)). }
  assert (Hinv : ∀ s', invoked s' (since w w') → s' ∈ before ++ [s]).
  { intros s'. by eapply failure_invoked. }
  exists w'. repeat split; [done..| |].
  - intros s' Hafter Hs'%Hinv.
    pose proof (pipeline_NoDup i) as Hnd.
    rewrite Hsplit in Hnd.
    change (before ++ s :: after) with (before ++ [s] ++ after) in Hnd.
    rewrite (assoc_L (++)) in Hnd.
    apply NoDup_app in Hnd as (_ & Hdisj & _). by eapply Hdisj.
  - intros -> s' Hne Hs'%Hinv.
    assert (before = []) as ->.
    { destruct before as [|b before]; [done|].
      unfold pipeline in Hsplit. injection Hsplit as <- Hrest.
      exfalso. assert (Hin : CreateStage ∈ before ++ CreateStage :: after)
        by (apply elem_of_app; right; by left).
      rewrite <- Hrest in Hin. revert Hin. clear.
      destruct (compress (config i)); simpl;
        rewrite !elem_of_cons, elem_of_nil; intros H; by repeat destruct H as [H|H]. }
    by apply list_elem_of_singleton in Hs'.
Qed.

Lemma Install_stops_at_first_failure_witness :
  pipeline BuildFails.i = [CreateStage; RunStage; CompressStage] ++ BuildStage :: [PushStage]
  ∧ ∃ w', exec BuildFails.env (Install BuildFails.i) Sim.start
          = (w', Returned (Some "exit status 1"))
          ∧ since BuildFails.after_build w'
            = [EvLog "docker: failed"; EvRemoveAll (contextDir BuildFails.i)]
          ∧ (∀ s', s' ∈ [PushStage] → ¬ invoked s' (since Sim.start w'))
          ∧ (BuildStage = CreateStage →
             ∀ s', s' ≠ CreateStage → ¬ invoked s' (since Sim.start w')).
Proof.
  split; [reflexivity|].
  apply (Install_stops_at_first_failure BuildFails.env BuildFails.i Sim.start
           [CreateStage; RunStage; CompressStage] BuildStage [PushStage]
           BuildFails.before_build BuildFails.after_build
           "docker: failed" "exit status 1");
    vm_compute; reflexivity.
Defined.

(** C1 fails on this run.  The emulator has exited by itself and the
    pipeline has gone on; the build stage fails and returns its error and
    the output it captured.  Before [Install] gets to log that output the
    operator presses the key: the signal finds the process gone, the
    goroutine of [runMachine] calls [log.Fatal], and the process ends with
    status 1.  What follows the failed build in the run is only what the
    goroutine does: the output of the build is never logged, the working
    directory is not removed, and [Install] does not return the error of
    the stage, nor anything else. *)
Theorem failed_stage_not_reported :
  FailedBuild.build.2 = Returned ("docker: failed", Some "exit status 1")
  ∧ FailedBuild.final.2 = Exited 1
  ∧ drop 12 (since FailedBuild.start FailedBuild.final.1)
    = [EvRun (build_argv FailedBuild.i) "docker: failed" (Some "exit status 1");
       EvLog "Press [enter] when installation is complete.";
       EvReadString;
       EvSignal (Some "os: process already finished");
       EvLog "os: process already finished";
       EvExit 1]
  ∧ forallb (λ ev, negb (logged "docker: failed" ev))
            (events FailedBuild.final.1) = true
  ∧ forallb (λ ev, negb (is_RemoveAll ev)) (events FailedBuild.final.1) = true
  ∧ "/tmp/docker-context42" ∈ dirs (fs FailedBuild.final.1).
Proof.
  repeat split;
    first [vm_compute; reflexivity
          |apply (bool_decide_unpack _); vm_compute; reflexivity].
Qed.

(** ** Compression (C3, C4) *)

(** C3. When the conversion to the compressed encoding fails, the
    compression stage returns that error without touching a file itself:
    the only call it has made is the conversion, so with a conversion tool
    that writes nothing but its output file the disk image at
    [imageFilepath] has the content it had before.  In a run of [Install]
    with compression configured that has come to this stage, [Install]
    returns the error and neither the build nor the push is invoked. *)
Theorem compressImage_failure_keeps_original env i w out e s :
  writes_only env (convert_argv i) (tempFilepath i) →
  tool env (convert_argv i) (fs w) = (out, Some e, s) →
  (∃ w', exec env (compressImage i) w = (w', Returned (out, Some e))
         ∧ files (fs w') !! imageFilepath i = files (fs w) !! imageFilepath i
         ∧ since w w' = [EvRun (convert_argv i) out (Some e)])
  ∧ ∀ w0 w1,
      compress (config i) = true →
      run_stages env i [CreateStage; RunStage]
        (emit (EvLog ("Context dir: " +:+ contextDir i)) w0) = Some w1 →
      w = emit (EvLog (announcement CompressStage)) w1 →
      ∃ w'', exec env (Install i) w0 = (w'', Returned (Some e))
             ∧ ¬ invoked BuildStage (since w0 w'')
             ∧ ¬ invoked PushStage (since w0 w'').
Proof.
  intros Hframe Htool.
  assert (Hstage : exec env (compressImage i) w
                   = (emit (EvRun (convert_argv i) out (Some e)) (set_fs s w),
                      Returned (out, Some e)))
    by by rewrite exec_compressImage, Htool.
  split.
  - eexists; split; [exact Hstage|]. split; [|by apply since_app].
    simpl. specialize (Hframe (fs w) (imageFilepath i)).
    rewrite Htool in Hframe. apply Hframe.
    intros H. by apply (tempFilepath_ne i).
  - intros w0 w1 Hc Hbefore ->.
    set (w2 := emit (EvRun (convert_argv i) out (Some e))
                 (set_fs s (emit (EvLog (announcement CompressStage)) w1))) in *.
    set (w'' := do_RemoveAll (contextDir i) (emit (EvLog out) w2)).
    assert (Hsplit : pipeline i
                     = [CreateStage; RunStage] ++ CompressStage :: [BuildStage; PushStage])
      by (unfold pipeline; by rewrite Hc).
    exists w''. split; [by eapply Install_failure|].
    assert (Hinv : ∀ s', invoked s' (since w0 w'') →
                         s' ∈ [CreateStage; RunStage] ++ [CompressStage]).
    { intros s'. eapply (failure_invoked env i w0 _ CompressStage w1 w2 out);
        [done|exact Hstage|by since_events|].
      exists [EvLog out; EvRemoveAll (contextDir i)].
      subst w''. unfold do_RemoveAll, emit, set_fs; simpl.
      by rewrite <- !(assoc_L (++)). }
    split; intros Hs'%Hinv; revert Hs'; simpl;
      rewrite !elem_of_cons, elem_of_nil; by intros [|[|[|]]].
Qed.

Lemma Sim_convert_writes_only fails sig i :
  writes_only (Sim.env fails sig) (convert_argv i) (tempFilepath i).
Proof.
  intros s p Hne. unfold convert_argv; simpl.
  destruct (fails _); simpl; [by apply lookup_insert_ne|].
  destruct (files s !! imageFilepath i); simpl; [by apply lookup_insert_ne|done].
Qed.

Lemma compressImage_failure_keeps_original_witness :
  tool (Sim.env (Sim.on_verb "convert") None)
       (convert_argv (Sim.installer Sim.scenario)) (fs Sim.installed)
  = ("convert: failed", Some "exit status 1",
     mkFS (<[tempFilepath (Sim.installer Sim.scenario) := "partial"]>
             (files (fs Sim.installed))) (dirs (fs Sim.installed)))
  ∧ ∃ w', exec (Sim.env (Sim.on_verb "convert") None)
               (compressImage (Sim.installer Sim.scenario)) Sim.installed
          = (w', Returned ("convert: failed", Some "exit status 1"))
          ∧ files (fs w') !! imageFilepath (Sim.installer Sim.scenario)
            = files (fs Sim.installed) !! imageFilepath (Sim.installer Sim.scenario)
          ∧ since Sim.installed w'
            = [EvRun (convert_argv (Sim.installer Sim.scenario))
                     "convert: failed" (Some "exit status 1")].
Proof.
  split; [reflexivity|].
  apply (compressImage_failure_keeps_original
           (Sim.env (Sim.on_verb "convert") None) (Sim.installer Sim.scenario)
           Sim.installed "convert: failed" "exit status 1"
           (mkFS (<[tempFilepath (Sim.installer Sim.scenario) := "partial"]>
                    (files (fs Sim.installed))) (dirs (fs Sim.installed))));
    [apply Sim_convert_writes_only|reflexivity].
Defined.

(** C4. When the compression stage returns without an error, the
    conversion had succeeded, the disk image at [imageFilepath] holds what
    the conversion wrote to the temporary file, and the temporary file is
    gone. *)
Theorem compressImage_success_replaces_original env i w w' out :
  exec env (compressImage i) w = (w', Returned (out, None)) →
  ∃ data s, tool env (convert_argv i) (fs w) = (out, None, s)
            ∧ files s !! tempFilepath i = Some data
            ∧ files (fs w') !! imageFilepath i = Some data
            ∧ files (fs w') !! tempFilepath i = None.
Proof.
  rewrite exec_compressImage.
  destruct (tool env (convert_argv i) (fs w)) as [[out' err] s].
  destruct err as [e|]; [by intros [= _ _ ?]|].
  unfold do_Rename; simpl.
  destruct (rename_err env _ _ s) as [e|]; [by intros [= _ _ ?]|].
  destruct (files s !! tempFilepath i) as [data|] eqn:Hsrc; [|by intros [= _ _ ?]].
  intros [= <- <-]. exists data, s. repeat split; [done| |]; simpl.
  - apply lookup_insert_eq.
  - rewrite lookup_insert_ne by (intros H; by apply (tempFilepath_ne i)).
    apply lookup_delete_eq.
Qed.

Lemma compressImage_success_replaces_original_witness :
  exec (Sim.env Sim.never None) (compressImage (Sim.installer Sim.scenario))
       Sim.installed
  = ((exec (Sim.env Sim.never None) (compressImage (Sim.installer Sim.scenario))
           Sim.installed).1, Returned (EmptyString, None))
  ∧ ∃ data s,
      tool (Sim.env Sim.never None) (convert_argv (Sim.installer Sim.scenario))
           (fs Sim.installed) = (EmptyString, None, s)
      ∧ files s !! tempFilepath (Sim.installer Sim.scenario) = Some data
      ∧ files (fs (exec (Sim.env Sim.never None)
                        (compressImage (Sim.installer Sim.scenario))
                        Sim.installed).1)
          !! imageFilepath (Sim.installer Sim.scenario) = Some data
      ∧ files (fs (exec (Sim.env Sim.never None)
                        (compressImage (Sim.installer Sim.scenario))
                        Sim.installed).1)
          !! tempFilepath (Sim.installer Sim.scenario) = None.
Proof.
  split; [vm_compute; reflexivity|].
  apply (compressImage_success_replaces_original
           (Sim.env Sim.never None) (Sim.installer Sim.scenario) Sim.installed).
  vm_compute; reflexivity.
Defined.

(** ** The build stage (C9, C10) *)

(** C9. The first call of the build stage writes the build descriptor
    [Dockerfile] of the working directory, with the content
    "FROM busybox", a line break, "COPY <base name of the disk image>
    /base_image/"; when the write succeeds the next and last call runs
    [docker build -t <image> <working directory>], which finds the
    descriptor in place, and the stage returns what that run returned. *)
Theorem buildImage_descriptor_then_build env i w :
  let path := Join [contextDir i; "Dockerfile"] in
  let content :=
    "FROM busybox" +:+ nl +:+ "COPY " +:+ Base (imageFilepath i) +:+ " /base_image/" in
  let argv := ["docker"; "build"; "-t"; image (config i); contextDir i] in
  let s1 := mkFS (<[path := content]> (files (fs w))) (dirs (fs w)) in
  let w' := (exec env (buildImage i) w).1 in
  ∃ werr rest,
    since w w' = EvWriteFile path content 511 werr :: rest
    ∧ (werr = None →
       rest = [EvRun argv (tool env argv s1).1.1 (tool env argv s1).1.2]
       ∧ files s1 !! path = Some content
       ∧ (exec env (buildImage i) w).2 =
         Returned ((tool env argv s1).1.1, (tool env argv s1).1.2)).
Proof.
  intros path content argv s1 w'. subst w'. rewrite exec_buildImage.
  unfold do_WriteFile.
  change (dockerFilepath i) with path. change (dockerfileContents i) with content.
  destruct (write_err env path (fs w)) as [e|].
  - exists (Some e), []. simpl. split; [by apply since_app|done].
  - exists None. unfold do_Run, build_argv. fold argv. simpl.
    change (fs (emit _ (set_fs ?s w))) with s.
    fold s1. destruct (tool env argv s1) as [[out err] s2]; simpl.
    exists [EvRun argv out err]. split; [since_events|]. intros _. repeat split.
    apply lookup_insert_eq.
Qed.

(** C10. When writing the build descriptor fails, the build stage returns
    the error of the write with an empty output, and the write is the only
    call it has made: no program was run. *)
Theorem buildImage_write_failure env i w e :
  write_err env (dockerFilepath i) (fs w) = Some e →
  ∃ w', exec env (buildImage i) w = (w', Returned (EmptyString, Some e))
        ∧ since w w' =
          [EvWriteFile (dockerFilepath i) (dockerfileContents i) 511 (Some e)]
        ∧ ∀ argv out err, EvRun argv out err ∉ since w w'.
Proof.
  intros Hw. rewrite exec_buildImage. unfold do_WriteFile. rewrite Hw.
  eexists; split; [done|].
  assert (Hs : since w (emit (EvWriteFile (dockerFilepath i)
                (dockerfileContents i) 511 (Some e)) w) =
               [EvWriteFile (dockerFilepath i) (dockerfileContents i) 511 (Some e)])
    by by apply since_app.
  split; [done|]. intros argv out err. rewrite Hs.
  by intros ?%list_elem_of_singleton.
Qed.

Lemma buildImage_write_failure_witness :
  write_err Sim.read_only (dockerFilepath (Sim.installer Sim.scenario))
            (fs Sim.installed) = Some "permission denied"
  ∧ ∃ w', exec Sim.read_only (buildImage (Sim.installer Sim.scenario)) Sim.installed
          = (w', Returned (EmptyString, Some "permission denied"))
          ∧ since Sim.installed w'
            = [EvWriteFile (dockerFilepath (Sim.installer Sim.scenario))
                 (dockerfileContents (Sim.installer Sim.scenario)) 511
                 (Some "permission denied")]
          ∧ ∀ argv out err, EvRun argv out err ∉ since Sim.installed w'.
Proof.
  split; [reflexivity|].
  apply (buildImage_write_failure Sim.read_only (Sim.installer Sim.scenario)
           Sim.installed "permission denied").
  reflexivity.
Defined.

(** ** The emulator's command line (C8) *)

(** C8. The emulator is started as [qemu-system-x86_64] with the options
    [-m size=1024], [-smp cpus=1], [-cdrom <iso>], [-vnc 0.0.0.0:0] and
    [-drive file=<disk image>], in this order, preceded by [-enable-kvm]
    when acceleration is configured; the option [-enable-kvm] is on the
    command line exactly when acceleration is configured. *)
Theorem runMachine_command_line env i w :
  let opts := emulator_options (drop 1 (runMachine_args i)) in
  runMachine_args i !! 0%nat = Some "qemu-system-x86_64"
  ∧ opts = (if kvm (config i) then [("-enable-kvm", None)] else [])
           ++ [("-m", Some "size=1024"); ("-smp", Some "cpus=1");
               ("-cdrom", Some (isoFilepath (config i)));
               ("-vnc", Some "0.0.0.0:0");
               ("-drive", Some ("file=" +:+ imageFilepath i))]
  ∧ (("-enable-kvm", None) ∈ opts ↔ kvm (config i) = true)
  ∧ ∃ err rest, since w (exec env (runMachine i) w).1 =
                EvStart (runMachine_args i) err :: rest.
Proof.
  intros opts. subst opts. unfold runMachine_args.
  split; [by destruct (kvm (config i))|].
  split; [by destruct (kvm (config i))|]. split.
  - destruct (kvm (config i)); simpl; [set_solver|].
    split; [|done]. rewrite !elem_of_cons, elem_of_nil.
    intros [H|[H|[H|[H|[H|[]]]]]]; discriminate H.
  - fold (runMachine_args i). rewrite exec_runMachine. simpl.
    destruct (start_err env (runMachine_args i) (fs w)) as [e|].
    + exists (Some e), []. by apply since_app.
    + destruct (do_Wait env _) as [[out err] w2] eqn:Hwait.
      exists None, [EvGo; EvWait out err].
      unfold do_Wait in Hwait.
      destruct (emulator env _ _) as [[out' err'] s]. injection Hwait as <- <- <-.
      since_events.
Qed.

(** ** Preflight and configuration (C5, C6) *)

Section Preflight.
Context (env : Env).

Lemma exec_check_dependencies_cons name rest w :
  exec env (check_dependencies (name :: rest)) w =
  let '(out, err, s) := tool env ["which"; name] (fs w) in
  let w1 := emit (EvRun ["which"; name] out err) (set_fs s w) in
  match err with
  | Some _ =>
      (emit (EvExit 1) (emit (EvLog ("Missing dependency: " +:+ name)) w1),
       Exited 1)
  | None => exec env (check_dependencies rest) w1
  end.
Proof.
  cbn [check_dependencies]. unfold getFilepath.
  rewrite exec_bind, exec_run_command. unfold do_Run.
  destruct (tool env _ _) as [[out [e|]] s]; done.
Qed.

Lemma exec_check_dependencies_app l1 l2 w :
  exec env (check_dependencies (l1 ++ l2)) w =
  match exec env (check_dependencies l1) w with
  | (w1, Returned _) => exec env (check_dependencies l2) w1
  | (w1, Exited code) => (w1, Exited code)
  end.
Proof.
  revert w. induction l1 as [|name l1 IH]; intros w; [done|].
  rewrite <- app_comm_cons, !exec_check_dependencies_cons.
  destruct (tool env _ _) as [[out [e|]] s]; [done|]. apply IH.
Qed.

(** A preflight that returns has found every name. *)
Lemma check_dependencies_returns names w w1 u :
  exec env (check_dependencies names) w = (w1, Returned u) →
  ∃ outs, length outs = length names
          ∧ events w1 = events w ++ lookups names outs.
Proof.
  revert w. induction names as [|name names IH]; intros w.
  - intros [= <- _]. exists []. by rewrite app_nil_r.
  - rewrite exec_check_dependencies_cons.
    destruct (tool env _ _) as [[out [e|]] s]; [done|].
    intros (outs & Hlen & Hev)%IH. exists (out :: outs). split.
    + simpl. by rewrite Hlen.
    + rewrite Hev. unfold lookups. simpl. by rewrite <- (assoc_L (++)).
Qed.

(** The preflight either finds every name or there is a first name it
    does not find. *)
Lemma check_dependencies_cases names w :
  (∃ w1, exec env (check_dependencies names) w = (w1, Returned tt))
  ∨ ∃ found p rest w1 out e s,
      names = found ++ p :: rest
      ∧ exec env (check_dependencies found) w = (w1, Returned tt)
      ∧ tool env ["which"; p] (fs w1) = (out, Some e, s).
Proof.
  revert w. induction names as [|name names IH]; intros w.
  - left. by eexists.
  - rewrite exec_check_dependencies_cons.
    destruct (tool env ["which"; name] (fs w)) as [[out [e|]] s] eqn:Htool.
    + right. by exists [], name, names, w, out, e, s.
    + destruct (IH (emit (EvRun ["which"; name] out None) (set_fs s w)))
        as [[w1 Hall]|(found & p & rest & w1 & out' & e & s' & -> & Hfound & Hp)].
      * left. by exists w1.
      * right. exists (name :: found), p, rest, w1, out', e, s'.
        split; [done|]. split; [|done].
        by rewrite exec_check_dependencies_cons, Htool.
Qed.

Lemma lookups_stage names outs ev :
  ev ∈ lookups names outs →
  stage_of ev = None ∧ ∃ name out, name ∈ names ∧ ev = EvRun ["which"; name] out None.
Proof.
  unfold lookups. intros (name & out & -> & Hn & _)%elem_of_zip_with.
  split; [done|]. by exists name, out.
Qed.

Lemma exec_newConfigFromFlags args w :
  exec env (newConfigFromFlags args) w =
  if bool_decide (isoFilepath (flag_Parse args) = EmptyString
                  ∨ image (flag_Parse args) = EmptyString)
  then (emit (EvExit 1) (emit EvUsage w), Exited 1)
  else (w, Returned (flag_Parse args)).
Proof. unfold newConfigFromFlags. by case_bool_decide. Qed.
End Preflight.


(** C6. When one of the required programs is not found, those before it
    in [processList] having been found, the program logs
    "Missing dependency: " followed by that name and exits with status 1.
    All it has done by then is look the names up, up to the missing one:
    no temporary directory was made, so no Installer, and no stage of the
    pipeline was invoked. *)
Theorem main_missing_dependency env args w found p rest w1 out e s :
  processList = found ++ p :: rest →
  exec env (check_dependencies found) w = (w1, Returned tt) →
  tool env ["which"; p] (fs w1) = (out, Some e, s) →
  ∃ w' outs,
    exec env (main args) w = (w', Exited 1)
    ∧ since w w' = lookups found outs
                   ++ [EvRun ["which"; p] out (Some e);
                       EvLog ("Missing dependency: " +:+ p); EvExit 1]
    ∧ (∀ name err, EvTempDir name err ∉ since w w')
    ∧ (∀ st, ¬ invoked st (since w w')).
Proof.
  intros Hlist Hfound Htool.
  destruct (check_dependencies_returns env found w w1 tt Hfound)
    as (outs & Hlen & Hev).
  set (w' := emit (EvExit 1) (emit (EvLog ("Missing dependency: " +:+ p))
               (emit (EvRun ["which"; p] out (Some e)) (set_fs s w1)))).
  assert (Hsince : since w w' = lookups found outs
                   ++ [EvRun ["which"; p] out (Some e);
                       EvLog ("Missing dependency: " +:+ p); EvExit 1]).
  { apply since_app. subst w'. unfold emit, set_fs; simpl.
    rewrite Hev. by rewrite <- !(assoc_L (++)). }
  exists w', outs. split; [|split; [done|]].
  - unfold main. rewrite exec_bind, Hlist, exec_check_dependencies_app, Hfound.
    by rewrite exec_check_dependencies_cons, Htool.
  - rewrite Hsince. split.
    + intros name err [Hin|Hin]%elem_of_app.
      * by apply lookups_stage in Hin as (_ & ? & ? & _ & ?).
      * rewrite !elem_of_cons, elem_of_nil in Hin.
        by destruct Hin as [|[|[|[]]]].
    + intros st (ev & [Hin|Hin]%elem_of_app & Hst).
      * apply lookups_stage in Hin as (Hnone & _). congruence.
      * rewrite !elem_of_cons, elem_of_nil in Hin.
        by destruct Hin as [->|[->|[->|[]]]].
Qed.

Lemma main_missing_dependency_witness :
  processList = ["docker"] ++ "qemu-system-x86_64" :: ["qemu-img"]
  ∧ ∃ w' outs,
      exec (Sim.env (Sim.on_verb "qemu-system-x86_64") None)
           (main Sim.scenario_args) Sim.start = (w', Exited 1)
      ∧ since Sim.start w'
        = lookups ["docker"] outs
          ++ [EvRun ["which"; "qemu-system-x86_64"] "which: failed"
                    (Some "exit status 1");
              EvLog ("Missing dependency: " +:+ "qemu-system-x86_64"); EvExit 1]
      ∧ (∀ name err, EvTempDir name err ∉ since Sim.start w')
      ∧ (∀ st, ¬ invoked st (since Sim.start w')).
Proof.
  split; [reflexivity|].
  apply (main_missing_dependency (Sim.env (Sim.on_verb "qemu-system-x86_64") None)
           Sim.scenario_args Sim.start ["docker"] "qemu-system-x86_64" ["qemu-img"]
           (emit (EvRun ["which"; "docker"] "which: ok" None) Sim.start)
           "which: failed" "exit status 1" Sim.empty_fs);
    vm_compute; reflexivity.
Defined.


(** ** Runs under every schedule *)

Lemma step_Finished env {A} (p : Prog A) w a :
  step env p w = Finished a → p = Ret a.
Proof.
  destruct p; simpl; try done; try (by intros [= ->]);
    by repeat case_match.
Qed.

(** Running alone is stepping until the end. *)
Lemma exec_step env {A} (p : Prog A) w :
  exec env p w =
  match step env p w with
  | Finished a => (w, Returned a)
  | Next p' w' _ => exec env p' w'
  | Stopped code w' => (w', Exited code)
  end.
Proof. destruct p; simpl; try done; by repeat case_match. Qed.

(** [exec] is the run in which the goroutine that was started never gets
    a turn. *)
Lemma run_pool_main_only env {A} n (m : Prog A) g w :
  run_pool env (replicate n MainTurn) m g w = exec env m w.
Proof.
  revert m g w. induction n as [|n IH]; intros m g w; [done|].
  simpl. rewrite (exec_step env m w).
  destruct (step env m w); [done|apply IH|done].
Qed.

Lemma exec_invariant env {A} (m : Prog A) :
  ∀ (Inv : Prog A → option (Prog unit) → World → Prop)
    (Post : World → Outcome A → Prop),
    (∀ a g w, Inv (Ret a) g w → Post w (Returned a)) →
    (∀ m g w m' w' sp,
       Inv m g w → step env m w = Next m' w' sp →
       Inv m' (match sp with Some g' => Some g' | None => g end) w') →
    (∀ m g w code w',
       Inv m g w → step env m w = Stopped code w' → Post w' (Exited code)) →
    ∀ g w, Inv m g w → Post (exec env m w).1 (exec env m w).2.
Proof.
  induction m; intros Inv Post Hret Hnext Hstop g w HI;
    [by eapply Hret|..];
    rewrite exec_step;
    (destruct (step env _ w) as [?|m' w' sp|? w'] eqn:Hstep;
     [by apply step_Finished in Hstep
     |pose proof (Hnext _ _ _ _ _ _ HI Hstep) as HI';
      simpl in Hstep; repeat case_match; simplify_eq;
      match goal with
      | IH : context [exec] |- _ => eapply IH; eassumption
      end
     |eapply Hstop; eassumption]).
Qed.

Section Pool.
Context (env : Env) {A : Type}.
Context (Inv : Prog A → option (Prog unit) → World → Prop).
Context (Post : World → Outcome A → Prop).

Hypothesis at_return : ∀ a g w, Inv (Ret a) g w → Post w (Returned a).
Hypothesis main_next : ∀ m g w m' w' sp,
  Inv m g w → step env m w = Next m' w' sp →
  Inv m' (match sp with Some g' => Some g' | None => g end) w'.
Hypothesis main_stopped : ∀ m g w code w',
  Inv m g w → step env m w = Stopped code w' → Post w' (Exited code).
Hypothesis go_finished : ∀ m g w u,
  Inv m (Some g) w → step env g w = Finished u → Inv m None w.
Hypothesis go_next : ∀ m g w g' w' sp,
  Inv m (Some g) w → step env g w = Next g' w' sp → Inv m (Some g') w'.
Hypothesis go_stopped : ∀ m g w code w',
  Inv m (Some g) w → step env g w = Stopped code w' → Post w' (Exited code).

(** An invariant of the steps of both goroutines holds of the end of the
    run, whatever the schedule. *)
Lemma run_pool_invariant sched m g w :
  Inv m g w →
  Post (run_pool env sched m g w).1 (run_pool env sched m g w).2.
Proof.
  revert m g w. induction sched as [|[|] sched IH]; intros m g w HI.
  - simpl. by eapply (exec_invariant env m Inv Post at_return main_next
                        main_stopped).
  - simpl. destruct (step env m w) as [a|m' w' sp|code w'] eqn:Hstep.
    + apply step_Finished in Hstep as ->. by eapply at_return.
    + apply IH. by eapply main_next.
    + by eapply main_stopped.
  - simpl. destruct g as [g|]; [|by apply IH].
    destruct (step env g w) as [u|g' w' sp|code w'] eqn:Hstep.
    + apply IH. by eapply go_finished.
    + apply IH. by eapply go_next.
    + by eapply go_stopped.
Qed.
End Pool.

Section Steps.
Context (env : Env).

Lemma step_bind {A B} (p : Prog A) (f : A → Prog B) w :
  step env (bind p f) w =
  match step env p w with
  | Finished a => step env (f a) w
  | Next p' w' sp => Next (bind p' f) w' sp
  | Stopped code w' => Stopped code w'
  end.
Proof.
  destruct p; simpl; try done;
    match goal with
    | |- context [let '(_, _) := ?d in _] => by destruct d
    end.
Qed.

(** A step of a quiet goroutine leaves the files as they are. *)
Lemma Quiet_step {A} (g : Prog A) w g' w' sp :
  Quiet g → step env g w = Next g' w' sp →
  Quiet g' ∧ fs w' = fs w ∧ sp = None.
Proof.
  intros HQ Hstep. destruct g; simpl in *; try done;
    unfold do_Signal in *; by simplify_eq.
Qed.

Lemma GoQuiet_step {A} (m : Prog A) w m' w' sp :
  GoQuiet m → step env m w = Next m' w' sp →
  GoQuiet m' ∧ ∀ g, sp = Some g → Quiet g.
Proof.
  intros HQ Hstep. destruct m; simpl in *; try done;
    unfold do_Run, do_Start, do_Wait, do_Signal, do_TempDir, do_WriteFile,
      do_Rename in *;
    repeat case_match; simplify_eq; try (split; [done|]; by intros ?).
  destruct HQ as [Hg Hk]. split; [done|]. by intros ? [= <-].
Qed.

Lemma GoQuiet_bind {A B} (p : Prog A) (f : A → Prog B) :
  GoQuiet p → (∀ a, GoQuiet (f a)) → GoQuiet (bind p f).
Proof.
  revert B f. induction p; intros B f HQ Hf; simpl in *; try done; auto.
  destruct HQ as [Hg Hk]. auto.
Qed.
End Steps.

Section Events.
Context (env : Env).

(** A step adds at most one event, and a signal or a read only when the
    step is that call. *)
Lemma step_events {A} (p : Prog A) w p' w' sp :
  step env p w = Next p' w' sp →
  ∃ evs, events w' = events w ++ evs
         ∧ (existsb is_Signal evs = true → ∃ k, p = Signal k)
         ∧ (EvReadString ∈ evs → ∃ k, p = ReadString k).
Proof.
  destruct p; simpl; try done;
    unfold do_Run, do_Start, do_Wait, do_Signal, do_TempDir, do_WriteFile,
      do_Rename;
    repeat case_match; intros [= <- <- <-]; simplify_eq;
    first [eexists [_]; split; [done|]; split;
           [first [done|by eexists]
           |first [by intros ?%list_elem_of_singleton|by eexists]]
          |exists []; split; [by rewrite app_nil_r|]; split;
           [done|by intros ?%elem_of_nil]].
Qed.

Lemma step_Stopped {A} (p : Prog A) w code w' :
  step env p w = Stopped code w' → w' = emit (EvExit code) w.
Proof.
  destruct p; simpl; try done; try (by intros [= <- <-]);
    by repeat case_match.
Qed.

End Events.

(** ** The working directory (C2) *)

Lemma remove_all_absent dir s :
  dir ≠ EmptyString → absent dir (remove_all dir s).
Proof.
  intros Hne p Hp. unfold remove_all. rewrite decide_False by done. simpl.
  split.
  - apply map_lookup_filter_None. right. intros data _. simpl. by rewrite Hp.
  - rewrite elem_of_filter. intros [H _]. by rewrite Hp in H.
Qed.

(** The shape of a program of the source, by unfolding it. *)
Ltac shape :=
  unfold main, check_dependencies, getFilepath, newConfigFromFlags, newInstaller,
    Install, defer, createImage, runMachine, compressImage, buildImage,
    pushImage, writeDockerfile, run_command, await_operator, Fatal,
    mbind, Prog_bind, mret, Prog_ret;
  repeat (simpl; first [done|intros [? [?|]]|intros [?|]|intro|split|case_match]).

Lemma Quiet_await_operator : Quiet await_operator.
Proof. shape. Qed.

Lemma GoQuiet_stage s i : GoQuiet (stage_prog s i).
Proof. destruct s; shape. Qed.

(** The body of [Install], before the deferred removal. *)
Lemma Install_shape i :
  ∃ body, GoQuiet body
          ∧ Install i = bind body (λ r, RemoveAll (contextDir i) (Ret r)).
Proof.
  eexists (Log _ (Log _ (bind (createImage i) _))). split; [|reflexivity].
  shape.
Qed.

(** X1. Whatever the schedule, when [Install] returns, with [nil] or with
    the error of a stage, the working directory and everything below it
    are gone: the deferred removal has run and the goroutine of
    [runMachine], which may still be there, touches no file. *)
Lemma Install_returns_removed env sched i w w' r :
  contextDir i ≠ EmptyString →
  run_pool env sched (Install i) None w = (w', Returned r) →
  absent (contextDir i) (fs w').
Proof.
  intros Hne Hrun.
  set (cleanup := λ r : option error, RemoveAll (contextDir i) (Ret r)).
  set (Inv := λ (m : Prog (option error)) (g : option (Prog unit)) (w : World),
         match g with Some g' => Quiet g' | None => True end
         ∧ ((∃ body, GoQuiet body ∧ m = bind body cleanup)
            ∨ (∃ r, m = Ret r ∧ absent (contextDir i) (fs w)))).
  set (Post := λ (w : World) (o : Outcome (option error)),
         ∀ r, o = Returned r → absent (contextDir i) (fs w)).
  assert (H : Post (run_pool env sched (Install i) None w).1
                   (run_pool env sched (Install i) None w).2).
  { apply (run_pool_invariant env Inv Post); subst Inv Post; simpl.
    - intros a g w0 [_ [(body & HQ & Hbody)|(r0 & [= <-] & Habs)]] r0' _; [|done].
      by destruct body.
    - intros m g w0 m' w1 sp [Hg [(body & HQ & ->)|(r0 & -> & Habs)]]; [|done].
      rewrite step_bind.
      destruct (step env body w0) as [a|body' w2 sp'|code w2] eqn:Hstep.
      + simpl. intros [= <- <- <-]. split; [done|]. right.
        eexists; split; [done|]. by apply remove_all_absent.
      + intros [= <- <- <-].
        destruct (GoQuiet_step env body w0 body' w2 sp' HQ Hstep) as [HQ' Hsp].
        split; [destruct sp'; [by apply Hsp|done]|]. left. by exists body'.
      + done.
    - done.
    - intros m g w0 u [_ Hm] _. done.
    - intros m g w0 g' w1 sp [Hg Hm] Hstep.
      destruct (Quiet_step env g w0 g' w1 sp Hg Hstep) as (Hg' & Hfs & _).
      split; [done|]. destruct Hm as [Hm|(r0 & -> & Habs)]; [by left|right].
      exists r0. by rewrite Hfs.
    - done.
    - split; [done|]. left. destruct (Install_shape i) as (body & HQ & ->).
      by exists body. }
  rewrite Hrun in H. by apply (H r).
Qed.

Lemma Install_returns_removed_witness :
  contextDir Attended.i ≠ EmptyString
  ∧ Attended.final_Install = (Attended.final_Install.1, Returned None)
  ∧ absent (contextDir Attended.i) (fs Attended.final_Install.1).
Proof.
  split; [discriminate|]. split; [vm_compute; reflexivity|].
  apply (Install_returns_removed Attended.env Attended.sched Attended.i
           Sim.start Attended.final_Install.1 None);
    [discriminate|vm_compute; reflexivity].
Defined.

(** C2 fails on this run.  The emulator has exited by itself, the pipeline
    is compressing the image, the operator presses the key: the signal
    fails, the goroutine calls [log.Fatal], and the process exits with
    status 1 without the deferred [os.RemoveAll] having run.  The working
    directory is still there, with the disk image and the temporary file
    of the compression in it. *)
Theorem fatal_signal_leaves_working_directory :
  LateEnter.final.2 = Exited 1
  ∧ EvSignal (Some "os: process already finished") ∈ events LateEnter.final.1
  ∧ forallb (λ ev, negb (is_RemoveAll ev)) (events LateEnter.final.1) = true
  ∧ "/tmp/docker-context42" ∈ dirs (fs LateEnter.final.1)
  ∧ files (fs LateEnter.final.1) !! "/tmp/docker-context42/base.qcow2"
    = Some "qcow2 20G"
  ∧ files (fs LateEnter.final.1) !! "/tmp/docker-context42/base.qcow2.temp"
    = Some "compressed qcow2 20G".
Proof.
  repeat split;
    first [vm_compute; reflexivity
          |apply (bool_decide_unpack _); vm_compute; reflexivity].
Qed.

(** ** Waiting for the emulator under every schedule *)

Lemma waited_app evs evs' : waited evs ∨ waited evs' → waited (evs ++ evs').
Proof.
  unfold waited. rewrite !existsb_app, !orb_true_iff. tauto.
Qed.

Lemma Awaits_step env {A} (m : Prog A) w m' w' sp :
  Awaits m → step env m w = Next m' w' sp →
  Awaits m' ∨ ∃ ev, events w' = events w ++ [ev] ∧ waited [ev].
Proof.
  destruct m; simpl; try done; intros HA;
    unfold do_Run, do_Start, do_Wait, do_Signal, do_TempDir, do_WriteFile,
      do_Rename;
    repeat case_match; intros [= <- <- <-]; simplify_eq; auto.
  - destruct (start_err env argv (fs w)) as [e|]; [|by left].
    right. eexists. split; [done|]. by right.
  - right. eexists. split; [done|]. by left.
Qed.

(** Whatever the schedule, a program that awaits does not return before
    the emulator's exit was waited for, unless the emulator did not
    start. *)
Lemma returns_after_wait env sched {A} (m : Prog A) w w' a :
  Awaits m →
  run_pool env sched m None w = (w', Returned a) →
  waited (since w w').
Proof.
  intros HA Hrun.
  set (Inv := λ (m : Prog A) (g : option (Prog unit)) (w1 : World),
         ∃ evs, events w1 = events w ++ evs ∧ (Awaits m ∨ waited evs)).
  set (Post := λ (w1 : World) (o : Outcome A),
         ∀ a, o = Returned a → ∃ evs, events w1 = events w ++ evs ∧ waited evs).
  assert (H : Post (run_pool env sched m None w).1 (run_pool env sched m None w).2).
  { apply (run_pool_invariant env Inv Post); subst Inv Post; simpl.
    - intros a0 g w1 (evs & Hev & [[]|Hw]) _ _. by exists evs.
    - intros m1 g w1 m2 w2 sp (evs & Hev & Hm) Hstep.
      destruct (step_events env m1 w1 m2 w2 sp Hstep) as (evs' & Hev' & _).
      exists (evs ++ evs'). split; [by rewrite Hev', Hev, (assoc_L (++))|].
      destruct Hm as [Hm|Hw]; [|right; apply waited_app; by left].
      destruct (Awaits_step env m1 w1 m2 w2 sp Hm Hstep)
        as [?|(ev & Hev'' & Hw)]; [by left|right].
      rewrite Hev'' in Hev'. apply app_inv_head in Hev' as <-.
      apply waited_app. by right.
    - done.
    - intros m1 g w1 u HI _. done.
    - intros m1 g w1 g' w2 sp (evs & Hev & Hm) Hstep.
      destruct (step_events env g w1 g' w2 sp Hstep) as (evs' & Hev' & _).
      exists (evs ++ evs'). split; [by rewrite Hev', Hev, (assoc_L (++))|].
      destruct Hm as [Hm|Hw]; [by left|right; apply waited_app; by left].
    - done.
    - exists []. split; [by rewrite app_nil_r|by left]. }
  rewrite Hrun in H. destruct (H a eq_refl) as (evs & Hev & Hw).
  by rewrite (since_app w w' evs Hev).
Qed.

(** X2. Whether the operator's line or the emulator's exit comes first,
    the run-machine stage returns only after it has waited for the
    emulator to exit, or at once when the emulator did not start. *)
Lemma runMachine_returns_after_wait env sched i w w' r :
  run_pool env sched (runMachine i) None w = (w', Returned r) →
  waited (since w w').
Proof. by apply returns_after_wait. Qed.

Lemma runMachine_returns_after_wait_witness :
  Attended.final_runMachine
  = (Attended.final_runMachine.1, Returned ("emulator output", None))
  ∧ waited (since Sim.start Attended.final_runMachine.1).
Proof.
  split; [vm_compute; reflexivity|].
  apply (runMachine_returns_after_wait Attended.env Attended.sched Attended.i
           Sim.start Attended.final_runMachine.1 ("emulator output", None)).
  vm_compute; reflexivity.
Defined.

(** ** The interrupt under every schedule *)

Section Signals.
Context (env : Env).

Lemma no_signal_filter evs :
  existsb is_Signal evs = false → filter is_Signal evs = [].
Proof.
  induction evs as [|ev evs IH]; [done|]. simpl.
  intros [Hev Hevs]%orb_false_iff. rewrite filter_cons, Hev. simpl. by apply IH.
Qed.

Lemma no_signal_elem evs err :
  existsb is_Signal evs = false → EvSignal err ∉ evs.
Proof.
  intros Hno Hin. apply list_elem_of_In in Hin.
  assert (existsb is_Signal evs = true) by (apply existsb_exists; by eexists).
  congruence.
Qed.

Lemma once_app evs evs' :
  signal_once_after_line evs → existsb is_Signal evs' = false →
  signal_once_after_line (evs ++ evs').
Proof.
  intros [Hlen Hord] Hno. split.
  - by rewrite filter_app, (no_signal_filter evs' Hno), app_nil_r.
  - intros pre err post [(k & -> & Hk)|(k & -> & Hk)]%app_eq_inv.
    + destruct k as [|ev k]; simpl in Hk.
      * destruct (no_signal_elem evs' err Hno). rewrite <- Hk. by left.
      * injection Hk as <- _. by eapply Hord.
    + destruct (no_signal_elem evs' err Hno). rewrite Hk.
      apply elem_of_app. right. by left.
Qed.

Lemma once_signal evs err :
  existsb is_Signal evs = false → EvReadString ∈ evs →
  signal_once_after_line (evs ++ [EvSignal err]).
Proof.
  intros Hno Hline. split.
  - by rewrite filter_app, (no_signal_filter evs Hno).
  - intros pre err' post [(k & -> & Hk)|(k & -> & Hk)]%app_eq_inv.
    + destruct k as [|ev k]; simpl in Hk.
      * by rewrite app_nil_r in Hline.
      * injection Hk as <- _. destruct (no_signal_elem _ err' Hno).
        apply elem_of_app. right. by left.
    + apply elem_of_app. by left.
Qed.

Lemma once_no_signal evs :
  existsb is_Signal evs = false → signal_once_after_line evs.
Proof.
  intros Hno. split.
  - rewrite (no_signal_filter evs Hno). simpl. lia.
  - intros pre err post ->. destruct (no_signal_elem _ err Hno).
    apply elem_of_app. right. by left.
Qed.

(** What one step adds, for a program that is not at a signal. *)
Lemma step_no_signal {A} (p : Prog A) w p' w' sp :
  (∀ k, p ≠ Signal k) → step env p w = Next p' w' sp →
  ∃ evs, events w' = events w ++ evs ∧ existsb is_Signal evs = false
         ∧ (EvReadString ∈ evs → ∃ k, p = ReadString k).
Proof.
  intros Hp Hstep.
  destruct (step_events env p w p' w' sp Hstep) as (evs & Hev & Hsig & Hline).
  exists evs. repeat split; [done| |done].
  destruct (existsb is_Signal evs); [|done].
  destruct Hsig as [k ->]; [done|]. by destruct (Hp k).
Qed.

Lemma Silent_step {A} (m : Prog A) w m' w' sp :
  Silent m → step env m w = Next m' w' sp →
  Silent m' ∧ sp = None
  ∧ ∃ evs, events w' = events w ++ evs ∧ existsb is_Signal evs = false
           ∧ EvReadString ∉ evs.
Proof.
  intros HS Hstep.
  destruct (step_no_signal m w m' w' sp) as (evs & Hev & Hno & Hline);
    [by intros k ->|done|].
  assert (Silent m' ∧ sp = None) as [? ?].
  { destruct m; simpl in *; try done;
      unfold do_Run, do_Start, do_Wait, do_TempDir, do_WriteFile, do_Rename in *;
      repeat case_match; by simplify_eq. }
  repeat split; [done..|]. exists evs. repeat split; [done..|].
  intros [k ->]%Hline. done.
Qed.

Lemma SpawnsWaiter_step {A} (m : Prog A) w m' w' sp :
  SpawnsWaiter m → step env m w = Next m' w' sp →
  (∃ evs, events w' = events w ++ evs ∧ existsb is_Signal evs = false)
  ∧ match sp with
    | None => SpawnsWaiter m'
    | Some g => SignalAfterLine g ∧ Silent m'
    end.
Proof.
  intros HS Hstep.
  destruct (step_no_signal m w m' w' sp) as (evs & Hev & Hno & Hline);
    [by intros k ->|done|].
  split; [by exists evs|].
  destruct m; simpl in *; try done;
    unfold do_Run, do_Start, do_Wait, do_TempDir, do_WriteFile, do_Rename in *;
    repeat case_match; by simplify_eq.
Qed.

Lemma NoSignal_step {A} (g : Prog A) w g' w' sp :
  NoSignal g → step env g w = Next g' w' sp →
  NoSignal g'
  ∧ ∃ evs, events w' = events w ++ evs ∧ existsb is_Signal evs = false.
Proof.
  intros HS Hstep.
  destruct (step_no_signal g w g' w' sp) as (evs & Hev & Hno & Hline);
    [by intros k ->|done|].
  split; [|by exists evs].
  destruct g; simpl in *; try done;
    unfold do_Run, do_Start, do_Wait, do_TempDir, do_WriteFile, do_Rename in *;
    repeat case_match; by simplify_eq.
Qed.

Lemma Signal_or_not {A} (g : Prog A) :
  (∃ k, g = Signal k) ∨ (∀ k, g ≠ Signal k).
Proof. destruct g; first [by right|left; by eexists]. Qed.

Lemma OneSignal_step {A} (g : Prog A) w g' w' sp :
  OneSignal g → step env g w = Next g' w' sp →
  (OneSignal g'
   ∧ ∃ evs, events w' = events w ++ evs ∧ existsb is_Signal evs = false)
  ∨ (NoSignal g' ∧ ∃ err, events w' = events w ++ [EvSignal err]).
Proof.
  intros HS Hstep.
  destruct (Signal_or_not g) as [[k ->]|Hk].
  - right. simpl in *. unfold do_Signal in Hstep. simplify_eq.
    split; [done|]. by eexists.
  - left.
    destruct (step_no_signal g w g' w' sp) as (evs & Hev & Hno & Hline);
      [done..|].
    split; [|by exists evs].
    destruct g; simpl in *; try done;
      unfold do_Run, do_Start, do_Wait, do_TempDir, do_WriteFile, do_Rename in *;
      repeat case_match; simplify_eq; try done.
    by destruct (Hk k).
Qed.

Lemma SignalAfterLine_step {A} (g : Prog A) w g' w' sp :
  SignalAfterLine g → step env g w = Next g' w' sp →
  ∃ evs, events w' = events w ++ evs ∧ existsb is_Signal evs = false
         ∧ (SignalAfterLine g' ∨ (EvReadString ∈ evs ∧ OneSignal g')).
Proof.
  intros HS Hstep.
  destruct (step_no_signal g w g' w' sp) as (evs & Hev & Hno & Hline);
    [by intros k ->|done|].
  exists evs. repeat split; [done..|].
  destruct g; simpl in *; try done;
    unfold do_Run, do_Start, do_Wait, do_TempDir, do_WriteFile, do_Rename in *;
    repeat case_match; simplify_eq; auto.
  right. split; [|done]. unfold emit in Hev; simpl in Hev.
  apply app_inv_head in Hev as <-. by left.
Qed.
End Signals.

(** Whatever the schedule, a main goroutine that starts one goroutine
    signalling after the operator's line lets at most one signal happen
    in the whole run, and only after a line was read. *)
Lemma signal_once_under_every_schedule env sched {A} (m : Prog A) w w' o :
  SpawnsWaiter m →
  run_pool env sched m None w = (w', o) →
  signal_once_after_line (since w w').
Proof.
  intros Hm Hrun.
  set (Inv := λ (m : Prog A) (g : option (Prog unit)) (w1 : World),
         ∃ evs, events w1 = events w ++ evs ∧ signal_once_after_line evs
                ∧ match g with
                  | None =>
                      (existsb is_Signal evs = false ∧ SpawnsWaiter m) ∨ Silent m
                  | Some g' =>
                      Silent m
                      ∧ ((existsb is_Signal evs = false ∧ SignalAfterLine g')
                         ∨ (existsb is_Signal evs = false ∧ EvReadString ∈ evs
                            ∧ OneSignal g')
                         ∨ NoSignal g')
                  end).
  set (Post := λ (w1 : World) (o : Outcome A),
         ∃ evs, events w1 = events w ++ evs ∧ signal_once_after_line evs).
  assert (H : Post (run_pool env sched m None w).1 (run_pool env sched m None w).2).
  { apply (run_pool_invariant env Inv Post); subst Inv Post; simpl.
    - intros a g w1 (evs & Hev & Hgood & _). by exists evs.
    - intros m1 g w1 m2 w2 sp (evs & Hev & Hgood & Hg) Hstep.
      destruct g as [g|].
      + destruct Hg as [Hs Hg].
        destruct (Silent_step env m1 w1 m2 w2 sp Hs Hstep)
          as (Hs' & -> & evs' & Hev' & Hno & Hline).
        exists (evs ++ evs'). split; [by rewrite Hev', Hev, (assoc_L (++))|].
        split; [by apply once_app|]. split; [done|].
        destruct Hg as [[Hno' Hg]|[(Hno' & Hin & Hg)|Hg]].
        * left. split; [|done]. by rewrite existsb_app, Hno', Hno.
        * right; left. split; [by rewrite existsb_app, Hno', Hno|].
          split; [|done]. apply elem_of_app. by left.
        * by right; right.
      + destruct Hg as [[Hno Hs]|Hs].
        * destruct (SpawnsWaiter_step env m1 w1 m2 w2 sp Hs Hstep)
            as [(evs' & Hev' & Hno') Hsp].
          exists (evs ++ evs'). split; [by rewrite Hev', Hev, (assoc_L (++))|].
          split; [by apply once_app|].
          assert (existsb is_Signal (evs ++ evs') = false)
            by by rewrite existsb_app, Hno, Hno'.
          destruct sp as [g|]; [|by left].
          destruct Hsp as [Hg Hs']. split; [done|]. by left.
        * destruct (Silent_step env m1 w1 m2 w2 sp Hs Hstep)
            as (Hs' & -> & evs' & Hev' & Hno & Hline).
          exists (evs ++ evs'). split; [by rewrite Hev', Hev, (assoc_L (++))|].
          split; [by apply once_app|]. by right.
    - intros m1 g w1 code w2 (evs & Hev & Hgood & _) ->%step_Stopped.
      exists (evs ++ [EvExit code]).
      split; [by rewrite events_emit, Hev, (assoc_L (++))|]. by apply once_app.
    - intros m1 g w1 u (evs & Hev & Hgood & Hs & _) _.
      exists evs. split; [done|]. split; [done|]. by right.
    - intros m1 g w1 g' w2 sp (evs & Hev & Hgood & Hs & Hg) Hstep.
      destruct Hg as [[Hno Hg]|[(Hno & Hin & Hg)|Hg]].
      + destruct (SignalAfterLine_step env g w1 g' w2 sp Hg Hstep)
          as (evs' & Hev' & Hno' & Hg').
        exists (evs ++ evs'). split; [by rewrite Hev', Hev, (assoc_L (++))|].
        split; [by apply once_app|]. split; [done|].
        assert (existsb is_Signal (evs ++ evs') = false)
          by by rewrite existsb_app, Hno, Hno'.
        destruct Hg' as [Hg'|[Hin Hg']]; [by left|right; left].
        repeat split; [done| |done]. apply elem_of_app. by right.
      + destruct (OneSignal_step env g w1 g' w2 sp Hg Hstep)
          as [(Hg' & evs' & Hev' & Hno')|(Hg' & err & Hev')].
        * exists (evs ++ evs'). split; [by rewrite Hev', Hev, (assoc_L (++))|].
          split; [by apply once_app|]. split; [done|]. right; left.
          split; [by rewrite existsb_app, Hno, Hno'|].
          split; [|done]. apply elem_of_app. by left.
        * exists (evs ++ [EvSignal err]).
          split; [by rewrite Hev', Hev, (assoc_L (++))|].
          split; [by apply once_signal|]. split; [done|]. by right; right.
      + destruct (NoSignal_step env g w1 g' w2 sp Hg Hstep)
          as (Hg' & evs' & Hev' & Hno').
        exists (evs ++ evs'). split; [by rewrite Hev', Hev, (assoc_L (++))|].
        split; [by apply once_app|]. split; [done|]. by right; right.
    - intros m1 g w1 code w2 (evs & Hev & Hgood & _) ->%step_Stopped.
      exists (evs ++ [EvExit code]).
      split; [by rewrite events_emit, Hev, (assoc_L (++))|]. by apply once_app.
    - exists []. split; [by rewrite app_nil_r|].
      split; [by apply once_no_signal|]. by left. }
  rewrite Hrun in H. destruct H as (evs & Hev & Hgood).
  by rewrite (since_app w w' evs Hev).
Qed.

Lemma SignalAfterLine_await_operator : SignalAfterLine await_operator.
Proof. shape. Qed.

Lemma SpawnsWaiter_runMachine i : SpawnsWaiter (runMachine i).
Proof. shape. Qed.

Lemma SpawnsWaiter_main args : SpawnsWaiter (main args).
Proof. shape. Qed.

(** Left alone, the goroutine logs its prompt, reads the line, sends the
    interrupt once, and ends the process with status 1 exactly when the
    interrupt failed. *)
Lemma await_operator_alone env w :
  exec env await_operator w =
  let w1 := do_Store (signal_err env)
              (do_Signal env
                 (emit EvReadString
                    (emit (EvLog "Press [enter] when installation is complete.")
                       w))).2 in
  match signal_err env with
  | Some e => (emit (EvExit 1) (emit (EvLog e) w1), Exited 1)
  | None => (w1, Returned tt)
  end.
Proof.
  unfold await_operator. simpl. unfold do_Signal. simpl.
  by destruct (signal_err env).
Qed.

(** In every run of the run-machine stage, and of the whole program, the
    interrupt is sent at most once, and only after the operator's line was
    read. *)
Lemma runMachine_signal_once env sched i w w' o :
  run_pool env sched (runMachine i) None w = (w', o) →
  signal_once_after_line (since w w').
Proof.
  apply signal_once_under_every_schedule, SpawnsWaiter_runMachine.
Qed.

(** X3. In every run of the whole program, whatever the command line,
    the schedule and the way the run ends, the interrupt is sent to the
    emulator at most once, and not before a line of the operator was
    read. *)
Lemma main_signal_once env sched args w w' o :
  run_pool env sched (main args) None w = (w', o) →
  signal_once_after_line (since w w').
Proof.
  apply signal_once_under_every_schedule, SpawnsWaiter_main.
Qed.

Lemma main_signal_once_witness :
  Attended.final_main = (Attended.final_main.1, Returned tt)
  ∧ signal_once_after_line (since Sim.start Attended.final_main.1).
Proof.
  split; [vm_compute; reflexivity|].
  apply (main_signal_once Attended.env Attended.sched Sim.scenario_args
           Sim.start Attended.final_main.1 (Returned tt)).
  vm_compute; reflexivity.
Defined.

(** C7 fails on this run.  The signal is sent once, after the line was
    read, and fails; the goroutine assigns the failure to [err]; the main
    goroutine, back from [cmd.Wait], assigns [nil] to the same [err]; the
    goroutine then tests [err], finds [nil] and does not call [log.Fatal].
    The stage returns without an error and the program runs to its end:
    it logs "Done." and no exit is among its events. *)
Theorem failed_signal_not_fatal :
  Race.final.2 = Returned tt
  ∧ filter is_Signal (events Race.final.1)
    = [EvSignal (Some "os: process already finished")]
  ∧ forallb (λ ev, negb (is_Exit ev)) (events Race.final.1) = true
  ∧ last (events Race.final.1) = Some (EvLog "Done.").
Proof.
  repeat split; vm_compute; reflexivity.
Qed.

(** ** What every run has done *)

Lemma advance_tail_closed (P : list (Event → bool) → Prop) :
  (∀ hs, P hs → P (tail hs)) →
  ∀ hs ev, P (advance hs ev) → P (advance (tail hs) ev).
Proof.
  intros HP [|h t] ev; simpl; [done|].
  assert (Ht : P t → P (advance t ev)).
  { destruct t as [|h' t']; simpl; [done|].
    destruct (h' ev); [apply (HP (h' :: t'))|done]. }
  destruct (h ev); [done|]. intros H. apply Ht. by apply (HP (h :: t)).
Qed.

(** What holds before some events are seen holds before fewer are. *)
Lemma Passes_tail {A} (p : Prog A) :
  ∀ ret ex hs, Passes ret ex p hs → Passes ret ex p (tail hs).
Proof.
  induction p; intros ret ex hs HP; simpl in *;
    try (intros; eapply (advance_tail_closed (Passes ret ex _)); by eauto).
  - intros Hr. by rewrite (HP Hr).
  - destruct HP as [Hg Hk]. split.
    + eapply (advance_tail_closed (Passes _ ex _)); by eauto.
    + eapply (advance_tail_closed (Passes ret ex _)); by eauto.
  - intros Hc. specialize (HP Hc). destruct hs as [|h [|h' t]]; try done.
    simpl in HP. by destruct (h _).
  - by eauto.
  - by eauto.
Qed.

Lemma Passes_advance {A} (p : Prog A) ret ex hs evs :
  Passes ret ex p hs → Passes ret ex p (foldl advance hs evs).
Proof.
  revert hs. induction evs as [|ev evs IH]; intros hs HP; [done|].
  simpl. apply IH. destruct hs as [|h t]; [done|]. simpl.
  destruct (h ev); [by apply (Passes_tail p ret ex (h :: t))|done].
Qed.

Section Passing.
Context (env : Env).

Lemma Passes_step {A} ret ex (p : Prog A) hs w p' w' sp :
  Passes ret ex p hs → step env p w = Next p' w' sp →
  ∃ evs, events w' = events w ++ evs
         ∧ Passes ret ex p' (foldl advance hs evs)
         ∧ ∀ g, sp = Some g → Passes (λ _, False) ex g (foldl advance hs evs).
Proof.
  destruct p; simpl; try done; intros HP;
    unfold do_Run, do_Start, do_Wait, do_Signal, do_TempDir, do_WriteFile,
      do_Rename;
    repeat case_match; intros [= <- <- <-]; simplify_eq;
    first [eexists [_]; split; [done|]; split; [by apply HP|done]
          |exists []; split; [by rewrite app_nil_r|]; split; [by apply HP|done]
          |idtac].
  destruct HP as [Hg Hk]. eexists [_]. split; [done|]. split; [done|].
  by intros ? [= <-].
Qed.

Lemma Passes_stopped {A} ret ex (p : Prog A) hs w code w' :
  Passes ret ex p hs → step env p w = Stopped code w' →
  ex code → advance hs (EvExit code) = [].
Proof.
  destruct p; simpl; try done; try (by intros HP [= <- <-]);
    intros _; by repeat case_match.
Qed.
End Passing.

(** Whatever the schedule, a run that ends in one of the ways singled out
    has seen the events looked for, in their order. *)
Lemma Passes_run env sched {A} ret ex (m : Prog A) hits w w' o :
  Passes ret ex m hits →
  run_pool env sched m None w = (w', o) →
  match o with Returned a => ret a | Exited code => ex code end →
  in_order hits (since w w') = true.
Proof.
  intros Hm Hrun Hend.
  set (Inv := λ (m : Prog A) (g : option (Prog unit)) (w1 : World),
         ∃ evs, events w1 = events w ++ evs
                ∧ Passes ret ex m (foldl advance hits evs)
                ∧ match g with
                  | Some g' => Passes (λ _, False) ex g' (foldl advance hits evs)
                  | None => True
                  end).
  set (Post := λ (w1 : World) (o : Outcome A),
         ∃ evs, events w1 = events w ++ evs
                ∧ (match o with Returned a => ret a | Exited code => ex code end
                   → foldl advance hits evs = [])).
  assert (H : Post (run_pool env sched m None w).1 (run_pool env sched m None w).2).
  { apply (run_pool_invariant env Inv Post); subst Inv Post; simpl.
    - intros a g w1 (evs & Hev & HP & _). by exists evs.
    - intros m1 g w1 m2 w2 sp (evs & Hev & HP & Hg) Hstep.
      destruct (Passes_step env ret ex m1 _ w1 m2 w2 sp HP Hstep)
        as (evs' & Hev' & HP' & Hsp).
      exists (evs ++ evs'). rewrite foldl_app.
      split; [by rewrite Hev', Hev, (assoc_L (++))|]. split; [done|].
      destruct sp as [g'|]; [by apply Hsp|].
      destruct g as [g|]; [|done]. by apply Passes_advance.
    - intros m1 g w1 code w2 (evs & Hev & HP & _) Hstep.
      rewrite (step_Stopped env m1 w1 code w2 Hstep).
      exists (evs ++ [EvExit code]). rewrite foldl_app.
      split; [by rewrite events_emit, Hev, (assoc_L (++))|].
      by apply (Passes_stopped env ret ex m1 _ w1 code w2).
    - intros m1 g w1 u (evs & Hev & HP & _) _. by exists evs.
    - intros m1 g w1 g' w2 sp (evs & Hev & HP & Hg) Hstep.
      destruct (Passes_step env _ ex g _ w1 g' w2 sp Hg Hstep)
        as (evs' & Hev' & HP' & _).
      exists (evs ++ evs'). rewrite foldl_app.
      split; [by rewrite Hev', Hev, (assoc_L (++))|]. split; [|done].
      by apply Passes_advance.
    - intros m1 g w1 code w2 (evs & Hev & HP & Hg) Hstep.
      rewrite (step_Stopped env g w1 code w2 Hstep).
      exists (evs ++ [EvExit code]). rewrite foldl_app.
      split; [by rewrite events_emit, Hev, (assoc_L (++))|].
      by apply (Passes_stopped env (λ _, False) ex g _ w1 code w2).
    - exists []. by rewrite app_nil_r. }
  rewrite Hrun in H. destruct H as (evs & Hev & Hhits).
  unfold in_order. by rewrite (since_app w w' evs Hev), (Hhits Hend).
Qed.

(** [in_order] finds the events whenever they are there. *)
Lemma foldl_advance_suffix hs hs' evs :
  hs' `suffix_of` hs → foldl advance hs evs = [] → foldl advance hs' evs = [].
Proof.
  revert hs hs'. induction evs as [|ev evs IH]; intros hs hs' Hsuf; simpl.
  - intros ->. by apply suffix_nil_inv in Hsuf.
  - apply IH. destruct hs' as [|h' t']; [apply suffix_nil|].
    assert (Hadv : ∀ l, l = h' :: t' ∨ (h' :: t') `suffix_of` tail l →
                        advance (h' :: t') ev `suffix_of` advance l ev).
    { intros l [->|Hl]; [done|].
      assert (advance (h' :: t') ev `suffix_of` tail l).
      { simpl. destruct (h' ev); [|done].
        etrans; [|exact Hl]. by apply suffix_cons_r. }
      destruct l as [|h t]; [done|]. simpl in *.
      destruct (h ev); [done|]. by apply suffix_cons_r. }
    apply Hadv. destruct Hsuf as [[|x pre] ->]; [by left|right].
    simpl. by apply suffix_app_r.
Qed.

Lemma in_order_InOrder hits evs : in_order hits evs = true ↔ InOrder hits evs.
Proof.
  unfold in_order. split.
  - revert hits. induction evs as [|ev evs IH]; intros hits; simpl.
    + by destruct hits.
    + destruct hits as [|h t]; [done|]. simpl.
      destruct (h ev) eqn:Hh.
      * intros Ht. exists [], ev, evs. auto.
      * intros (pre & ev' & post & -> & Hev' & Hpost)%IH.
        by exists (ev :: pre), ev', post.
  - revert evs. induction hits as [|h t IH]; intros evs; simpl.
    + intros _. by induction evs.
    + intros (pre & ev & post & -> & Hh & Hpost).
      induction pre as [|x pre IHpre]; simpl.
      * rewrite Hh. by rewrite (IH post Hpost).
      * destruct (h x); [|done].
        specialize (IH post Hpost).
        destruct (foldl advance t post) eqn:Hpost'; [|done].
        rewrite (foldl_advance_suffix t t (pre ++ ev :: post)); [done|done|].
        rewrite foldl_app. simpl.
        assert (Hsuf : advance (foldl advance t pre) ev `suffix_of` t).
        { clear. revert t. induction pre as [|y pre IH]; intros t; simpl.
          - destruct t as [|h' t']; [done|]. simpl.
            destruct (h' ev); [by apply suffix_cons_r|done].
          - etrans; [apply IH|]. destruct t as [|h' t']; [done|]. simpl.
            destruct (h' y); [by apply suffix_cons_r|done]. }
        by apply (foldl_advance_suffix t).
Qed.

(** ** What no run does *)

Section Allowed.
Context (env : Env).

Lemma Only_step {A} ok (p : Prog A) w p' w' sp :
  Only ok p → step env p w = Next p' w' sp →
  Only ok p' ∧ (∀ g, sp = Some g → Only ok g)
  ∧ ∃ evs, events w' = events w ++ evs ∧ forallb ok evs = true.
Proof.
  destruct p; simpl; try done; intros HO;
    unfold do_Run, do_Start, do_Wait, do_Signal, do_TempDir, do_WriteFile,
      do_Rename;
    repeat case_match; intros [= <- <- <-]; simplify_eq;
    first [split; [by apply HO|]; split; [done|];
           eexists [_]; split; [done|]; simpl;
           by rewrite (proj1 (HO _)) || by rewrite (proj1 (HO _ _))
                                     || by rewrite (proj1 HO)
          |split; [by apply HO|]; split; [done|];
           exists []; split; [by rewrite app_nil_r|done]
          |idtac].
  destruct HO as (Hgo & Hg & Hk). split; [done|].
  split; [by intros ? [= <-]|]. eexists [_]. split; [done|]. simpl.
  by rewrite Hgo.
Qed.

Lemma Only_stopped {A} ok (p : Prog A) w code w' :
  Only ok p → step env p w = Stopped code w' → ok (EvExit code) = true.
Proof.
  destruct p; simpl; try done; try (by intros HO [= <- <-]);
    intros _; by repeat case_match.
Qed.

(** Whatever the schedule, every event of a run is one the program's
    shape allows. *)
Lemma Only_run sched {A} ok (m : Prog A) w w' o :
  Only ok m →
  run_pool env sched m None w = (w', o) →
  forallb ok (since w w') = true.
Proof.
  intros Hm Hrun.
  set (Inv := λ (m : Prog A) (g : option (Prog unit)) (w1 : World),
         Only ok m
         ∧ match g with Some g' => Only ok g' | None => True end
         ∧ ∃ evs, events w1 = events w ++ evs ∧ forallb ok evs = true).
  set (Post := λ (w1 : World) (o : Outcome A),
         ∃ evs, events w1 = events w ++ evs ∧ forallb ok evs = true).
  assert (H : Post (run_pool env sched m None w).1 (run_pool env sched m None w).2).
  { apply (run_pool_invariant env Inv Post); subst Inv Post; simpl.
    - by intros a g w1 (_ & _ & H).
    - intros m1 g w1 m2 w2 sp (HO & Hg & evs & Hev & Hok) Hstep.
      destruct (Only_step ok m1 w1 m2 w2 sp HO Hstep)
        as (HO' & Hsp & evs' & Hev' & Hok').
      split; [done|]. split; [destruct sp; [by apply Hsp|done]|].
      exists (evs ++ evs'). rewrite forallb_app, Hok, Hok'.
      by rewrite Hev', Hev, (assoc_L (++)).
    - intros m1 g w1 code w2 (HO & _ & evs & Hev & Hok) Hstep.
      rewrite (step_Stopped env m1 w1 code w2 Hstep).
      exists (evs ++ [EvExit code]).
      split; [by rewrite events_emit, Hev, (assoc_L (++))|].
      rewrite forallb_app, Hok. simpl.
      by rewrite (Only_stopped ok m1 w1 code w2 HO Hstep).
    - by intros m1 g w1 u (HO & _ & H) _.
    - intros m1 g w1 g' w2 sp (HO & Hg & evs & Hev & Hok) Hstep.
      destruct (Only_step ok g w1 g' w2 sp Hg Hstep)
        as (Hg' & _ & evs' & Hev' & Hok').
      split; [done|]. split; [done|].
      exists (evs ++ evs'). rewrite forallb_app, Hok, Hok'.
      by rewrite Hev', Hev, (assoc_L (++)).
    - intros m1 g w1 code w2 (_ & Hg & evs & Hev & Hok) Hstep.
      rewrite (step_Stopped env g w1 code w2 Hstep).
      exists (evs ++ [EvExit code]).
      split; [by rewrite events_emit, Hev, (assoc_L (++))|].
      rewrite forallb_app, Hok. simpl.
      by rewrite (Only_stopped ok g w1 code w2 Hg Hstep).
    - split; [done|]. split; [done|]. exists []. by rewrite app_nil_r. }
  rewrite Hrun in H. destruct H as (evs & Hev & Hok).
  by rewrite (since_app w w' evs Hev).
Qed.
End Allowed.

(** ** Before a goroutine is started *)

Section Sequential.
Context (env : Env).

Lemma NoGo_step {A} (p : Prog A) w p' w' sp :
  NoGo p → step env p w = Next p' w' sp → NoGo p' ∧ sp = None.
Proof.
  destruct p; simpl; try done; intros HN;
    unfold do_Run, do_Start, do_Wait, do_Signal, do_TempDir, do_WriteFile,
      do_Rename;
    repeat case_match; intros [= <- <- <-]; by simplify_eq.
Qed.

(** While no goroutine has been started the schedule does not matter: a
    part of the program that starts none runs as it does alone, and what
    follows it runs under what is left of the schedule. *)
Lemma run_pool_bind_NoGo sched {A B} (p : Prog A) (f : A → Prog B) w :
  NoGo p →
  ∃ sched', run_pool env sched (bind p f) None w =
            match exec env p w with
            | (w1, Returned a) => run_pool env sched' (f a) None w1
            | (w1, Exited code) => (w1, Exited code)
            end.
Proof.
  revert p w. induction sched as [|[|] sched IH]; intros p w HN.
  - exists []. simpl. by rewrite exec_bind_raw.
  - destruct (step env p w) as [a|p' w' sp|code w'] eqn:Hstep.
    + apply step_Finished in Hstep as ->. by exists (MainTurn :: sched).
    + destruct (NoGo_step p w p' w' sp HN Hstep) as [HN' ->].
      destruct (IH p' w' HN') as [sched' Hrun]. exists sched'.
      simpl. rewrite step_bind, Hstep, Hrun.
      by rewrite (exec_step env p w), Hstep.
    + exists []. simpl. rewrite step_bind, Hstep.
      by rewrite (exec_step env p w), Hstep.
  - destruct (IH p w HN) as [sched' Hrun]. by exists sched'.
Qed.

Lemma run_pool_NoGo sched {A} (p : Prog A) w :
  NoGo p → run_pool env sched p None w = exec env p w.
Proof.
  revert p w. induction sched as [|[|] sched IH]; intros p w HN; [done|..].
  - simpl. rewrite (exec_step env p w).
    destruct (step env p w) as [a|p' w' sp|code w'] eqn:Hstep; [done| |done].
    destruct (NoGo_step p w p' w' sp HN Hstep) as [HN' ->]. by apply IH.
  - simpl. by apply IH.
Qed.
End Sequential.

(** ** What a run of the pipeline has done when it ends *)

(** Unfolds a program of the source against the events looked for. *)
Ltac passes :=
  unfold main, check_dependencies, getFilepath, newConfigFromFlags, newInstaller,
    Install, defer, createImage, runMachine, compressImage, buildImage,
    pushImage, writeDockerfile, run_command, await_operator, Fatal,
    create_argv, push_argv, mbind, Prog_bind, mret, Prog_ret;
  repeat (simpl;
          first [done
                |rewrite bool_decide_eq_true_2 by done
                |intros ? [?|]|intros [?|]|intro|split
                |case_match]).

Local Opaque dockerFilepath dockerfileContents tempFilepath runMachine_args
  convert_argv build_argv.

Lemma Passes_Install i :
  Passes (λ r, r = None) (λ _, False) (Install i) (Install_steps i).
Proof.
  unfold Install_steps, Install. destruct (compress (config i)); passes.
Qed.

(** [Install] followed by what [main] does with its result. *)
Lemma Passes_Install_Done i :
  Passes (λ _, True) (λ _, False)
    (bind (Install i)
       (λ err, match err with
               | Some e => Fatal e
               | None => Log "Done." (Ret tt)
               end))
    (Install_steps i ++ [logged "Done."]).
Proof.
  unfold Install_steps, Install. destruct (compress (config i)); passes.
Qed.

Lemma Passes_Install_fatal i :
  Passes (λ _, False) (λ _, True) (Install i) (fatal_steps i).
Proof.
  unfold fatal_steps, Install. destruct (compress (config i)); passes.
Qed.

Local Transparent dockerFilepath dockerfileContents tempFilepath runMachine_args
  convert_argv build_argv.

(** A run only adds events, and a run that ends the process adds the exit
    last. *)
Lemma run_pool_events env sched {A} (m : Prog A) g w :
  ∃ evs, events (run_pool env sched m g w).1 = events w ++ evs
         ∧ ∀ code, (run_pool env sched m g w).2 = Exited code →
                   ∃ evs', evs = evs' ++ [EvExit code].
Proof.
  set (Inv := λ (m : Prog A) (g : option (Prog unit)) (w1 : World),
         ∃ evs, events w1 = events w ++ evs).
  set (Post := λ (w1 : World) (o : Outcome A),
         ∃ evs, events w1 = events w ++ evs
                ∧ ∀ code, o = Exited code → ∃ evs', evs = evs' ++ [EvExit code]).
  apply (run_pool_invariant env Inv Post); subst Inv Post; simpl.
  - intros a g0 w1 [evs Hev]. by exists evs.
  - intros m1 g0 w1 m2 w2 sp [evs Hev] Hstep.
    destruct (step_events env m1 w1 m2 w2 sp Hstep) as (evs' & Hev' & _).
    exists (evs ++ evs'). by rewrite Hev', Hev, (assoc_L (++)).
  - intros m1 g0 w1 code w2 [evs Hev] Hstep.
    rewrite (step_Stopped env m1 w1 code w2 Hstep).
    exists (evs ++ [EvExit code]).
    split; [by rewrite events_emit, Hev, (assoc_L (++))|].
    intros ? [= <-]. by exists evs.
  - intros m1 g0 w1 u [evs Hev] _. by exists evs.
  - intros m1 g0 w1 g' w2 sp [evs Hev] Hstep.
    destruct (step_events env g0 w1 g' w2 sp Hstep) as (evs' & Hev' & _).
    exists (evs ++ evs'). by rewrite Hev', Hev, (assoc_L (++)).
  - intros m1 g0 w1 code w2 [evs Hev] Hstep.
    rewrite (step_Stopped env g0 w1 code w2 Hstep).
    exists (evs ++ [EvExit code]).
    split; [by rewrite events_emit, Hev, (assoc_L (++))|].
    intros ? [= <-]. by exists evs.
  - exists []. by rewrite app_nil_r.
Qed.

Lemma InOrder_later hits pre evs : InOrder hits evs → InOrder hits (pre ++ evs).
Proof.
  destruct hits as [|h rest]; [done|]. simpl.
  intros (pre' & ev & post & -> & Hh & Hrest).
  exists (pre ++ pre'), ev, post. by rewrite (assoc_L (++)).
Qed.

Lemma InOrder_app hits1 hits2 evs1 evs2 :
  InOrder hits1 evs1 → InOrder hits2 evs2 →
  InOrder (hits1 ++ hits2) (evs1 ++ evs2).
Proof.
  revert evs1. induction hits1 as [|h rest IH]; intros evs1; simpl.
  - intros _. apply InOrder_later.
  - intros (pre & ev & post & -> & Hh & Hrest) H2.
    exists pre, ev, (post ++ evs2). rewrite <- (assoc_L (++)). auto.
Qed.

Lemma lookups_InOrder names outs :
  length outs = length names →
  InOrder (map (λ name, ran ["which"; name]) names) (lookups names outs).
Proof.
  revert outs. induction names as [|name names IH]; intros [|out outs];
    try done.
  intros [= Hlen]. unfold lookups. simpl.
  exists [], (EvRun ["which"; name] out None), (lookups names outs).
  split; [done|]. split; [by apply bool_decide_eq_true_2|by apply IH].
Qed.

(** X9. Whatever the schedule, when [Install] returns [nil] every stage
    has been carried out, in the order of the pipeline and each with its
    own command line: the image was created, the emulator was started and
    waited for, the image was converted and renamed when compression is
    configured, the build descriptor was written, the container image was
    built and pushed; and the working directory was removed after all of
    that.  Each of these calls had returned without an error, but for the
    wait, whose error the caller may never see. *)
Theorem Install_returns_nil_after_every_stage env sched i w w' :
  run_pool env sched (Install i) None w = (w', Returned None) →
  in_order (Install_steps i) (since w w') = true.
Proof.
  intros Hrun.
  by apply (Passes_run env sched (λ r, r = None) (λ _, False) (Install i)
              (Install_steps i) w w' (Returned None) (Passes_Install i) Hrun).
Qed.

Lemma Install_returns_nil_after_every_stage_witness :
  Attended.final_Install = (Attended.final_Install.1, Returned None)
  ∧ in_order (Install_steps Attended.i)
             (since Sim.start Attended.final_Install.1) = true.
Proof.
  split; [vm_compute; reflexivity|].
  apply (Install_returns_nil_after_every_stage Attended.env Attended.sched).
  vm_compute; reflexivity.
Defined.

(** ** The calls of the program *)

(** Unfolds a program of the source against the calls allowed. *)
Ltac allowed :=
  unfold main, check_dependencies, getFilepath, newConfigFromFlags, newInstaller,
    Install, defer, createImage, runMachine, compressImage, buildImage,
    pushImage, writeDockerfile, run_command, await_operator, Fatal,
    runMachine_args, convert_argv, build_argv,
    mbind, Prog_bind, mret, Prog_ret;
  repeat (simpl;
          first [done|progress simplify_eq
                |intros ? [?|]|intros [?|]|intro|split|case_match]).

Local Opaque dockerFilepath dockerfileContents tempFilepath.

Lemma known_call_Install i : Only known_call (Install i).
Proof. allowed. Qed.

Lemma no_compression_Install i :
  compress (config i) = false → Only no_compression (Install i).
Proof. intros Hc. unfold Install. rewrite Hc. allowed. Qed.

Local Transparent dockerFilepath dockerfileContents tempFilepath.

(** The status of a run that ends the process is the status of its last
    event. *)
Lemma Exited_allowed env sched {A} ok (m : Prog A) w w' code :
  Only ok m →
  run_pool env sched m None w = (w', Exited code) →
  ok (EvExit code) = true.
Proof.
  intros Hm Hrun. pose proof (Only_run env sched ok m w w' _ Hm Hrun) as Hok.
  destruct (run_pool_events env sched m None w) as (evs & Hev & Hexit).
  rewrite Hrun in Hev, Hexit. simpl in Hev, Hexit.
  destruct (Hexit code eq_refl) as [evs' ->].
  rewrite (since_app w w' _ Hev), forallb_app in Hok. simpl in Hok.
  by destruct (ok (EvExit code)); [|destruct (forallb ok evs')].
Qed.

(** X10. [Install] itself never ends the process.  Whatever the schedule,
    when a run of [Install] ends in [os.Exit] the exit is the one of
    [log.Fatal] in the goroutine of [runMachine], with status 1: the
    emulator had been started, the prompt logged, the operator's line read
    and the interrupt sent before it. *)
Theorem Install_exits_only_through_fatal env sched i w w' code :
  run_pool env sched (Install i) None w = (w', Exited code) →
  code = 1 ∧ in_order (fatal_steps i) (since w w') = true.
Proof.
  intros Hrun. split.
  - pose proof (Exited_allowed env sched known_call (Install i) w w' code
                  (known_call_Install i) Hrun) as H.
    by apply bool_decide_eq_true_1 in H.
  - by apply (Passes_run env sched (λ _, False) (λ _, True) (Install i)
                (fatal_steps i) w w' (Exited code)
                (Passes_Install_fatal i) Hrun).
Qed.

Lemma Install_exits_only_through_fatal_witness :
  Unreached.final_Install = (Unreached.final_Install.1, Exited 1)
  ∧ 1 = 1
  ∧ in_order (fatal_steps Attended.i)
             (since Sim.start Unreached.final_Install.1) = true.
Proof.
  split; [vm_compute; reflexivity|].
  apply (Install_exits_only_through_fatal Unreached.env Unreached.sched).
  vm_compute; reflexivity.
Defined.

(** X13. Without the compression flag the compression stage is left out
    altogether: whatever the schedule, and however the run ends, a run of
    [Install] makes no call of [qemu-img convert] and renames no file. *)
Theorem Install_without_compress_never_converts env sched i w w' o :
  compress (config i) = false →
  run_pool env sched (Install i) None w = (w', o) →
  forallb no_compression (since w w') = true.
Proof.
  intros Hc Hrun.
  by apply (Only_run env sched no_compression (Install i) w w' o
              (no_compression_Install i Hc)).
Qed.

Lemma Install_without_compress_never_converts_witness :
  compress (config Plain.i) = false
  ∧ Plain.final_Install = (Plain.final_Install.1, Returned None)
  ∧ forallb no_compression (since Sim.start Plain.final_Install.1) = true.
Proof.
  split; [reflexivity|]. split; [vm_compute; reflexivity|].
  apply (Install_without_compress_never_converts Attended.env Attended.sched
           Plain.i Sim.start Plain.final_Install.1 (Returned None));
    vm_compute; reflexivity.
Defined.

(** ** The working directory and the paths below it *)

Lemma plain_Dockerfile : plain_name "Dockerfile".
Proof. repeat split; try done. by repeat constructor. Qed.

(** X5. When [ioutil.TempDir] succeeds with a directory whose path is
    clean, [newInstaller] returns an Installer with that directory as its
    working directory and [base.qcow2] right below it as its disk image;
    the image, the temporary file of the compression and the build
    descriptor all lie below the working directory, which exists.  No
    file has been touched. *)
Theorem newInstaller_paths_below_context env c w dir :
  temp_dir env EmptyString "docker-context" (fs w) = (dir, None) →
  Clean dir = dir → dir ≠ "/" → dir ≠ "." →
  ∃ i w', exec env (newInstaller c) w = (w', Returned (i, None))
          ∧ config i = c ∧ contextDir i = dir
          ∧ imageFilepath i = dir +:+ "/base.qcow2"
          ∧ tempFilepath i = dir +:+ "/base.qcow2.temp"
          ∧ dockerFilepath i = dir +:+ "/Dockerfile"
          ∧ under dir (imageFilepath i) = true
          ∧ under dir (tempFilepath i) = true
          ∧ under dir (dockerFilepath i) = true
          ∧ dir ∈ dirs (fs w') ∧ files (fs w') = files (fs w).
Proof.
  intros Htemp Hclean Hroot Hdot.
  pose proof (Join_clean_dir dir imageFilename plain_imageFilename
                Hclean Hroot Hdot) as Himg.
  pose proof (Join_clean_dir dir "Dockerfile" plain_Dockerfile
                Hclean Hroot Hdot) as Hdocker.
  exists (mkInstaller c dir (Join [dir; imageFilename])).
  eexists. split.
  { unfold newInstaller. rewrite exec_bind. simpl. unfold do_TempDir.
    rewrite Htemp. reflexivity. }
  unfold tempFilepath, dockerFilepath.
  cbn [config contextDir imageFilepath]. rewrite Himg, Hdocker.
  repeat split.
  - by rewrite append_assoc.
  - unfold under. change (dir +:+ "/" +:+ imageFilename)
      with (dir +:+ "/" +:+ "base.qcow2").
    rewrite <- append_assoc, prefix_append. apply orb_true_r.
  - unfold under. rewrite <- !append_assoc, append_assoc, prefix_append.
    apply orb_true_r.
  - unfold under. rewrite <- append_assoc, prefix_append. apply orb_true_r.
  - simpl. set_solver.
Qed.

Lemma newInstaller_paths_below_context_witness :
  temp_dir Attended.env EmptyString "docker-context" (fs Sim.start)
  = ("/tmp/docker-context42", None)
  ∧ Clean "/tmp/docker-context42" = "/tmp/docker-context42"
  ∧ ∃ i w', exec Attended.env (newInstaller Sim.scenario) Sim.start
            = (w', Returned (i, None))
            ∧ config i = Sim.scenario
            ∧ contextDir i = "/tmp/docker-context42"
            ∧ imageFilepath i = "/tmp/docker-context42" +:+ "/base.qcow2"
            ∧ tempFilepath i = "/tmp/docker-context42" +:+ "/base.qcow2.temp"
            ∧ dockerFilepath i = "/tmp/docker-context42" +:+ "/Dockerfile"
            ∧ under "/tmp/docker-context42" (imageFilepath i) = true
            ∧ under "/tmp/docker-context42" (tempFilepath i) = true
            ∧ under "/tmp/docker-context42" (dockerFilepath i) = true
            ∧ "/tmp/docker-context42" ∈ dirs (fs w')
            ∧ files (fs w') = files (fs Sim.start).
Proof.
  split; [reflexivity|]. split; [reflexivity|].
  apply (newInstaller_paths_below_context Attended.env Sim.scenario Sim.start
           "/tmp/docker-context42");
    [reflexivity|reflexivity|discriminate|discriminate].
Defined.

Local Opaque dockerFilepath dockerfileContents tempFilepath runMachine_args
  convert_argv build_argv.

Lemma confined_Install i :
  under (contextDir i) (imageFilepath i) = true →
  under (contextDir i) (tempFilepath i) = true →
  under (contextDir i) (dockerFilepath i) = true →
  Only (confined (contextDir i)) (Install i).
Proof.
  intros Himg Htemp Hdocker.
  unfold Install, defer, createImage, runMachine, compressImage, buildImage,
    pushImage, writeDockerfile, run_command, await_operator, Fatal,
    mbind, Prog_bind, mret, Prog_ret.
  repeat (simpl;
          first [done
                |rewrite bool_decide_eq_true_2 by done
                |rewrite Himg|rewrite Htemp
                |intros ? [?|]|intros [?|]|intro|split|case_match]).
Qed.

Local Transparent dockerFilepath dockerfileContents tempFilepath runMachine_args
  convert_argv build_argv.

(** X12. With the Installer that [newInstaller] makes on a directory whose
    path is clean, whatever the schedule and however the run ends, what
    [Install] itself does to the file system stays inside the working
    directory: every file it writes and every file it renames, under its
    old and its new name, lies below that directory, the only path it
    removes is that directory, and it makes no directory. *)
Theorem Install_confined_to_context env sched c dir w w' o :
  Clean dir = dir → dir ≠ "/" → dir ≠ "." →
  run_pool env sched (Install (mkInstaller c dir (Join [dir; imageFilename])))
           None w = (w', o) →
  forallb (confined dir) (since w w') = true.
Proof.
  intros Hclean Hroot Hdot Hrun.
  set (i := mkInstaller c dir (Join [dir; imageFilename])) in *.
  pose proof (Join_clean_dir dir imageFilename plain_imageFilename
                Hclean Hroot Hdot) as Himg.
  apply (Only_run env sched (confined (contextDir i)) (Install i) w w' o);
    [|done].
  apply confined_Install.
  - by apply (under_Join dir imageFilename plain_imageFilename).
  - unfold tempFilepath, under. cbn [contextDir imageFilepath i].
    rewrite Himg, <- !append_assoc, append_assoc, prefix_append.
    apply orb_true_r.
  - by apply (under_Join dir "Dockerfile" plain_Dockerfile).
Qed.

Lemma Install_confined_to_context_witness :
  Clean "/tmp/docker-context42" = "/tmp/docker-context42"
  ∧ Attended.final_Install = (Attended.final_Install.1, Returned None)
  ∧ forallb (confined "/tmp/docker-context42")
            (since Sim.start Attended.final_Install.1) = true.
Proof.
  split; [reflexivity|]. split; [vm_compute; reflexivity|].
  apply (Install_confined_to_context Attended.env Attended.sched Sim.scenario
           "/tmp/docker-context42" Sim.start Attended.final_Install.1
           (Returned None));
    [reflexivity|discriminate|discriminate|vm_compute; reflexivity].
Defined.

(** ** Calls of the operating system that fail *)

(** X6. When the emulator cannot be started, [runMachine] returns at once
    with an empty output and the error of [cmd.Start], whatever the
    schedule: the failed start is the only thing it has done.  No
    goroutine is started, nothing is asked of the operator, nothing is
    waited for and no signal is sent, and the files are as they were. *)
Theorem runMachine_start_failure env sched i w e :
  start_err env (runMachine_args i) (fs w) = Some e →
  ∃ w', run_pool env sched (runMachine i) None w
        = (w', Returned (EmptyString, Some e))
        ∧ since w w' = [EvStart (runMachine_args i) (Some e)]
        ∧ fs w' = fs w.
Proof.
  intros Hstart.
  destruct (run_pool_bind_NoGo env sched (Start (runMachine_args i) Ret)
              (λ err, Store err
                 (match err with
                  | Some _ => mret (EmptyString, err)
                  | None =>
                      Go await_operator
                        ('(out, err) ← Wait Ret;
                         Store err (err' ← Load Ret; mret (out, err')))
                  end)) w) as [sched' Hrun]; [done|].
  change (bind (Start (runMachine_args i) Ret) _) with (runMachine i) in Hrun.
  rewrite Hrun. simpl. unfold do_Start. rewrite Hstart.
  rewrite run_pool_NoGo by done. simpl.
  eexists. split; [done|]. split; [|done]. since_events.
Qed.

Lemma runMachine_start_failure_witness :
  start_err Failing.no_start (runMachine_args Attended.i) (fs Sim.start)
  = Some "exec: permission denied"
  ∧ ∃ w', run_pool Failing.no_start Attended.sched (runMachine Attended.i)
                   None Sim.start
          = (w', Returned (EmptyString, Some "exec: permission denied"))
          ∧ since Sim.start w'
            = [EvStart (runMachine_args Attended.i)
                       (Some "exec: permission denied")]
          ∧ fs w' = fs Sim.start.
Proof.
  split; [reflexivity|].
  apply (runMachine_start_failure Failing.no_start Attended.sched Attended.i
           Sim.start "exec: permission denied").
  reflexivity.
Defined.

(** X7. When the conversion has succeeded but the temporary file cannot be
    renamed, because [os.Rename] fails or because the conversion left no
    file at the temporary path, [compressImage] returns the output of the
    conversion with the error of the rename.  The files are as the
    conversion left them: nothing was moved, and the temporary file, if
    there is one, stays. *)
Theorem compressImage_rename_failure env i w out s e :
  tool env (convert_argv i) (fs w) = (out, None, s) →
  rename_err env (tempFilepath i) (imageFilepath i) s = Some e
  ∨ (rename_err env (tempFilepath i) (imageFilepath i) s = None
     ∧ files s !! tempFilepath i = None ∧ e = ENOENT) →
  ∃ w', exec env (compressImage i) w = (w', Returned (out, Some e))
        ∧ fs w' = s
        ∧ since w w' = [EvRun (convert_argv i) out None;
                        EvRename (tempFilepath i) (imageFilepath i) (Some e)].
Proof.
  intros Htool Hrename. rewrite exec_compressImage, Htool.
  cbv zeta. unfold do_Rename, emit, set_fs. simpl.
  destruct Hrename as [Hre|(Hre & Hfile & ->)]; rewrite Hre.
  - eexists. split; [done|]. split; [done|]. since_events.
  - rewrite Hfile. eexists. split; [done|]. split; [done|]. since_events.
Qed.

Lemma compressImage_rename_failure_witness :
  ∃ s, tool Failing.no_rename (convert_argv Attended.i) (fs Sim.installed)
       = (EmptyString, None, s)
       ∧ ∃ w', exec Failing.no_rename (compressImage Attended.i) Sim.installed
               = (w', Returned (EmptyString, Some "rename: permission denied"))
               ∧ fs w' = s
               ∧ since Sim.installed w'
                 = [EvRun (convert_argv Attended.i) EmptyString None;
                    EvRename (tempFilepath Attended.i)
                             (imageFilepath Attended.i)
                             (Some "rename: permission denied")].
Proof.
  eexists. split; [reflexivity|].
  apply (compressImage_rename_failure Failing.no_rename Attended.i
           Sim.installed EmptyString _ "rename: permission denied");
    [reflexivity|by left].
Defined.

(** ** The whole program *)

Section Whole.
Context (env : Env).

Lemma run_stages_fails i before s after w w1 w2 out e :
  run_stages env i before w = Some w1 →
  exec env (stage_prog s i) (emit (EvLog (announcement s)) w1)
  = (w2, Returned (out, Some e)) →
  run_stages env i (before ++ s :: after) w = None.
Proof.
  revert w. induction before as [|b before IH]; intros w; simpl.
  - intros [= ->] ->. done.
  - destruct (exec env (stage_prog b i) _) as [w' [[out' [e'|]]|code]];
      try done.
    apply IH.
Qed.

Lemma NoGo_check_dependencies names : NoGo (check_dependencies names).
Proof.
  induction names as [|name names IH]; [done|].
  simpl. by intros [out [e|]].
Qed.

Lemma NoGo_newConfigFromFlags args : NoGo (newConfigFromFlags args).
Proof. unfold newConfigFromFlags. by case_bool_decide. Qed.

Lemma NoGo_newInstaller c : NoGo (newInstaller c).
Proof. by intros [dir err]. Qed.

(** The run of [main] up to the call of [Install], which no schedule can
    change: the preflight, the configuration, the working directory. *)
Lemma main_until_Install sched args w w' o :
  run_pool env sched (main args) None w = (w', o) →
  match exec env (check_dependencies processList) w with
  | (w1, Returned _) =>
      if bool_decide (isoFilepath (flag_Parse args) = EmptyString
                      ∨ image (flag_Parse args) = EmptyString)
      then w' = emit (EvExit 1) (emit EvUsage w1) ∧ o = Exited 1
      else
        let '(dir, err, w2) := do_TempDir env EmptyString "docker-context" w1 in
        match err with
        | Some e => w' = emit (EvExit 1) (emit (EvLog e) w2) ∧ o = Exited 1
        | None =>
            ∃ sched',
              run_pool env sched'
                (bind (Install (mkInstaller (flag_Parse args) dir
                                  (Join [dir; imageFilename]))) report)
                None w2 = (w', o)
        end
  | (w1, Exited code) => w' = w1 ∧ o = Exited code
  end.
Proof.
  intros Hrun.
  destruct (run_pool_bind_NoGo env sched (check_dependencies processList)
              (λ _, config ← newConfigFromFlags args;
                    '(installer, err) ← newInstaller config;
                    match err with
                    | Some e => Fatal e
                    | None => err ← Install installer; report err
                    end) w (NoGo_check_dependencies _)) as [s1 H1].
  pose proof (eq_trans (eq_sym H1) Hrun) as Hrun1. clear H1 Hrun.
  destruct (exec env (check_dependencies processList) w) as [w1 [[]|code]];
    [|by simplify_eq].
  destruct (run_pool_bind_NoGo env s1 (newConfigFromFlags args)
              (λ config, '(installer, err) ← newInstaller config;
                         match err with
                         | Some e => Fatal e
                         | None => err ← Install installer; report err
                         end) w1 (NoGo_newConfigFromFlags _)) as [s2 H2].
  pose proof (eq_trans (eq_sym H2) Hrun1) as Hrun2. clear H2 Hrun1.
  rewrite exec_newConfigFromFlags in Hrun2.
  case_bool_decide; [by simplify_eq|].
  destruct (run_pool_bind_NoGo env s2 (newInstaller (flag_Parse args))
              (λ '(installer, err),
                 match err with
                 | Some e => Fatal e
                 | None => bind (Install installer) report
                 end) w1 (NoGo_newInstaller _)) as [s3 H3].
  pose proof (eq_trans (eq_sym H3) Hrun2) as Hrun3. clear H3 Hrun2.
  unfold newInstaller in Hrun3. rewrite exec_bind in Hrun3. simpl in Hrun3.
  destruct (do_TempDir env EmptyString "docker-context" w1)
    as [[dir [e|]] w2].
  - simpl in Hrun3. rewrite run_pool_NoGo in Hrun3 by done.
    simpl in Hrun3. by simplify_eq.
  - by exists s3.
Qed.
End Whole.

(** Whatever the schedule, when [Install] and what follows it return,
    provided what follows leaves the files alone, the working directory
    and everything below it are gone. *)
Lemma Install_then_removed env sched i {B} (k : option error → Prog B) w w' r :
  contextDir i ≠ EmptyString →
  (∀ err, Quiet (k err)) →
  run_pool env sched (bind (Install i) k) None w = (w', Returned r) →
  absent (contextDir i) (fs w').
Proof.
  intros Hne Hk Hrun.
  destruct (Install_shape i) as (body0 & HQ0 & Heq). rewrite Heq in Hrun.
  set (cleanup := λ r : option error, RemoveAll (contextDir i) (Ret r)) in *.
  set (Inv := λ (m : Prog B) (g : option (Prog unit)) (w : World),
         match g with Some g' => Quiet g' | None => True end
         ∧ ((∃ body, GoQuiet body ∧ m = bind (bind body cleanup) k)
            ∨ (Quiet m ∧ absent (contextDir i) (fs w)))).
  set (Post := λ (w : World) (o : Outcome B),
         ∀ r, o = Returned r → absent (contextDir i) (fs w)).
  assert (H : Post (run_pool env sched (bind (bind body0 cleanup) k) None w).1
                   (run_pool env sched (bind (bind body0 cleanup) k) None w).2).
  { apply (run_pool_invariant env Inv Post); subst Inv Post; simpl.
    - intros a g w0 [_ [(body & HQ & Hbody)|[_ Habs]]] r0 _; [|done].
      by destruct body.
    - intros m g w0 m' w1 sp [Hg [(body & HQ & ->)|[Hm Habs]]].
      + rewrite !step_bind.
        destruct (step env body w0) as [a|body' w2 sp'|code w2] eqn:Hstep.
        * simpl. intros [= <- <- <-]. split; [done|]. right.
          split; [apply Hk|]. by apply remove_all_absent.
        * intros [= <- <- <-].
          destruct (GoQuiet_step env body w0 body' w2 sp' HQ Hstep) as [HQ' Hsp].
          split; [destruct sp'; [by apply Hsp|done]|]. left. by exists body'.
        * done.
      + intros Hstep.
        destruct (Quiet_step env m w0 m' w1 sp Hm Hstep) as (Hm' & Hfs & ->).
        split; [done|]. right. by rewrite Hfs.
    - done.
    - intros m g w0 u [_ Hm] _. done.
    - intros m g w0 g' w1 sp [Hg Hm] Hstep.
      destruct (Quiet_step env g w0 g' w1 sp Hg Hstep) as (Hg' & Hfs & _).
      split; [done|]. destruct Hm as [Hm|[Hm Habs]]; [by left|right].
      by rewrite Hfs.
    - done.
    - split; [done|]. left. by exists body0. }
  rewrite Hrun in H. by apply (H r).
Qed.

Lemma Quiet_report err : Quiet (report err).
Proof. by destruct err. Qed.

(** X11. Whatever the schedule, when [main] returns, so that the process
    ends with status 0, the whole installation has been carried out: both
    file paths of the configuration are non-empty, each required program
    was looked up and found, the working directory was made, every stage
    of the pipeline was carried out in order as in X9, from the creation
    of the image to the push of the container image, the working
    directory was removed, and "Done." was logged after that.  At the end
    nothing is left at or below the working directory. *)
Theorem main_returns_after_whole_pipeline env sched args w w' :
  run_pool env sched (main args) None w = (w', Returned tt) →
  ∃ dir,
    let i := mkInstaller (flag_Parse args) dir (Join [dir; imageFilename]) in
    isoFilepath (flag_Parse args) ≠ EmptyString
    ∧ image (flag_Parse args) ≠ EmptyString
    ∧ in_order (main_steps i) (since w w') = true
    ∧ (dir ≠ EmptyString → absent dir (fs w')).
Proof.
  intros Hrun. apply main_until_Install in Hrun.
  destruct (exec env (check_dependencies processList) w) as [w1 [[]|code]]
    eqn:Hcheck; [|by destruct Hrun].
  apply check_dependencies_returns in Hcheck as (outs & Hlen & Hev1).
  case_bool_decide as Hflags; [by destruct Hrun|].
  unfold do_TempDir in Hrun.
  destruct (temp_dir env EmptyString "docker-context" (fs w1)) as [dir [e|]];
    [by destruct Hrun|].
  destruct Hrun as [sched' Hrun]. exists dir. intros i.
  set (w2 := emit (EvTempDir dir None) _) in Hrun. fold i in Hrun.
  split; [tauto|]. split; [tauto|]. split.
  - pose proof (Passes_run env sched' (λ _, True) (λ _, False)
                  (bind (Install i) report) _ _ w' (Returned tt)
                  (Passes_Install_Done i) Hrun I) as Hsteps.
    apply in_order_InOrder in Hsteps. apply in_order_InOrder.
    destruct (run_pool_events env sched' (bind (Install i) report) None w2)
      as (evs & Hev & _).
    rewrite Hrun in Hev. cbn [fst] in Hev.
    rewrite (since_app _ w' evs Hev) in Hsteps.
    rewrite (since_app w w' (lookups processList outs
                             ++ [EvTempDir dir None] ++ evs)).
    + unfold main_steps. apply InOrder_app; [by apply lookups_InOrder|].
      apply (InOrder_app [_] _ [_]); [|done].
      exists [], (EvTempDir dir None), []. split; [done|].
      split; [by apply bool_decide_eq_true_2|done].
    + rewrite Hev. unfold w2, emit, set_fs. simpl. rewrite Hev1.
      by rewrite <- !(assoc_L (++)).
  - intros Hdir.
    by apply (Install_then_removed env sched' i report _ w' tt Hdir
                Quiet_report Hrun).
Qed.

Lemma main_returns_after_whole_pipeline_witness :
  Attended.final_main = (Attended.final_main.1, Returned tt)
  ∧ ∃ dir,
      let i := mkInstaller (flag_Parse Sim.scenario_args) dir
                 (Join [dir; imageFilename]) in
      isoFilepath (flag_Parse Sim.scenario_args) ≠ EmptyString
      ∧ image (flag_Parse Sim.scenario_args) ≠ EmptyString
      ∧ in_order (main_steps i) (since Sim.start Attended.final_main.1) = true
      ∧ (dir ≠ EmptyString → absent dir (fs Attended.final_main.1)).
Proof.
  split; [vm_compute; reflexivity|].
  apply (main_returns_after_whole_pipeline Attended.env Attended.sched).
  vm_compute; reflexivity.
Defined.

(** Run by its caller alone, too, [Install] returns with the working
    directory gone. *)
Lemma exec_Install_removed env i w w' r :
  contextDir i ≠ EmptyString →
  exec env (Install i) w = (w', Returned r) →
  absent (contextDir i) (fs w').
Proof.
  intros Hne. destruct (Install_shape i) as (body & _ & ->).
  rewrite exec_bind_raw.
  destruct (exec env body w) as [w1 [a|code]]; [|done].
  simpl. intros [= <- _]. by apply remove_all_absent.
Qed.

Lemma exec_newInstaller env c w :
  exec env (newInstaller c) w =
  let '(dir, err, w') := do_TempDir env EmptyString "docker-context" w in
  (w', Returned (mkInstaller c dir (Join [dir; imageFilename]), err)).
Proof.
  unfold newInstaller. rewrite exec_bind. simpl.
  by destruct (do_TempDir env _ _ w) as [[dir err] w'].
Qed.

(** X15. When the working directory cannot be made, [main] logs the error
    of [ioutil.TempDir] and ends the process with status 1, whatever the
    schedule.  [Install] is not called: after the failed call nothing is
    logged but the error, no stage is carried out, and the files are as
    the preflight left them. *)
Theorem main_TempDir_failure env sched args w w1 name e :
  exec env (check_dependencies processList) w = (w1, Returned tt) →
  isoFilepath (flag_Parse args) ≠ EmptyString →
  image (flag_Parse args) ≠ EmptyString →
  temp_dir env EmptyString "docker-context" (fs w1) = (name, Some e) →
  ∃ w', run_pool env sched (main args) None w = (w', Exited 1)
        ∧ since w1 w' = [EvTempDir name (Some e); EvLog e; EvExit 1]
        ∧ fs w' = fs w1.
Proof.
  intros Hcheck Hiso Himage Htemp.
  destruct (run_pool env sched (main args) None w) as [w' o] eqn:Hrun.
  apply main_until_Install in Hrun. rewrite Hcheck in Hrun.
  rewrite bool_decide_eq_false_2 in Hrun by tauto.
  unfold do_TempDir in Hrun. rewrite Htemp in Hrun.
  destruct Hrun as [-> ->]. eexists. split; [done|]. split; [|done].
  since_events.
Qed.

Lemma main_TempDir_failure_witness :
  exec Failing.no_temp_dir (check_dependencies processList) Sim.start
  = ((exec Failing.no_temp_dir (check_dependencies processList) Sim.start).1,
     Returned tt)
  ∧ ∃ w', run_pool Failing.no_temp_dir Attended.sched (main Sim.scenario_args)
                   None Sim.start = (w', Exited 1)
          ∧ since (exec Failing.no_temp_dir (check_dependencies processList)
                        Sim.start).1 w'
            = [EvTempDir EmptyString (Some "mkdir: permission denied");
               EvLog "mkdir: permission denied"; EvExit 1]
          ∧ fs w' = fs (exec Failing.no_temp_dir
                             (check_dependencies processList) Sim.start).1.
Proof.
  split; [vm_compute; reflexivity|].
  apply (main_TempDir_failure Failing.no_temp_dir Attended.sched
           Sim.scenario_args Sim.start);
    [vm_compute; reflexivity|discriminate|discriminate|reflexivity].
Defined.

(** X16. When [Install] returns an error, [main] logs that error and ends
    the process with status 1; it does not log "Done.".  The deferred
    removal has run before [Install] returned, so nothing is left at or
    below the working directory when the process ends.  This is the run
    of the main goroutine by itself, as in C1. *)
Theorem main_install_failure_fatal env args w w1 dir w3 e :
  exec env (check_dependencies processList) w = (w1, Returned tt) →
  isoFilepath (flag_Parse args) ≠ EmptyString →
  image (flag_Parse args) ≠ EmptyString →
  temp_dir env EmptyString "docker-context" (fs w1) = (dir, None) →
  exec env (Install (mkInstaller (flag_Parse args) dir (Join [dir; imageFilename])))
       (do_TempDir env EmptyString "docker-context" w1).2
  = (w3, Returned (Some e)) →
  ∃ w', exec env (main args) w = (w', Exited 1)
        ∧ since w3 w' = [EvLog e; EvExit 1]
        ∧ (dir ≠ EmptyString → absent dir (fs w')).
Proof.
  intros Hcheck Hiso Himage Htemp HInstall.
  exists (emit (EvExit 1) (emit (EvLog e) w3)). split; [|split].
  - unfold main. rewrite exec_bind, Hcheck, exec_bind, exec_newConfigFromFlags.
    rewrite bool_decide_eq_false_2 by tauto.
    rewrite exec_bind, exec_newInstaller.
    unfold do_TempDir in HInstall |- *. rewrite Htemp in HInstall |- *.
    cbv beta iota zeta. rewrite exec_bind.
    match goal with
    | |- context [@exec env ?A (Install ?i) ?w2] =>
        assert (Heq : @exec env A (Install i) w2 = (w3, Returned (Some e)))
          by exact HInstall;
        rewrite Heq
    end.
    reflexivity.
  - since_events.
  - intros Hdir.
    by apply (exec_Install_removed env
                (mkInstaller (flag_Parse args) dir (Join [dir; imageFilename]))
                _ w3 (Some e) Hdir HInstall).
Qed.

Lemma main_install_failure_fatal_witness :
  exec BuildFails.env (check_dependencies processList) Sim.start
  = (BuildFailsMain.preflight, Returned tt)
  ∧ exec BuildFails.env (Install BuildFails.i) BuildFailsMain.with_dir
    = (BuildFailsMain.after_Install, Returned (Some "exit status 1"))
  ∧ ∃ w', exec BuildFails.env (main Sim.scenario_args) Sim.start
          = (w', Exited 1)
          ∧ since BuildFailsMain.after_Install w'
            = [EvLog "exit status 1"; EvExit 1]
          ∧ ("/tmp/docker-context42" ≠ EmptyString
             → absent "/tmp/docker-context42" (fs w')).
Proof.
  split; [vm_compute; reflexivity|]. split; [vm_compute; reflexivity|].
  apply (main_install_failure_fatal BuildFails.env Sim.scenario_args Sim.start
           BuildFailsMain.preflight "/tmp/docker-context42"
           BuildFailsMain.after_Install "exit status 1");
    [vm_compute; reflexivity|discriminate|discriminate|reflexivity
    |vm_compute; reflexivity].
Defined.

(** X8. Run by its caller alone, [Install] always returns, and what it
    returns is decided by its stages: when every stage of the pipeline
    returns without an error it returns [nil], the last thing it does
    being the removal of the working directory; otherwise it returns an
    error. *)
Theorem Install_returns_nil_iff_every_stage env i w :
  match run_stages env i (pipeline i)
          (emit (EvLog ("Context dir: " +:+ contextDir i)) w) with
  | Some w1 =>
      exec env (Install i) w = (do_RemoveAll (contextDir i) w1, Returned None)
  | None => ∃ w' e, exec env (Install i) w = (w', Returned (Some e))
  end.
Proof.
  destruct (run_stages_cases env i (pipeline i)
              (emit (EvLog ("Context dir: " +:+ contextDir i)) w))
    as [[w1 Hall]|(before & s & after & w1 & w2 & out & e & Hsplit & Hb & Hs)].
  - rewrite Hall. by apply Install_success.
  - rewrite Hsplit, (run_stages_fails env i before s after _ w1 w2 out e Hb Hs).
    eexists _, e.
    by apply (Install_failure env i w before s after w1 w2 out e).
Qed.

(** ** What comes before a call *)

Lemma Guarded_tail {A} (p : Prog A) :
  ∀ at_ hs, Guarded at_ p hs → Guarded at_ p (tail hs).
Proof.
  assert (Hnil : ∀ (hs : list (Event → bool)), hs = [] → tail hs = [])
    by by intros ? ->.
  induction p; intros at_ hs HG; simpl in *;
    try done;
    try (intros x y; lazymatch goal with |- _ ∧ _ => idtac end;
         destruct (HG x y) as [Hat Hk]; split;
         [intros ?; by apply Hnil, Hat
         |eapply (advance_tail_closed (Guarded at_ _)); [by eauto|done]]);
    try (intros x; lazymatch goal with |- _ ∧ _ => idtac end;
         destruct (HG x) as [Hat Hk]; split;
         [intros ?; by apply Hnil, Hat
         |eapply (advance_tail_closed (Guarded at_ _)); [by eauto|done]]);
    try (lazymatch goal with |- _ ∧ _ => idtac end;
         destruct HG as [Hat Hk]; split;
         [intros ?; by apply Hnil, Hat
         |eapply (advance_tail_closed (Guarded at_ _)); [by eauto|done]]).
  - destruct HG as (Hat & Hg & Hk). split; [intros; by apply Hnil, Hat|].
    split; eapply (advance_tail_closed (Guarded at_ _)); by eauto.
  - intros. by apply Hnil, HG.
  - by eauto.
  - by eauto.
Qed.

Lemma Guarded_advance {A} (p : Prog A) at_ hs ev :
  Guarded at_ p hs → Guarded at_ p (advance hs ev).
Proof.
  intros HG. destruct hs as [|h t]; [done|]. simpl.
  destruct (h ev); [by apply (Guarded_tail p at_ (h :: t))|done].
Qed.

Section Guarding.
Context (env : Env).

Lemma Guarded_step {A} at_ (p : Prog A) hs w p' w' sp :
  Guarded at_ p hs → step env p w = Next p' w' sp →
  (events w' = events w ∧ sp = None ∧ Guarded at_ p' hs)
  ∨ ∃ ev, events w' = events w ++ [ev]
          ∧ (at_ ev = true → hs = [])
          ∧ Guarded at_ p' (advance hs ev)
          ∧ ∀ g, sp = Some g → Guarded at_ g (advance hs ev).
Proof.
  destruct p; simpl; try done; intros HG;
    unfold do_Run, do_Start, do_Wait, do_Signal, do_TempDir, do_WriteFile,
      do_Rename;
    repeat case_match; intros [= <- <- <-]; simplify_eq;
    first [right; eexists; split; [done|]; split; [by apply HG|];
           split; [by apply HG|done]
          |left; split; [done|]; split; [done|]; by apply HG
          |idtac].
  destruct HG as (Hat & Hg & Hk). right. eexists. split; [done|].
  split; [done|]. split; [done|]. by intros ? [= <-].
Qed.

Lemma Guarded_stopped {A} at_ (p : Prog A) hs w code w' :
  Guarded at_ p hs → step env p w = Stopped code w' →
  at_ (EvExit code) = true → hs = [].
Proof.
  destruct p; simpl; try done; try (by intros HG [= <- <-]);
    intros _; by repeat case_match.
Qed.

(** Whatever the schedule, at every call singled out the events looked
    for have been seen, in their order, before it. *)
Lemma Guarded_run sched {A} at_ (m : Prog A) hits w w' o :
  Guarded at_ m hits →
  run_pool env sched m None w = (w', o) →
  ∀ n ev, since w w' !! n = Some ev → at_ ev = true →
          in_order hits (take n (since w w')) = true.
Proof.
  intros Hm Hrun.
  set (Good := λ evs : list Event,
         ∀ n ev, evs !! n = Some ev → at_ ev = true →
                 foldl advance hits (take n evs) = []).
  assert (Hsnoc : ∀ evs ev,
            Good evs → (at_ ev = true → foldl advance hits evs = []) →
            Good (evs ++ [ev])).
  { intros evs ev HG Hev n ev' Hn Hat.
    destruct (decide (n < length evs)%nat) as [Hlt|Hge].
    - rewrite lookup_app_l in Hn by done.
      rewrite take_app_le by lia. by apply (HG n ev').
    - rewrite lookup_app_r in Hn by lia.
      apply list_lookup_singleton_Some in Hn as [Hn <-].
      assert (n = length evs) as -> by lia.
      rewrite take_app_length. by apply Hev. }
  set (Inv := λ (m : Prog A) (g : option (Prog unit)) (w1 : World),
         ∃ evs, events w1 = events w ++ evs ∧ Good evs
                ∧ Guarded at_ m (foldl advance hits evs)
                ∧ match g with
                  | Some g' => Guarded at_ g' (foldl advance hits evs)
                  | None => True
                  end).
  set (Post := λ (w1 : World) (o : Outcome A),
         ∃ evs, events w1 = events w ++ evs ∧ Good evs).
  assert (H : Post (run_pool env sched m None w).1 (run_pool env sched m None w).2).
  { apply (run_pool_invariant env Inv Post); subst Inv Post; simpl.
    - intros a g w1 (evs & Hev & HG & _). by exists evs.
    - intros m1 g w1 m2 w2 sp (evs & Hev & HG & Hm1 & Hg) Hstep.
      destruct (Guarded_step at_ m1 _ w1 m2 w2 sp Hm1 Hstep)
        as [(Hev' & -> & Hm2)|(ev & Hev' & Hat & Hm2 & Hsp)].
      + exists evs. by rewrite Hev'.
      + exists (evs ++ [ev]). rewrite foldl_app.
        split; [by rewrite Hev', Hev, (assoc_L (++))|].
        split; [by apply Hsnoc|]. split; [done|].
        destruct sp as [g'|]; [by apply Hsp|].
        destruct g as [g|]; [|done]. by apply Guarded_advance.
    - intros m1 g w1 code w2 (evs & Hev & HG & Hm1 & _) Hstep.
      rewrite (step_Stopped env m1 w1 code w2 Hstep).
      exists (evs ++ [EvExit code]).
      split; [by rewrite events_emit, Hev, (assoc_L (++))|].
      apply Hsnoc; [done|].
      by apply (Guarded_stopped at_ m1 _ w1 code w2).
    - intros m1 g w1 u (evs & Hev & HG & Hm1 & _) _. by exists evs.
    - intros m1 g w1 g' w2 sp (evs & Hev & HG & Hm1 & Hg) Hstep.
      destruct (Guarded_step at_ g _ w1 g' w2 sp Hg Hstep)
        as [(Hev' & -> & Hg')|(ev & Hev' & Hat & Hg' & _)].
      + exists evs. by rewrite Hev'.
      + exists (evs ++ [ev]). rewrite foldl_app.
        split; [by rewrite Hev', Hev, (assoc_L (++))|].
        split; [by apply Hsnoc|]. split; [|done]. by apply Guarded_advance.
    - intros m1 g w1 code w2 (evs & Hev & HG & _ & Hg) Hstep.
      rewrite (step_Stopped env g w1 code w2 Hstep).
      exists (evs ++ [EvExit code]).
      split; [by rewrite events_emit, Hev, (assoc_L (++))|].
      apply Hsnoc; [done|].
      by apply (Guarded_stopped at_ g _ w1 code w2).
    - exists []. split; [by rewrite app_nil_r|]. split; [|done].
      by intros n ev Hn. }
  rewrite Hrun in H. destruct H as (evs & Hev & HG).
  rewrite (since_app w w' evs Hev). intros n ev Hn Hat.
  unfold in_order. by rewrite (HG n ev Hn Hat).
Qed.
End Guarding.

(** Unfolds a program of the source against the calls singled out. *)
Ltac guarded :=
  unfold Install, defer, createImage, runMachine, compressImage, buildImage,
    pushImage, writeDockerfile, run_command, await_operator, Fatal,
    create_argv, push_argv, convert_argv, build_argv, runMachine_args,
    mbind, Prog_bind, mret, Prog_ret;
  repeat (simpl;
          first [done
                |rewrite bool_decide_eq_true_2 by done
                |intros ?%bool_decide_eq_true_1; simplify_eq
                |intros ? [?|]|intros [?|]|intro|split
                |case_match]).

Local Opaque dockerFilepath dockerfileContents tempFilepath.

Lemma Guarded_Install i s :
  Guarded (call_of s) (Install i) (done_before i s).
Proof.
  unfold done_before, steps_of, call_of, Install.
  destruct s; destruct (compress (config i)); guarded.
Qed.

Local Transparent dockerFilepath dockerfileContents tempFilepath.

(** X17. Whatever the schedule, and however the run ends, [Install] makes
    no call of a stage before every stage that comes before it in the
    pipeline has done all it does and has returned without an error: the
    emulator is not started before the image was created, nothing is
    converted or renamed before the emulator was started and waited for,
    the build descriptor is not written and nothing is built before that
    and, with compression, before the conversion and the rename
    succeeded, and nothing is pushed before the build succeeded.  So a
    stage is never called while a stage before it has not succeeded,
    under every interleaving with the goroutine of [runMachine]. *)
Theorem Install_stage_only_after_stages_before env sched i s w w' o n ev :
  run_pool env sched (Install i) None w = (w', o) →
  since w w' !! n = Some ev →
  call_of s ev = true →
  in_order (done_before i s) (take n (since w w')) = true.
Proof.
  intros Hrun.
  by apply (Guarded_run env sched (call_of s) (Install i) (done_before i s)
              w w' o (Guarded_Install i s) Hrun).
Qed.

Lemma Install_stage_only_after_stages_before_witness :
  Attended.final_Install = (Attended.final_Install.1, Returned None)
  ∧ since Sim.start Attended.final_Install.1 !! 17%nat
    = Some (EvRun (push_argv Attended.i) "docker: ok" None)
  ∧ in_order (done_before Attended.i PushStage)
             (take 17 (since Sim.start Attended.final_Install.1)) = true.
Proof.
  split; [vm_compute; reflexivity|]. split; [vm_compute; reflexivity|].
  apply (Install_stage_only_after_stages_before Attended.env Attended.sched
           Attended.i PushStage Sim.start Attended.final_Install.1
           (Returned None) 17%nat
           (EvRun (push_argv Attended.i) "docker: ok" None));
    vm_compute; reflexivity.
Defined.

(** ** After a call has failed *)

Section Care.
Context (env : Env).

Lemma Careful_step {A} (p : Prog A) w p' w' sp :
  Careful p → step env p w = Next p' w' sp →
  (∀ g, sp = Some g → Only harmless g)
  ∧ ∃ evs, events w' = events w ++ evs ∧ (length evs ≤ 1)%nat
           ∧ ((existsb failed_call evs = false ∧ Careful p')
              ∨ Only harmless p').
Proof.
  destruct p; simpl; try done; intros HC;
    unfold do_Run, do_Start, do_Wait, do_Signal, do_TempDir, do_WriteFile,
      do_Rename;
    repeat case_match; intros [= <- <- <-]; simplify_eq.
  all: try (split; [done|]).
  all: try (eexists [_]; split; [done|]; split; [done|]; left;
            split; [done|]; by apply HC).
  all: try (exists []; split; [by rewrite app_nil_r|]; split; [simpl; lia|];
            left; split; [done|]; by apply HC).
  all: try (eexists [_]; split; [done|]; split; [done|]; right; by apply HC).
  - eexists [_]. split; [done|]. split; [done|].
    destruct (HC s) as [Hfail Hok].
    destruct o as [e|]; [right; apply Hfail|left; by split].
  - eexists [_]. split; [done|]. split; [done|]. destruct HC as [Hfail Hok].
    destruct (start_err env argv (fs w)) as [e|];
      [right; apply Hfail|left; by split].
  - destruct HC as [Hg Hk]. split; [by intros ? [= <-]|].
    eexists [_]. split; [done|]. split; [done|]. left. by split.
Qed.

Lemma harmless_not_failed evs :
  forallb harmless evs = true → existsb failed_call evs = false.
Proof.
  induction evs as [|ev evs IH]; [done|]. simpl.
  intros [Hev Hevs]%andb_true_iff. rewrite (IH Hevs).
  unfold harmless in Hev. apply andb_true_iff in Hev as [_ Hev].
  by destruct (failed_call ev).
Qed.

(** Whatever the schedule, once a call has failed everything that follows
    in the run is harmless. *)
Lemma Careful_run sched {A} (m : Prog A) w w' o :
  Careful m →
  run_pool env sched m None w = (w', o) →
  ∀ n ev, since w w' !! n = Some ev → failed_call ev = true →
          forallb harmless (drop (S n) (since w w')) = true.
Proof.
  intros Hm Hrun.
  set (Good := λ evs : list Event,
         ∀ n ev, evs !! n = Some ev → failed_call ev = true →
                 forallb harmless (drop (S n) evs) = true).
  assert (Hquiet : ∀ evs evs',
            Good evs → forallb harmless evs' = true → Good (evs ++ evs')).
  { intros evs evs' HG Hev' n ev Hn Hfail.
    destruct (decide (n < length evs)%nat) as [Hlt|Hge].
    - rewrite lookup_app_l in Hn by done.
      rewrite drop_app_le by lia. rewrite forallb_app, (HG n ev Hn Hfail).
      done.
    - rewrite lookup_app_r in Hn by lia.
      apply list_elem_of_lookup_2 in Hn.
      rewrite forallb_forall in Hev'.
      apply list_elem_of_In, Hev' in Hn.
      unfold harmless in Hn. rewrite Hfail in Hn.
      by rewrite andb_false_r in Hn. }
  assert (Hfirst : ∀ evs evs',
            existsb failed_call evs = false → (length evs' ≤ 1)%nat →
            Good (evs ++ evs')).
  { intros evs evs' Hnone Hlen n ev Hn Hfail.
    destruct (decide (n < length evs)%nat) as [Hlt|Hge].
    - rewrite lookup_app_l in Hn by done.
      apply list_elem_of_lookup_2, list_elem_of_In in Hn.
      assert (existsb failed_call evs = true)
        by (apply existsb_exists; eauto).
      congruence.
    - rewrite drop_ge; [done|]. rewrite length_app.
      apply lookup_lt_Some in Hn. rewrite length_app in Hn. lia. }
  set (Inv := λ (m : Prog A) (g : option (Prog unit)) (w1 : World),
         ∃ evs, events w1 = events w ++ evs ∧ Good evs
                ∧ match g with Some g' => Only harmless g' | None => True end
                ∧ ((existsb failed_call evs = false ∧ Careful m)
                   ∨ Only harmless m)).
  set (Post := λ (w1 : World) (o : Outcome A),
         ∃ evs, events w1 = events w ++ evs ∧ Good evs).
  assert (H : Post (run_pool env sched m None w).1 (run_pool env sched m None w).2).
  { apply (run_pool_invariant env Inv Post); subst Inv Post; simpl.
    - intros a g w1 (evs & Hev & HG & _). by exists evs.
    - intros m1 g w1 m2 w2 sp (evs & Hev & HG & Hg & [[Hnone HC]|HO]) Hstep.
      + destruct (Careful_step m1 w1 m2 w2 sp HC Hstep)
          as (Hsp & evs' & Hev' & Hlen & Hm2).
        exists (evs ++ evs'). split; [by rewrite Hev', Hev, (assoc_L (++))|].
        split; [by apply Hfirst|].
        split; [destruct sp; [by apply Hsp|done]|].
        destruct Hm2 as [[Hnone' HC']|HO']; [left|by right].
        split; [|done]. by rewrite existsb_app, Hnone, Hnone'.
      + destruct (Only_step env harmless m1 w1 m2 w2 sp HO Hstep)
          as (HO' & Hsp & evs' & Hev' & Hok).
        exists (evs ++ evs'). split; [by rewrite Hev', Hev, (assoc_L (++))|].
        split; [by apply Hquiet|].
        split; [destruct sp; [by apply Hsp|done]|]. by right.
    - intros m1 g w1 code w2 (evs & Hev & HG & _) Hstep.
      rewrite (step_Stopped env m1 w1 code w2 Hstep).
      exists (evs ++ [EvExit code]).
      split; [by rewrite events_emit, Hev, (assoc_L (++))|].
      by apply Hquiet.
    - intros m1 g w1 u (evs & Hev & HG & _ & Hm1) _. by exists evs.
    - intros m1 g w1 g' w2 sp (evs & Hev & HG & Hg & Hm1) Hstep.
      destruct (Only_step env harmless g w1 g' w2 sp Hg Hstep)
        as (Hg' & _ & evs' & Hev' & Hok).
      exists (evs ++ evs'). split; [by rewrite Hev', Hev, (assoc_L (++))|].
      split; [by apply Hquiet|]. split; [done|].
      destruct Hm1 as [[Hnone HC]|HO]; [left|by right].
      split; [|done].
      by rewrite existsb_app, Hnone, (harmless_not_failed evs' Hok).
    - intros m1 g w1 code w2 (evs & Hev & HG & _) Hstep.
      rewrite (step_Stopped env g w1 code w2 Hstep).
      exists (evs ++ [EvExit code]).
      split; [by rewrite events_emit, Hev, (assoc_L (++))|].
      by apply Hquiet.
    - exists []. split; [by rewrite app_nil_r|]. split; [by intros n ev Hn|].
      split; [done|]. left. by split. }
  rewrite Hrun in H. destruct H as (evs & Hev & HG).
  by rewrite (since_app w w' evs Hev).
Qed.
End Care.

Local Opaque dockerFilepath dockerfileContents tempFilepath runMachine_args
  convert_argv build_argv.

Lemma Careful_Install i : Careful (Install i).
Proof.
  unfold Install, defer, createImage, runMachine, compressImage, buildImage,
    pushImage, writeDockerfile, run_command, await_operator, Fatal,
    mbind, Prog_bind, mret, Prog_ret.
  repeat (simpl; first [done|intros ? [?|]|intros [?|]|intro|split|case_match]).
Qed.

Local Transparent dockerFilepath dockerfileContents tempFilepath runMachine_args
  convert_argv build_argv.

(** X20. Whatever the schedule, and however the run ends, once a call
    whose error [Install] looks at has failed (an external program that
    ran, the start of the emulator, the write of the build descriptor, the
    rename), nothing that follows in the run is a call of a stage, and no
    other such call fails: what is left is logging, the removal of the
    working directory, and what the goroutine of [runMachine] does.  The
    error of [cmd.Wait] is not among these calls, see X18. *)
Theorem Install_failed_call_ends_the_stages env sched i w w' o n ev :
  run_pool env sched (Install i) None w = (w', o) →
  since w w' !! n = Some ev →
  failed_call ev = true →
  forallb harmless (drop (S n) (since w w')) = true.
Proof.
  intros Hrun.
  by apply (Careful_run env sched (Install i) w w' o (Careful_Install i) Hrun).
Qed.

Lemma Install_failed_call_ends_the_stages_witness :
  BuildFailsMain.pool_Install
  = (BuildFailsMain.pool_Install.1, Returned (Some "exit status 1"))
  ∧ since Sim.start BuildFailsMain.pool_Install.1 !! 15%nat
    = Some (EvRun (build_argv BuildFails.i) "docker: failed"
                  (Some "exit status 1"))
  ∧ forallb harmless
      (drop 16 (since Sim.start BuildFailsMain.pool_Install.1)) = true.
Proof.
  split; [vm_compute; reflexivity|]. split; [vm_compute; reflexivity|].
  apply (Install_failed_call_ends_the_stages BuildFails.env Attended.sched
           BuildFails.i Sim.start BuildFailsMain.pool_Install.1
           (Returned (Some "exit status 1")) 15%nat
           (EvRun (build_argv BuildFails.i) "docker: failed"
                  (Some "exit status 1")));
    vm_compute; reflexivity.
Defined.

(** ** What the run-machine stage returns *)

Lemma AssignsSignal_step env {A} sent (g : Prog A) w g' w' sp :
  AssignsSignal env sent g → step env g w = Next g' w' sp →
  ∃ sent' evs,
    events w' = events w ++ evs
    ∧ AssignsSignal env sent' g'
    ∧ (sent' = true → sent = true ∨ EvSignal (signal_err env) ∈ evs)
    ∧ (var_err w' = var_err w ∨ (var_err w' = signal_err env ∧ sent = true)).
Proof.
  destruct g; simpl; try done; intros HA; unfold do_Signal;
    intros [= <- <- <-].
  - exists true, [EvSignal (signal_err env)]. split; [done|]. split; [done|].
    split; [right; by left|by left].
  - exists sent, [EvReadString]. split; [done|]. split; [done|].
    split; [by left|by left].
  - exists sent, [EvLog msg]. split; [done|]. split; [done|].
    split; [by left|by left].
  - exists sent, [EvUsage]. split; [done|]. split; [done|].
    split; [by left|by left].
  - destruct HA as (-> & -> & HA). exists true, [].
    split; [by rewrite app_nil_r|]. split; [done|]. split; [by left|by right].
  - exists sent, []. split; [by rewrite app_nil_r|]. split; [by apply HA|].
    split; [by left|by left].
Qed.

Lemma AssignsSignal_await_operator env : AssignsSignal env false await_operator.
Proof. simpl. split; [done|]. split; [done|]. by intros [e|]. Qed.

(** X18. What [runMachine] returns, whatever the schedule.  When the
    emulator did not start, it is an empty output and the error of
    [cmd.Start].  Otherwise the output is the one [cmd.Wait] gave, and the
    error is the one of [cmd.Wait] or, since the goroutine assigns to the
    same [err], the result of the signal that was sent; it is never
    anything else. *)
Theorem runMachine_returns_wait_or_signal env sched i w w' out err :
  run_pool env sched (runMachine i) None w = (w', Returned (out, err)) →
  (out = EmptyString ∧ err ≠ None
   ∧ EvStart (runMachine_args i) err ∈ since w w')
  ∨ ∃ werr, EvWait out werr ∈ since w w'
            ∧ (err = werr ∨ EvSignal err ∈ since w w').
Proof.
  intros Hrun.
  set (T := (string * option error)%type).
  set (tail_load := λ out : string, Load (λ e : option error, Ret (out, e)) : Prog T).
  set (tail_store := λ (out : string) (werr : option error),
         Store werr (tail_load out) : Prog T).
  set (waiting := Wait (λ r : T, let '(out, werr) := r in tail_store out werr)).
  set (Good := λ (out : string) (err : option error) (evs : list Event),
         (out = EmptyString ∧ err ≠ None
          ∧ EvStart (runMachine_args i) err ∈ evs)
         ∨ ∃ werr, EvWait out werr ∈ evs ∧ (err = werr ∨ EvSignal err ∈ evs)).
  set (Inv := λ (m : Prog T) (g : option (Prog unit)) (w1 : World),
         ∃ evs, events w1 = events w ++ evs
           ∧ match g with
             | Some g' => ∃ sent, AssignsSignal env sent g'
                                  ∧ (sent = true → EvSignal (signal_err env) ∈ evs)
             | None => True
             end
           ∧ (m = runMachine i
              ∨ (∃ serr, EvStart (runMachine_args i) serr ∈ evs
                   ∧ m = Store serr
                           match serr with
                           | Some _ => Ret (EmptyString, serr)
                           | None => Go await_operator waiting
                           end)
              ∨ m = Go await_operator waiting
              ∨ m = waiting
              ∨ (∃ out werr, EvWait out werr ∈ evs ∧ m = tail_store out werr)
              ∨ (∃ out werr, EvWait out werr ∈ evs ∧ m = tail_load out
                   ∧ (var_err w1 = werr ∨ EvSignal (var_err w1) ∈ evs))
              ∨ (∃ out err, m = Ret (out, err) ∧ Good out err evs))).
  set (Post := λ (w1 : World) (o : Outcome T),
         ∀ out err, o = Returned (out, err) →
                    ∃ evs, events w1 = events w ++ evs ∧ Good out err evs).
  assert (H : Post (run_pool env sched (runMachine i) None w).1
                   (run_pool env sched (runMachine i) None w).2).
  { apply (run_pool_invariant env Inv Post); subst Inv Post; simpl.
    - intros a g w1 (evs & Hev & _ & Hm) out0 err0 [= ->].
      exists evs. split; [done|].
      destruct Hm as [Hm|[(? & _ & Hm)|[Hm|[Hm|[(? & ? & _ & Hm)|[(? & ? & _ & Hm & _)|Hm]]]]]];
        try discriminate Hm.
      by destruct Hm as (? & ? & [= <- <-] & HG).
    - intros m g w1 m' w2 sp (evs & Hev & Hg & Hm) Hstep.
      assert (Hkeep : ∀ evs',
                match g with
                | Some g' => ∃ sent, AssignsSignal env sent g'
                               ∧ (sent = true →
                                  EvSignal (signal_err env) ∈ evs ++ evs')
                | None => True
                end).
      { intros evs'. destruct g as [g|]; [|done].
        destruct Hg as (sent & HA & Hsent). exists sent. split; [done|].
        intros Hs. apply elem_of_app. left. by apply Hsent. }
      destruct Hm as [->|[(serr & Hstart & ->)|[->|[->|[(out0 & werr & Hwait & ->)
                     |[(out0 & werr & Hwait & -> & Hvar)|(out0 & err0 & -> & _)]]]]]].
      + unfold runMachine in Hstep. simpl in Hstep. unfold do_Start in Hstep.
        injection Hstep as <- <- <-.
        exists (evs ++ [EvStart (runMachine_args i)
                          (start_err env (runMachine_args i) (fs w1))]).
        split; [by rewrite events_emit, Hev, (assoc_L (++))|].
        split; [apply Hkeep|]. right. left. eexists. split; [|reflexivity].
        apply elem_of_app. right. by left.
      + simpl in Hstep. injection Hstep as <- <- <-.
        exists evs. split; [done|]. split; [done|].
        destruct serr as [e|].
        * do 6 right. exists EmptyString, (Some e). split; [done|]. by left.
        * by do 2 right; left.
      + simpl in Hstep. injection Hstep as <- <- <-.
        exists (evs ++ [EvGo]).
        split; [by rewrite events_emit, Hev, (assoc_L (++))|].
        split; [|by do 3 right; left].
        exists false. split; [apply AssignsSignal_await_operator|done].
      + simpl in Hstep. unfold do_Wait in Hstep.
        destruct (emulator env (interrupted w1) (fs w1)) as [[out0 werr] s].
        injection Hstep as <- <- <-.
        exists (evs ++ [EvWait out0 werr]).
        split; [unfold emit, set_fs; simpl; by rewrite Hev, (assoc_L (++))|].
        split; [apply Hkeep|]. do 4 right. left. exists out0, werr.
        split; [|done]. apply elem_of_app. right. by left.
      + simpl in Hstep. injection Hstep as <- <- <-.
        exists evs. split; [done|]. split; [done|]. do 5 right. left.
        exists out0, werr. split; [done|]. split; [done|]. by left.
      + simpl in Hstep. injection Hstep as <- <- <-.
        exists evs. split; [done|]. split; [done|]. do 6 right.
        exists out0, (var_err w1). split; [done|]. right. by exists werr.
      + done.
    - done.
    - intros m g w1 u (evs & Hev & _ & Hm) _. by exists evs.
    - intros m g w1 g' w2 sp (evs & Hev & (sent & HA & Hsent) & Hm) Hstep.
      destruct (AssignsSignal_step env sent g w1 g' w2 sp HA Hstep)
        as (sent' & evs' & Hev' & HA' & Hsent' & Hvar').
      exists (evs ++ evs'). split; [by rewrite Hev', Hev, (assoc_L (++))|].
      assert (Hsig : sent' = true → EvSignal (signal_err env) ∈ evs ++ evs').
      { intros Hs. apply elem_of_app.
        destruct (Hsent' Hs) as [Hs'|Hin]; [left; by apply Hsent|by right]. }
      split; [by exists sent'|].
      destruct Hm as [->|[(serr & Hstart & ->)|[->|[->|[(out0 & werr & Hwait & ->)
                     |[(out0 & werr & Hwait & -> & Hvar)|(out0 & err0 & -> & HG)]]]]]].
      + by left.
      + right. left. exists serr. split; [|done]. apply elem_of_app. by left.
      + by do 2 right; left.
      + by do 3 right; left.
      + do 4 right. left. exists out0, werr. split; [|done].
        apply elem_of_app. by left.
      + do 5 right. left. exists out0, werr.
        split; [apply elem_of_app; by left|]. split; [done|].
        destruct Hvar' as [->|[-> Hs]].
        * destruct Hvar as [?|?]; [by left|right; apply elem_of_app; by left].
        * right. apply elem_of_app. left. by apply Hsent.
      + do 6 right. exists out0, err0. split; [done|].
        destruct HG as [(? & ? & ?)|(werr & ? & Herr)].
        * left. split; [done|]. split; [done|]. apply elem_of_app. by left.
        * right. exists werr. split; [apply elem_of_app; by left|].
          destruct Herr as [?|?]; [by left|right; apply elem_of_app; by left].
    - done.
    - exists []. split; [by rewrite app_nil_r|]. split; [done|]. by left. }
  rewrite Hrun in H. destruct (H out err eq_refl) as (evs & Hev & HG).
  by rewrite (since_app w w' evs Hev).
Qed.

Lemma runMachine_returns_wait_or_signal_witness :
  Attended.final_runMachine
  = (Attended.final_runMachine.1, Returned ("emulator output", None))
  ∧ ((("emulator output" : string) = EmptyString ∧ (None : option error) ≠ None
      ∧ EvStart (runMachine_args Attended.i) None
        ∈ since Sim.start Attended.final_runMachine.1)
     ∨ ∃ werr, EvWait "emulator output" werr
               ∈ since Sim.start Attended.final_runMachine.1
               ∧ (None = werr
                  ∨ EvSignal None ∈ since Sim.start Attended.final_runMachine.1)).
Proof.
  split; [vm_compute; reflexivity|].
  apply (runMachine_returns_wait_or_signal Attended.env Attended.sched
           Attended.i Sim.start Attended.final_runMachine.1
           "emulator output" None).
  vm_compute; reflexivity.
Defined.

(** ** The configuration *)

Lemma flag_Parse_snoc args a :
  flag_Parse (args ++ [a]) = flag_set (flag_Parse args) a.
Proof. unfold flag_Parse. by rewrite foldl_app. Qed.

Lemma given_snoc {V} (pick : FlagArg → option V) registered args a :
  given pick registered (args ++ [a]) =
  match pick a with
  | Some v => v
  | None => given pick registered args
  end.
Proof.
  unfold given. rewrite omap_app. simpl.
  destruct (pick a) as [v|]; simpl; [by rewrite last_snoc|].
  by rewrite app_nil_r.
Qed.

(** X19. The configuration [newConfigFromFlags] reads off a command line:
    every field has the last value given for its own flag, whatever other
    flags stand around it, and the value the flag is registered with when
    the flag is not given ("50G" for the size, false for the two
    switches).  When the resulting ISO path and image name are both
    non-empty the function returns this configuration, under every
    schedule, without any call to the outside: no usage text, no exit. *)
Theorem newConfigFromFlags_last_value_wins env sched args w :
  let c := mkConfig (given iso_flag EmptyString args)
                    (given size_flag "50G" args)
                    (given image_flag EmptyString args)
                    (given kvm_flag false args)
                    (given compress_flag false args) in
  flag_Parse args = c
  ∧ (isoFilepath c ≠ EmptyString → image c ≠ EmptyString →
     run_pool env sched (newConfigFromFlags args) None w = (w, Returned c)).
Proof.
  assert (Hparse : flag_Parse args
                   = mkConfig (given iso_flag EmptyString args)
                              (given size_flag "50G" args)
                              (given image_flag EmptyString args)
                              (given kvm_flag false args)
                              (given compress_flag false args)).
  { induction args as [|a args IH] using rev_ind; [done|].
    rewrite flag_Parse_snoc, IH, !given_snoc. by destruct a. }
  split; [done|]. intros Hiso Himage.
  rewrite run_pool_NoGo by apply NoGo_newConfigFromFlags.
  rewrite exec_newConfigFromFlags, Hparse.
  rewrite bool_decide_eq_false_2; [done|]. by intros [?|?].
Qed.

(** ** Every command line (C5) *)

Lemma main_os_accepted args : main_os (accepted args) = main args.
Proof. reflexivity. Qed.






Local Opaque dockerFilepath dockerfileContents tempFilepath.

Lemma known_call_of_main_os cl :
  Only (known_call_of (exit_statuses cl)) (main_os cl).
Proof.
  destruct cl as [args [|msg|[|]]];
    unfold main_os, newConfigFromFlags_os, exit_statuses, rejection_status;
    cbn [cl_end cl_flags]; allowed.
Qed.

Local Transparent dockerFilepath dockerfileContents tempFilepath.

(** X14. Whatever the command line, the environment and the schedule, the
    only external programs a run of the program executes are [which],
    [qemu-img], [docker] and, as a process of its own,
    [qemu-system-x86_64].  When the run ends in [os.Exit] the status is 1,
    from [log.Fatal] or from the check of the two paths, unless it is
    [flag.Parse] that ends the process: then it is 2, or 0 after a request
    for help with a Go release from 1.15 on. *)
Theorem main_known_calls env sched cl w :
  forallb (known_call_of (exit_statuses cl))
          (since w (run_pool env sched (main_os cl) None w).1) = true
  ∧ ∀ code, (run_pool env sched (main_os cl) None w).2 = Exited code →
            code = 1
            ∨ (code = 2 ∧ ∃ msg, cl_end cl = Refused msg)
            ∨ (code = 2 ∧ cl_end cl = HelpAsked false)
            ∨ (code = 0 ∧ cl_end cl = HelpAsked true).
Proof.
  destruct (run_pool env sched (main_os cl) None w) as [w' o] eqn:Hrun.
  split.
  - by apply (Only_run env sched (known_call_of (exit_statuses cl))
                (main_os cl) w w' o (known_call_of_main_os cl)).
  - simpl. intros code ->.
    pose proof (Exited_allowed env sched (known_call_of (exit_statuses cl))
                  (main_os cl) w w' code (known_call_of_main_os cl) Hrun) as H.
    apply bool_decide_eq_true_1 in H. revert H.
    unfold exit_statuses, rejection_status.
    destruct (cl_end cl) as [|msg|[|]] eqn:Hend;
      rewrite ?elem_of_cons, elem_of_nil; intros H;
      repeat destruct H as [H|H]; try done; subst; eauto 10.
Qed.
